(** * BrowserMate AI: the search indexer and the chat context assembler

    A shallow embedding of [src/lib/indexer.ts] (class [SearchIndexer]) and of
    the filter/context step of [src/background/worker.ts]
    ([BackgroundService.handleChatRequest]), with the properties of the design
    document stated and settled against it.

    Conventions of the embedding.
    - A JavaScript string is the list of its UTF-16 code units ([jsstring]).
    - Numbers that hold counts and epoch milliseconds are integers ([Z]);
      scores and relevances, which take the values 0.5 and (max - i) / max,
      are exact rationals ([Q]).
    - [Date.now()] is an explicit argument [now].
    - The FlexSearch index is a library outside the repository: it is an
      interface ([FlexSearchIndex]) whose operations may throw.
    - [String.prototype.toLowerCase] is an interface too ([CaseMapping]); the
      instance [ascii_case] is what it does on ASCII and CJK text.
    - An [async] method is a computation in the monad [M]: it runs on a
      [World] (the indexer object and chrome.storage), keeps its mutations
      when it throws, and ends fulfilled, rejected or forever pending. *)

From Stdlib Require Import String Ascii.
From Stdlib Require Import List ZArith QArith Lia Bool.
From Stdlib Require Import Permutation Sorted Lqa.
Import ListNotations.

Set Implicit Arguments.

Local Open Scope Z_scope.

(* ===================================================================== *)
(** * JavaScript strings, arrays and regular expressions *)
(* ===================================================================== *)

Module JS.

(** A string is its sequence of UTF-16 code units. *)
Definition jsstring := list Z.

(** An ASCII literal. *)
Definition lit (s : string) : jsstring :=
  map (fun a => Z.of_N (N_of_ascii a)) (list_ascii_of_string s).

(** [a === b] on strings. *)
Fixpoint str_eqb (a b : jsstring) : bool :=
  match a, b with
  | [], [] => true
  | x :: a', y :: b' => (x =? y) && str_eqb a' b'
  | _, _ => false
  end.

(** [s.startsWith(p)], used to unfold [includes] and the literal patterns. *)
Fixpoint starts_with (p s : jsstring) : bool :=
  match p, s with
  | [], _ => true
  | x :: p', y :: s' => (x =? y) && starts_with p' s'
  | _ :: _, [] => false
  end.

(** [s.includes(sub)]. *)
Fixpoint includes (s sub : jsstring) : bool :=
  if starts_with sub s then true
  else
    match s with
    | [] => false
    | _ :: t => includes t sub
    end.

(** WhiteSpace and LineTerminator code units of ECMAScript: what [trim]
    strips and what [\s] matches. *)
Definition isWhiteSpace (c : Z) : bool :=
  (c =? 9) || (c =? 10) || (c =? 11) || (c =? 12) || (c =? 13) || (c =? 32)
  || (c =? 160) || (c =? 5760) || ((8192 <=? c) && (c <=? 8202))
  || (c =? 8232) || (c =? 8233) || (c =? 8239) || (c =? 8287)
  || (c =? 12288) || (c =? 65279).

Fixpoint trimStart (s : jsstring) : jsstring :=
  match s with
  | [] => []
  | c :: t => if isWhiteSpace c then trimStart t else s
  end.

Definition trimEnd (s : jsstring) : jsstring := rev (trimStart (rev s)).

(** [s.trim()]. *)
Definition trim (s : jsstring) : jsstring := trimEnd (trimStart s).

(** [s.substring(0, n)] for an integer [n]. *)
Definition substring0 (n : Z) (s : jsstring) : jsstring :=
  firstn (Z.to_nat n) s.

(** [arr.slice(0, n)] for an integer [n]: a negative end counts from the
    end of the array. *)
Definition slice0 {A} (n : Z) (l : list A) : list A :=
  if n <? 0
  then firstn (Z.to_nat (Z.max (Z.of_nat (length l) + n) 0)) l
  else firstn (Z.to_nat n) l.

(** [Array.from(new Set(arr))]: first occurrences, in order. *)
Fixpoint dedup_aux (seen : list jsstring) (l : list jsstring) : list jsstring :=
  match l with
  | [] => []
  | x :: t =>
      if existsb (str_eqb x) seen then dedup_aux seen t
      else x :: dedup_aux (x :: seen) t
  end.

Definition dedup (l : list jsstring) : list jsstring := dedup_aux [] l.

(** [s.split(/\s+/)]: the pieces between maximal runs of white space (an
    empty piece before a leading run and after a trailing one). *)
Fixpoint split_ws_aux (cur : jsstring) (in_ws : bool) (s : jsstring)
  : list jsstring :=
  match s with
  | [] => [rev cur]
  | c :: t =>
      if isWhiteSpace c
      then if in_ws then split_ws_aux cur true t
           else rev cur :: split_ws_aux [] true t
      else split_ws_aux (c :: cur) false t
  end.

Definition split_ws (s : jsstring) : list jsstring := split_ws_aux [] false s.

(** [s.match(/[class]+/g) || []]: the maximal runs of code units of a
    class. *)
Fixpoint runs_aux (p : Z -> bool) (cur : jsstring) (s : jsstring)
  : list jsstring :=
  match s with
  | [] => match cur with [] => [] | _ => [rev cur] end
  | c :: t =>
      if p c then runs_aux p (c :: cur) t
      else match cur with
           | [] => runs_aux p [] t
           | _ => rev cur :: runs_aux p [] t
           end
  end.

Definition runs (p : Z -> bool) (s : jsstring) : list jsstring :=
  runs_aux p [] s.

(** The classes [[一-鿿]], [[a-zA-Z]] and [\w]. *)
Definition isCJK (c : Z) : bool := (19968 <=? c) && (c <=? 40959).

Definition isAsciiLetter (c : Z) : bool :=
  ((97 <=? c) && (c <=? 122)) || ((65 <=? c) && (c <=? 90)).

Definition isWordChar (c : Z) : bool :=
  isAsciiLetter c || ((48 <=? c) && (c <=? 57)) || (c =? 95).

(** [LineTerminator]: what [.] does not match. *)
Definition isLineTerminator (c : Z) : bool :=
  (c =? 10) || (c =? 13) || (c =? 8232) || (c =? 8233).

(** ** Regular expressions

    The fragment the indexer's patterns are written in. *)
Inductive regex : Type :=
| Fail                          (* matches nothing (a derivative's dead end) *)
| Eps                           (* the empty pattern *)
| Chr (c : Z)                   (* a pattern character *)
| Dot                           (* [.] *)
| Seq (r1 r2 : regex)
| Alt (r1 r2 : regex)           (* [r1|r2] *)
| Star (r : regex)              (* [r*] *)
| Opt (r : regex).              (* [r?] *)

(** The sequence of the characters of a literal. *)
Fixpoint Str (s : jsstring) : regex :=
  match s with
  | [] => Eps
  | c :: t => Seq (Chr c) (Str t)
  end.

(** [r1|...|rn]. *)
Fixpoint Alts (rs : list regex) : regex :=
  match rs with
  | [] => Fail
  | [r] => r
  | r :: rs' => Alt r (Alts rs')
  end.

(** [Canonicalize] under the [i] flag without the [u] flag: the upper-case
    mapping, never from a non-ASCII character to an ASCII one. For a pattern
    character that is an ASCII letter or a CJK ideograph, an input character
    canonicalizes to the same as the pattern character exactly when the two
    are equal up to ASCII case; every pattern of the indexer is made of such
    characters, so the ASCII mapping is all that is observed. *)
Definition canonicalize (c : Z) : Z :=
  if (97 <=? c) && (c <=? 122) then c - 32 else c.

(** Does pattern character [p] match input character [c]? *)
Definition chr_match (icase : bool) (p c : Z) : bool :=
  if icase then canonicalize p =? canonicalize c else p =? c.

Fixpoint nullable (r : regex) : bool :=
  match r with
  | Fail => false
  | Eps => true
  | Chr _ => false
  | Dot => false
  | Seq r1 r2 => nullable r1 && nullable r2
  | Alt r1 r2 => nullable r1 || nullable r2
  | Star _ => true
  | Opt _ => true
  end.

(** [Seq] and [Alt] of what is left, without the dead ends. *)
Definition seq (r1 r2 : regex) : regex :=
  match r1 with
  | Fail => Fail
  | Eps => r2
  | _ => Seq r1 r2
  end.

Definition alt (r1 r2 : regex) : regex :=
  match r1, r2 with
  | Fail, _ => r2
  | _, Fail => r1
  | _, _ => Alt r1 r2
  end.

(** What is left of [r] to match after reading [c]. *)
Fixpoint deriv (icase : bool) (c : Z) (r : regex) : regex :=
  match r with
  | Fail => Fail
  | Eps => Fail
  | Chr p => if chr_match icase p c then Eps else Fail
  | Dot => if isLineTerminator c then Fail else Eps
  | Seq r1 r2 =>
      if nullable r1
      then alt (seq (deriv icase c r1) r2) (deriv icase c r2)
      else seq (deriv icase c r1) r2
  | Alt r1 r2 => alt (deriv icase c r1) (deriv icase c r2)
  | Star r1 => seq (deriv icase c r1) (Star r1)
  | Opt r1 => deriv icase c r1
  end.

(** Does a prefix of [s] match [r]? *)
Fixpoint prefix_match (icase : bool) (r : regex) (s : jsstring) : bool :=
  if nullable r then true
  else
    match r, s with
    | Fail, _ => false
    | _, [] => false
    | _, c :: t => prefix_match icase (deriv icase c r) t
    end.

(** [r.test(s)] for a pattern without the [g] flag: does [r] match somewhere
    in [s]? *)
Fixpoint test (icase : bool) (r : regex) (s : jsstring) : bool :=
  if prefix_match icase r s then true
  else
    match s with
    | [] => false
    | _ :: t => test icase r t
    end.

(** ** [s.replace(/\b(w1|...|wn)\b/g, '')] for literal words

    [\b] holds between two positions when exactly one of the neighbouring
    characters is a word character; the alternatives are tried in order and
    the first one that is followed by a [\b] is taken. *)
Definition isWordAt (c : option Z) : bool :=
  match c with
  | Some x => isWordChar x
  | None => false
  end.

Definition boundary (before after : option Z) : bool :=
  xorb (isWordAt before) (isWordAt after).

Definition word_match_at (prev : option Z) (s w : jsstring) : bool :=
  boundary prev (hd_error s)
  && starts_with w s
  && boundary (hd_error (rev w)) (hd_error (skipn (length w) s)).

Fixpoint find_word (prev : option Z) (s : jsstring) (ws : list jsstring)
  : option nat :=
  match ws with
  | [] => None
  | w :: ws' =>
      if word_match_at prev s w then Some (length w)
      else find_word prev s ws'
  end.

(** [skip] characters of a match that was found are still to be dropped. *)
Fixpoint remove_words_aux (ws : list jsstring) (prev : option Z) (skip : nat)
  (s : jsstring) : jsstring :=
  match s with
  | [] => []
  | c :: t =>
      match skip with
      | S k => remove_words_aux ws (Some c) k t
      | O =>
          match find_word prev s ws with
          | Some (S k) => remove_words_aux ws (Some c) k t
          | _ => c :: remove_words_aux ws (Some c) O t
          end
      end
  end.

Definition remove_words (ws : list jsstring) (s : jsstring) : jsstring :=
  remove_words_aux ws None O s.

(** [String.prototype.toLowerCase], the Unicode lower-case mapping. *)
Class CaseMapping := { toLowerCase : jsstring -> jsstring }.

(** The mapping on ASCII letters; it leaves CJK ideographs, digits and
    punctuation as they are, as the Unicode mapping does. *)
Definition ascii_lower (c : Z) : Z :=
  if (65 <=? c) && (c <=? 90) then c + 32 else c.

Definition ascii_case : CaseMapping := {| toLowerCase := map ascii_lower |}.

End JS.

Import JS.

(* ===================================================================== *)
(** * The data model ([@/types/models]) *)
(* ===================================================================== *)

Module ItemType.
(** ['bookmark' | 'history' | 'reading-list'] *)
Inductive t : Type := bookmark | history | reading_list.

Definition eqb (a b : t) : bool :=
  match a, b with
  | bookmark, bookmark | history, history | reading_list, reading_list => true
  | _, _ => false
  end.
End ItemType.

Module BookmarkItem.
(** A node of the bookmark tree; an optional field is an [option]. *)
#[warnings="-register-all"] Inductive t : Type :=
  mk { id : jsstring;
       title : jsstring;
       url : option jsstring;
       dateAdded : option Z;
       children : option (list t) }.
End BookmarkItem.

Module HistoryItem.
Record t : Type :=
  mk { id : jsstring;
       url : option jsstring;
       title : option jsstring;
       lastVisitTime : option Z;
       visitCount : option Z;
       typedCount : option Z }.
End HistoryItem.

Module ReadingListItem.
Record t : Type :=
  mk { title : jsstring;
       url : jsstring;
       hasBeenRead : bool;
       creationTime : Z;
       lastUpdateTime : Z }.
End ReadingListItem.

Module IndexedItem.
Record t : Type :=
  mk { id : jsstring;
       title : jsstring;
       url : jsstring;
       content : jsstring;
       type : ItemType.t;
       timestamp : Z;
       snippet : option jsstring }.
End IndexedItem.

Module SearchResult.
Record t : Type :=
  mk { item : IndexedItem.t;
       score : Q;
       relevance : Q }.
End SearchResult.

Module AppSettings.
Record sources : Type :=
  mk_sources { bookmarks : bool; history : bool; readingList : bool }.

Record t : Type :=
  mk { enabledSources : sources;
       maxResults : Z }.
End AppSettings.

(** The entries of the context handed to the generation step. *)
Module ContextEntry.
Record t : Type :=
  mk { title : jsstring;
       url : jsstring;
       snippet : jsstring;
       type : ItemType.t;
       timestamp : Z }.
End ContextEntry.

(** JavaScript truthiness of an optional string and of an optional number,
    as [x && ...] and [x || ...] test it. *)
Definition truthy_str (s : option jsstring) : bool :=
  match s with
  | Some (_ :: _) => true
  | _ => false
  end.

(** [s || d] for an optional string. *)
Definition or_str (s : option jsstring) (d : jsstring) : jsstring :=
  match s with
  | Some (c :: t) => c :: t
  | _ => d
  end.

(** [n || d] for an optional number. *)
Definition or_num (n : option Z) (d : Z) : Z :=
  match n with
  | Some x => if x =? 0 then d else x
  | None => d
  end.

(* ===================================================================== *)
(** * Completions, promises and the world the methods run on *)
(* ===================================================================== *)

(** A thrown value. *)
Inductive exn : Type := Error (message : string).

(** How a synchronous call ends. *)
Inductive Completion (A : Type) : Type :=
| Normal (a : A)
| Abrupt (e : exn).
Arguments Abrupt {A} e.

(** How an [async] call ends: its promise is fulfilled, rejected, or never
    settles. *)
Inductive Outcome (A : Type) : Type :=
| Fulfilled (a : A)
| Rejected (e : exn)
| Pending.
Arguments Rejected {A} e.
Arguments Pending {A}.

(** The part of FlexSearch the indexer calls, on an index made by
    [new FlexSearch.Index({tokenize: 'forward', optimize: false, cache: 10})].
    Every call may throw and may change the index. [index_export] yields the
    data the export callback receives under the key ['index'], if it ever
    does. *)
Class FlexSearchIndex : Type := {
  Index : Type;
  index_new : Index;
  index_add : Index -> jsstring -> jsstring -> Completion unit * Index;
  index_remove : Index -> jsstring -> Completion unit * Index;
  index_search : Index -> jsstring -> Z -> Completion (list jsstring) * Index;
  index_export : Index -> Completion (option jsstring) * Index
}.

(** ** A [Map<string, IndexedItem>]: entries in insertion order *)
Module ItemMap.
Definition t : Type := list (jsstring * IndexedItem.t).

Fixpoint get (k : jsstring) (m : t) : option IndexedItem.t :=
  match m with
  | [] => None
  | (k', v) :: m' => if str_eqb k k' then Some v else get k m'
  end.

Definition has (k : jsstring) (m : t) : bool :=
  match get k m with Some _ => true | None => false end.

Fixpoint replace (k : jsstring) (v : IndexedItem.t) (m : t) : t :=
  match m with
  | [] => []
  | (k', v') :: m' =>
      if str_eqb k k' then (k', v) :: m' else (k', v') :: replace k v m'
  end.

(** [m.set(k, v)]: an existing key keeps its place, a new one goes last. *)
Definition set (k : jsstring) (v : IndexedItem.t) (m : t) : t :=
  if has k m then replace k v m else m ++ [(k, v)].

(** [m.delete(k)]. *)
Fixpoint delete (k : jsstring) (m : t) : t :=
  match m with
  | [] => []
  | (k', v') :: m' =>
      if str_eqb k k' then m' else (k', v') :: delete k m'
  end.

(** [m.values()]. *)
Definition values (m : t) : list IndexedItem.t := map snd m.

(** [m.size]. *)
Definition size (m : t) : Z := Z.of_nat (length m).
End ItemMap.

(** ** chrome.storage.local behind [StorageManager] ([src/lib/storage.ts]) *)
Module Storage.
Inductive key : Type :=
| BOOKMARKS | HISTORY | READING_LIST | INDEXED_ITEMS | SEARCH_INDEX.

(** The stored values ([None]: the key is not set), whether the store
    answers at all, and the keys read so far (latest first). *)
Record t : Type :=
  mk { bookmarks : option (list BookmarkItem.t);
       history : option (list HistoryItem.t);
       readingList : option (list ReadingListItem.t);
       indexedItems : option (list IndexedItem.t);
       searchIndex : option jsstring;
       available : bool;
       reads : list key }.

Definition empty : t := mk None None None None None true [].

Definition log_read (k : key) (s : t) : t :=
  mk (bookmarks s) (history s) (readingList s) (indexedItems s)
     (searchIndex s) (available s) (k :: reads s).

(** [(await this.get(KEY)) || []]: a failed read is caught in [get] and
    counts as no value. *)
Definition or_empty {A} (av : bool) (v : option (list A)) : list A :=
  if av then match v with Some l => l | None => [] end else [].

Definition getBookmarks (s : t) : list BookmarkItem.t * t :=
  (or_empty (available s) (bookmarks s), log_read BOOKMARKS s).

Definition getHistory (s : t) : list HistoryItem.t * t :=
  (or_empty (available s) (history s), log_read HISTORY s).

Definition getReadingList (s : t) : list ReadingListItem.t * t :=
  (or_empty (available s) (readingList s), log_read READING_LIST s).

Definition getIndexedItems (s : t) : list IndexedItem.t * t :=
  (or_empty (available s) (indexedItems s), log_read INDEXED_ITEMS s).

(** [this.get(SEARCH_INDEX)]: [result[key] || null], so the empty string
    reads as [null]. *)
Definition getSearchIndex (s : t) : option jsstring * t :=
  ((if available s
    then match searchIndex s with
         | Some (c :: r) => Some (c :: r)
         | _ => None
         end
    else None),
   log_read SEARCH_INDEX s).

(** [this.set(KEY, value)]: [true] when the write went through. *)
Definition setIndexedItems (v : list IndexedItem.t) (s : t) : bool * t :=
  if available s
  then (true, mk (bookmarks s) (history s) (readingList s) (Some v)
                 (searchIndex s) (available s) (reads s))
  else (false, s).

Definition setSearchIndex (v : jsstring) (s : t) : bool * t :=
  if available s
  then (true, mk (bookmarks s) (history s) (readingList s) (indexedItems s)
                 (Some v) (available s) (reads s))
  else (false, s).
End Storage.

(* ===================================================================== *)
(** * The indexer ([src/lib/indexer.ts]) *)
(* ===================================================================== *)

Section SearchIndexer.

Context {case_mapping : CaseMapping} {flexsearch : FlexSearchIndex}.

(** The fields of the [SearchIndexer] singleton. *)
Record Indexer : Type :=
  mkIndexer { index : Index;
              items : ItemMap.t;
              isInitialized : bool }.

(** What the constructor leaves. *)
Definition new_indexer : Indexer := mkIndexer index_new [] false.

(** The indexer, the storage, and a record of what other tasks could see:
    the state of the indexer at each [await] at which a method was suspended
    (latest first). JavaScript runs a method without interruption between
    two awaits, so these are the only states a concurrent call observes. *)
Record World : Type :=
  mkWorld { indexer : Indexer;
            storage : Storage.t;
            suspended : list Indexer }.

Definition new_world (s : Storage.t) : World := mkWorld new_indexer s [].

(** ** The monad of the methods

    A method runs on the world and ends with an outcome; whatever it changed
    before it threw stays changed. *)
Definition M (A : Type) : Type := World -> Outcome A * World.

Definition ret {A} (a : A) : M A := fun w => (Fulfilled a, w).

Definition bind {A B} (c : M A) (k : A -> M B) : M B :=
  fun w =>
    match c w with
    | (Fulfilled a, w') => k a w'
    | (Rejected e, w') => (Rejected e, w')
    | (Pending, w') => (Pending, w')
    end.

Definition throw {A} (e : exn) : M A := fun w => (Rejected e, w).

(** [try { c } catch (error) { h error }] *)
Definition try_catch {A} (c : M A) (h : exn -> M A) : M A :=
  fun w =>
    match c w with
    | (Rejected e, w') => h e w'
    | r => r
    end.

Notation "x <- c ;; k" := (bind c (fun x => k))
  (at level 61, c at next level, right associativity).
Notation "c ;;; k" := (bind c (fun _ => k))
  (at level 61, right associativity).

(** The method is suspended: other tasks run on the indexer as it is now. *)
Definition suspend : M unit :=
  fun w =>
    (Fulfilled tt,
     mkWorld (indexer w) (storage w) (indexer w :: suspended w)).

(** [await c] for a call [c] of an [async] method: the caller resumes in a
    later turn than the one in which [c] settled. *)
Definition await {A} (c : M A) : M A :=
  r <- c ;; suspend ;;; ret r.

(** Awaiting a promise that never settles. *)
Definition never {A} : M A :=
  fun w =>
    (Pending, mkWorld (indexer w) (storage w) (indexer w :: suspended w)).

(** Reading and writing the fields. *)
Definition gets {A} (f : Indexer -> A) : M A :=
  fun w => (Fulfilled (f (indexer w)), w).

Definition modify (f : Indexer -> Indexer) : M unit :=
  fun w => (Fulfilled tt, mkWorld (f (indexer w)) (storage w) (suspended w)).

Definition set_index (i : Index) : M unit :=
  modify (fun ix => mkIndexer i (items ix) (isInitialized ix)).

Definition set_items (m : ItemMap.t) : M unit :=
  modify (fun ix => mkIndexer (index ix) m (isInitialized ix)).

Definition set_isInitialized (b : bool) : M unit :=
  modify (fun ix => mkIndexer (index ix) (items ix) b).

(** A call of a method of [this.index]. *)
Definition call_index {A} (f : Index -> Completion A * Index) : M A :=
  fun w =>
    let (r, i) := f (index (indexer w)) in
    let w' := mkWorld (mkIndexer i (items (indexer w))
                                 (isInitialized (indexer w)))
                      (storage w) (suspended w) in
    match r with
    | Normal a => (Fulfilled a, w')
    | Abrupt e => (Rejected e, w')
    end.

(** An awaited call of a method of [storage]: the caller is suspended while
    chrome.storage works; none of these methods rejects. *)
Definition call_storage {A} (f : Storage.t -> A * Storage.t) : M A :=
  suspend ;;;
  fun w =>
    let (a, s) := f (storage w) in
    (Fulfilled a, mkWorld (indexer w) s (suspended w)).

(** [for (const x of l) { f x }] *)
Fixpoint for_of {A} (l : list A) (f : A -> M unit) : M unit :=
  match l with
  | [] => ret tt
  | x :: t => f x ;;; for_of t f
  end.

(** ** Conversion of the browser's records *)

Definition space : jsstring := [32].

Definition generateSnippet (content : jsstring) : jsstring :=
  if Z.of_nat (length content) <=? 200 then content
  else trim (substring0 200 content) ++ lit "...".

(** [processBookmark] of [convertBookmarksToIndexedItems], with the items it
    pushes returned in the order of the pushes. *)
Fixpoint processBookmark (now : Z) (bookmark : BookmarkItem.t)
  : list IndexedItem.t :=
  (if truthy_str (BookmarkItem.url bookmark)
   then
     let url := or_str (BookmarkItem.url bookmark) [] in
     let content := trim (BookmarkItem.title bookmark ++ space ++ url) in
     [IndexedItem.mk
        (lit "bookmark_" ++ BookmarkItem.id bookmark)
        (or_str (Some (BookmarkItem.title bookmark)) (lit "Untitled"))
        url
        content
        ItemType.bookmark
        (or_num (BookmarkItem.dateAdded bookmark) now)
        (Some (generateSnippet content))]
   else [])
  ++ match BookmarkItem.children bookmark with
     | Some cs => flat_map (processBookmark now) cs
     | None => []
     end.

Definition convertBookmarksToIndexedItems (now : Z)
  (bookmarks : list BookmarkItem.t) : list IndexedItem.t :=
  flat_map (processBookmark now) bookmarks.

Definition convertHistoryToIndexedItems (now : Z)
  (history : list HistoryItem.t) : list IndexedItem.t :=
  map (fun item =>
         let content :=
           trim (or_str (HistoryItem.title item) [] ++ space
                 ++ or_str (HistoryItem.url item) []) in
         IndexedItem.mk
           (lit "history_" ++ HistoryItem.id item)
           (or_str (HistoryItem.title item) (lit "Untitled"))
           (or_str (HistoryItem.url item) [])
           content
           ItemType.history
           (or_num (HistoryItem.lastVisitTime item) now)
           (Some (generateSnippet content)))
      (filter (fun item => truthy_str (HistoryItem.url item)
                           && truthy_str (HistoryItem.title item))
              history).

Definition convertReadingListToIndexedItems
  (readingList : list ReadingListItem.t) : list IndexedItem.t :=
  map (fun item =>
         let content :=
           trim (ReadingListItem.title item ++ space
                 ++ ReadingListItem.url item) in
         IndexedItem.mk
           (lit "reading_" ++ ReadingListItem.url item)
           (ReadingListItem.title item)
           (ReadingListItem.url item)
           content
           ItemType.reading_list
           (ReadingListItem.creationTime item)
           (Some (generateSnippet content)))
      readingList.

(** ** Maintenance of the index *)

Definition addToIndex (item : IndexedItem.t) : M unit :=
  try_catch
    (call_index (fun i => index_add i (IndexedItem.id item)
                                    (IndexedItem.content item)))
    (fun _ => ret tt) ;;;
  m <- gets items ;;
  set_items (ItemMap.set (IndexedItem.id item) item m).

Definition persistIndex : M unit :=
  try_catch
    (exported <- call_index index_export ;;
     match exported with
     | Some serializedIndex =>
         suspend ;;;
         call_storage (Storage.setSearchIndex serializedIndex) ;;; ret tt
     | None => never
     end)
    (fun _ => ret tt).

(** [title.split(' ')[0]] *)
Fixpoint first_word (s : jsstring) : jsstring :=
  match s with
  | [] => []
  | c :: t => if c =? 32 then [] else c :: first_word t
  end.

Definition initialize : M unit :=
  init <- gets isInitialized ;;
  if init then ret tt
  else
    try_catch
      (indexedItems <- call_storage Storage.getIndexedItems ;;
       match indexedItems with
       | [] => ret tt
       | firstItem :: _ =>
           set_index index_new ;;;
           set_items [] ;;;
           for_of indexedItems addToIndex ;;;
           call_index (fun i => index_search i (lit "test") 1) ;;;
           call_index (fun i =>
             index_search i (first_word (IndexedItem.title firstItem)) 5) ;;;
           ret tt
       end ;;;
       set_isInitialized true)
      (fun _ => set_isInitialized true).

(** [if (!this.isInitialized) { await this.initialize(); }], the first
    statement of [search], [addItem] and [removeItem]. *)
Definition ensure_initialized : M unit :=
  init <- gets isInitialized ;;
  if negb init then await initialize else ret tt.

(** [rebuildIndex], in the segments its awaits cut it into. *)
Definition rebuild_clear : M unit :=
  set_index index_new ;;;
  set_items [].

(** [await Promise.all([getBookmarks(), getHistory(), getReadingList()])] *)
Definition rebuild_read
  : M (list BookmarkItem.t * list HistoryItem.t * list ReadingListItem.t) :=
  bookmarks <- call_storage Storage.getBookmarks ;;
  history <- call_storage Storage.getHistory ;;
  readingList <- call_storage Storage.getReadingList ;;
  ret (bookmarks, history, readingList).

Definition rebuild_items (now : Z)
  (data : list BookmarkItem.t * list HistoryItem.t * list ReadingListItem.t)
  : list IndexedItem.t :=
  let '(bookmarks, history, readingList) := data in
  convertBookmarksToIndexedItems now bookmarks
  ++ convertHistoryToIndexedItems now history
  ++ convertReadingListToIndexedItems readingList.

Definition rebuild_fill (indexedItems : list IndexedItem.t) : M unit :=
  for_of indexedItems addToIndex.

Definition rebuild_save : M unit :=
  await persistIndex ;;;
  m <- gets items ;;
  call_storage (Storage.setIndexedItems (ItemMap.values m)) ;;;
  ret tt.

Definition rebuildIndex (now : Z) : M unit :=
  try_catch
    (rebuild_clear ;;;
     data <- rebuild_read ;;
     rebuild_fill (rebuild_items now data) ;;;
     rebuild_save)
    (fun error => throw error).

(** ** Search *)

(** The CJK words of the patterns, as code units. *)
Definition wo_de : jsstring := [25105; 30340].             (* 我的 *)
Definition you_shenme : jsstring := [26377; 20160; 20040]. (* 有什么 *)
Definition xianshi : jsstring := [26174; 31034].           (* 显示 *)
Definition suoyou : jsstring := [25152; 26377].            (* 所有 *)
Definition liechu : jsstring := [21015; 20986].            (* 列出 *)
Definition shuqian : jsstring := [20070; 31614].           (* 书签 *)
Definition lishi : jsstring := [21382; 21490].             (* 历史 *)
Definition liulan_jilu : jsstring := [27983; 35272; 35760; 24405]. (* 浏览记录 *)
Definition yuedu_qingdan : jsstring := [38405; 35835; 28165; 21333]. (* 阅读清单 *)
Definition yuedu_liebiao : jsstring := [38405; 35835; 21015; 34920]. (* 阅读列表 *)
Definition chazhao : jsstring := [26597; 25214].           (* 查找 *)

(** [a.*b] *)
Definition then_later (a b : regex) : regex := Seq a (Seq (Star Dot) b).

(** [/list|show|display|what.*do.*have|我的.*有什么|显示.*所有|列出/i] *)
Definition listing_pattern : regex :=
  Alts [Str (lit "list"); Str (lit "show"); Str (lit "display");
        then_later (Str (lit "what"))
                   (then_later (Str (lit "do")) (Str (lit "have")));
        then_later (Str wo_de) (Str you_shenme);
        then_later (Str xianshi) (Str suoyou);
        Str liechu].

(** [/bookmarks?|书签/i] *)
Definition bookmarks_pattern : regex :=
  Alts [Seq (Str (lit "bookmark")) (Opt (Chr 115)); Str shuqian].

(** [/history|历史|浏览记录/i] *)
Definition history_pattern : regex :=
  Alts [Str (lit "history"); Str lishi; Str liulan_jilu].

(** [/reading.?list|阅读清单|阅读列表/i] *)
Definition reading_list_pattern : regex :=
  Alts [Seq (Str (lit "reading")) (Seq (Opt Dot) (Str (lit "list")));
        Str yuedu_qingdan; Str yuedu_liebiao].

(** [/bookmark|书签/i] *)
Definition bookmark_pattern : regex :=
  Alts [Str (lit "bookmark"); Str shuqian].

Definition listAllPatterns : list regex :=
  [listing_pattern; bookmarks_pattern; history_pattern; reading_list_pattern].

Definition isListAllQuery (query : jsstring) : bool :=
  existsb (fun pattern => test true pattern query) listAllPatterns.

Definition wantBookmarks (query : jsstring) : bool :=
  test true bookmark_pattern query.

Definition wantHistory (query : jsstring) : bool :=
  test true history_pattern query.

Definition wantReadingList (query : jsstring) : bool :=
  test true reading_list_pattern query.

Definition includeTypes (query : jsstring) : list ItemType.t :=
  let none := negb (wantBookmarks query) && negb (wantHistory query)
              && negb (wantReadingList query) in
  (if wantBookmarks query || none then [ItemType.bookmark] else [])
  ++ (if wantHistory query || none then [ItemType.history] else [])
  ++ (if wantReadingList query || none then [ItemType.reading_list] else []).

(** [arr.sort(compare)], a stable sort: [after a b] is [compare(a, b) > 0],
    that is, [a] has to come after [b]. *)
Fixpoint sort_insert {A} (after : A -> A -> bool) (x : A) (l : list A)
  : list A :=
  match l with
  | [] => [x]
  | y :: t => if after x y then y :: sort_insert after x t else x :: l
  end.

Definition sort {A} (after : A -> A -> bool) (l : list A) : list A :=
  fold_right (sort_insert after) [] l.

(** [(a, b) => b.timestamp - a.timestamp], positive *)
Definition newer_first (a b : IndexedItem.t) : bool :=
  0 <? IndexedItem.timestamp b - IndexedItem.timestamp a.

Definition Qlt_bool (x y : Q) : bool := negb (Qle_bool y x).

Definition rank_key (r : SearchResult.t) : Q :=
  (SearchResult.score r + SearchResult.relevance r)%Q.

(** [(a, b) => (b.score + b.relevance) - (a.score + a.relevance)], positive *)
Definition best_first (a b : SearchResult.t) : bool :=
  Qlt_bool 0 (rank_key b - rank_key a).

(** [(maxResults - i) / maxResults] *)
Definition position_relevance (maxResults i : Z) : Q :=
  (inject_Z (maxResults - i) / inject_Z maxResults)%Q.

(** [filteredItems.map((item, index) => ...)] from index [index] on. *)
Fixpoint list_all_results (maxResults index : Z) (l : list IndexedItem.t)
  : list SearchResult.t :=
  match l with
  | [] => []
  | item :: t =>
      SearchResult.mk item 10 (position_relevance maxResults index)
      :: list_all_results maxResults (index + 1) t
  end.

Definition has_type (types : list ItemType.t) (item : IndexedItem.t) : bool :=
  existsb (ItemType.eqb (IndexedItem.type item)) types.

(** The list-all branch. *)
Definition list_all (query : jsstring) (maxResults : Z) (m : ItemMap.t)
  : list SearchResult.t :=
  let filteredItems :=
    slice0 maxResults
      (sort newer_first
         (filter (has_type (includeTypes query)) (ItemMap.values m))) in
  list_all_results maxResults 0 filteredItems.

(** The words [/\b(list|show|find|get|my|the|a|an|我的|显示|列出|查找)\b/g]
    removes. *)
Definition stop_words : list jsstring :=
  [lit "list"; lit "show"; lit "find"; lit "get"; lit "my"; lit "the";
   lit "a"; lit "an"; wo_de; xianshi; liechu; chazhao].

Definition cleanQuery (query : jsstring) : jsstring :=
  trim (remove_words stop_words (toLowerCase query)).

(** The terms searched for. *)
Definition searchTerms (clean : jsstring) : list jsstring :=
  if existsb isCJK clean
  then
    let chineseTerms := runs isCJK clean in
    let englishTerms := runs isAsciiLetter clean in
    filter (fun term => 0 <? Z.of_nat (length term))
           (chineseTerms ++ englishTerms)
  else
    filter (fun term => 2 <? Z.of_nat (length term)) (split_ws clean).

(** [for (const term of terms) searchResults.push(...this.index.search(term,
    { limit: maxResults * 2 }))] *)
Fixpoint search_all (terms : list jsstring) (maxResults : Z)
  : M (list jsstring) :=
  match terms with
  | [] => ret []
  | term :: rest =>
      termResults <-
        call_index (fun i => index_search i term (maxResults * 2)) ;;
      more <- search_all rest maxResults ;;
      ret (termResults ++ more)
  end.

(** [now] is [Date.now()]. *)
Definition calculateRelevanceScore (now : Z) (query : jsstring)
  (item : IndexedItem.t) : Q :=
  let queryLower := toLowerCase query in
  let titleLower := toLowerCase (IndexedItem.title item) in
  let contentLower := toLowerCase (IndexedItem.content item) in
  let daysSinceCreation :=
    (inject_Z (now - IndexedItem.timestamp item)
     / inject_Z (1000 * 60 * 60 * 24))%Q in
  ((if str_eqb titleLower queryLower then 10 else 0)
   + (if includes titleLower queryLower then 5 else 0)
   + (if includes contentLower queryLower then 2 else 0)
   + (if Qlt_bool daysSinceCreation 30 then 1 else 0)
   + (if ItemType.eqb (IndexedItem.type item) ItemType.bookmark
      then 1 # 2 else 0))%Q.

(** The scoring loop over [searchResults[i]], [i] counting from [i]. *)
Fixpoint score_results (now : Z) (clean : jsstring) (maxResults : Z)
  (m : ItemMap.t) (i : Z) (ids : list jsstring) : list SearchResult.t :=
  match ids with
  | [] => []
  | itemId :: rest =>
      match ItemMap.get itemId m with
      | Some item =>
          SearchResult.mk item (calculateRelevanceScore now clean item)
                          (position_relevance maxResults i)
          :: score_results now clean maxResults m (i + 1) rest
      | None => score_results now clean maxResults m (i + 1) rest
      end
  end.

(** The raw matches: the distinct ids the term searches gave, first seen
    first. *)
Definition raw_matches (query : jsstring) (maxResults : Z)
  : M (list jsstring) :=
  found <- search_all (searchTerms (cleanQuery query)) maxResults ;;
  ret (dedup found).

(** The keyword branch. *)
Definition keyword_search (now : Z) (query : jsstring) (maxResults : Z)
  : M (list SearchResult.t) :=
  searchResults <- raw_matches query maxResults ;;
  m <- gets items ;;
  let scored :=
    firstn (Z.to_nat (Z.min (Z.of_nat (length searchResults)) maxResults))
           searchResults in
  ret (sort best_first
         (score_results now (cleanQuery query) maxResults m 0 scored)).

(** The body of the [try] of [search]. *)
Definition search_try (now : Z) (query : jsstring) (maxResults : Z)
  : M (list SearchResult.t) :=
  if isListAllQuery query
  then m <- gets items ;; ret (list_all query maxResults m)
  else keyword_search now query maxResults.

Definition search (now : Z) (query : jsstring) (maxResults : Z)
  : M (list SearchResult.t) :=
  ensure_initialized ;;;
  match trim query with
  | [] => ret []
  | _ :: _ =>
      m <- gets items ;;
      if ItemMap.size m =? 0 then ret []
      else try_catch (search_try now query maxResults) (fun _ => ret [])
  end.

(** ** Incremental maintenance and statistics *)

Definition addItem (item : IndexedItem.t) : M unit :=
  ensure_initialized ;;;
  addToIndex item ;;;
  await persistIndex ;;;
  currentItems <- call_storage Storage.getIndexedItems ;;
  call_storage (Storage.setIndexedItems (currentItems ++ [item])) ;;;
  ret tt.

Definition removeItem (itemId : jsstring) : M unit :=
  ensure_initialized ;;;
  call_index (fun i => index_remove i itemId) ;;;
  m <- gets items ;;
  set_items (ItemMap.delete itemId m) ;;;
  await persistIndex ;;;
  currentItems <- call_storage Storage.getIndexedItems ;;
  let filteredItems :=
    filter (fun item => negb (str_eqb (IndexedItem.id item) itemId))
           currentItems in
  call_storage (Storage.setIndexedItems filteredItems) ;;;
  ret tt.

Definition updateItem (item : IndexedItem.t) : M unit :=
  await (removeItem (IndexedItem.id item)) ;;;
  await (addItem item).

Record Stats : Type :=
  mkStats { totalItems : Z; indexSize : Z }.

Definition getStats : M Stats :=
  init <- gets isInitialized ;;
  if negb init then ret (mkStats 0 0)
  else
    serializedIndex <- call_storage Storage.getSearchIndex ;;
    let indexSize :=
      match serializedIndex with
      | Some s => Z.of_nat (length s)
      | None => 0
      end in
    m <- gets items ;;
    ret (mkStats (ItemMap.size m) indexSize).

Definition clearIndex : M unit :=
  set_index index_new ;;;
  set_items [] ;;;
  call_storage (Storage.setSearchIndex []) ;;;
  call_storage (Storage.setIndexedItems []) ;;;
  ret tt.

End SearchIndexer.

(* ===================================================================== *)
(** * The context of a chat request ([src/background/worker.ts]) *)
(* ===================================================================== *)

(** The [switch (type)] of the filter of [handleChatRequest]. *)
Definition isEnabled (settings : AppSettings.t) (type : ItemType.t) : bool :=
  match type with
  | ItemType.bookmark =>
      AppSettings.bookmarks (AppSettings.enabledSources settings)
  | ItemType.history =>
      AppSettings.history (AppSettings.enabledSources settings)
  | ItemType.reading_list =>
      AppSettings.readingList (AppSettings.enabledSources settings)
  end.

Definition filteredResults (settings : AppSettings.t)
  (searchResults : list SearchResult.t) : list SearchResult.t :=
  filter (fun result =>
            isEnabled settings (IndexedItem.type (SearchResult.item result)))
         searchResults.

Definition context (settings : AppSettings.t)
  (searchResults : list SearchResult.t) : list ContextEntry.t :=
  map (fun result =>
         let item := SearchResult.item result in
         ContextEntry.mk
           (IndexedItem.title item)
           (IndexedItem.url item)
           (or_str (IndexedItem.snippet item)
                   (substring0 200 (IndexedItem.content item)))
           (IndexedItem.type item)
           (IndexedItem.timestamp item))
      (slice0 (AppSettings.maxResults settings)
              (filteredResults settings searchResults)).

(* ===================================================================== *)
(** * A reference index *)
(* ===================================================================== *)

Module RefIndex.

(** Modelled from the spec: FlexSearch is a dependency of the repository, not
    part of it. This index is the one the design document describes (4.2):
    [add] inserts or overwrites the content of an id, [remove] deletes it,
    and a search returns up to [limit] ids whose tokenized content has a
    token with the term as a prefix. It stands in for FlexSearch where a
    concrete index is needed. *)
Definition t : Type := list (jsstring * jsstring).

Definition tokens (content : jsstring) : list jsstring :=
  filter (fun tok => 0 <? Z.of_nat (length tok))
         (split_ws (map ascii_lower content)).

Definition matches (term content : jsstring) : bool :=
  existsb (starts_with (map ascii_lower term)) (tokens content).

Fixpoint remove (id : jsstring) (i : t) : t :=
  match i with
  | [] => []
  | (k, c) :: r => if str_eqb id k then remove id r else (k, c) :: remove id r
  end.

Definition add (i : t) (id content : jsstring) : Completion unit * t :=
  (Normal tt, remove id i ++ [(id, content)]).

Definition search (i : t) (term : jsstring) (limit : Z)
  : Completion (list jsstring) * t :=
  (Normal (firstn (Z.to_nat limit)
                  (map fst (filter (fun e => matches term (snd e)) i))),
   i).

Definition export (i : t) : Completion (option jsstring) * t :=
  (Normal (Some (concat (map (fun e => fst e ++ [10]) i))), i).

Definition flexsearch : FlexSearchIndex :=
  {| Index := t;
     index_new := [];
     index_add := add;
     index_remove := fun i id => (Normal tt, remove id i);
     index_search := search;
     index_export := export |}.

End RefIndex.


(* ===================================================================== *)
(** * More of the storage manager ([src/lib/storage.ts]) *)
(* ===================================================================== *)

Module StorageManager.

(** [this.set(KEY, value)] for the raw collections. *)
Definition setBookmarks (v : list BookmarkItem.t) (s : Storage.t)
  : bool * Storage.t :=
  if Storage.available s
  then (true,
        Storage.mk (Some v) (Storage.history s) (Storage.readingList s)
                   (Storage.indexedItems s) (Storage.searchIndex s)
                   (Storage.available s) (Storage.reads s))
  else (false, s).

Definition setHistory (v : list HistoryItem.t) (s : Storage.t)
  : bool * Storage.t :=
  if Storage.available s
  then (true,
        Storage.mk (Storage.bookmarks s) (Some v) (Storage.readingList s)
                   (Storage.indexedItems s) (Storage.searchIndex s)
                   (Storage.available s) (Storage.reads s))
  else (false, s).

Definition setReadingList (v : list ReadingListItem.t) (s : Storage.t)
  : bool * Storage.t :=
  if Storage.available s
  then (true,
        Storage.mk (Storage.bookmarks s) (Storage.history s) (Some v)
                   (Storage.indexedItems s) (Storage.searchIndex s)
                   (Storage.available s) (Storage.reads s))
  else (false, s).

(** [setLastSyncTime]: a write under a key that is none of the values the
    record holds. *)
Definition setLastSyncTime (timestamp : Z) (s : Storage.t)
  : bool * Storage.t :=
  (Storage.available s, s).

(** [clearAllData]: [chrome.storage.local.clear()] removes every key. *)
Definition clearAllData (s : Storage.t) : bool * Storage.t :=
  if Storage.available s
  then (true,
        Storage.mk None None None None None (Storage.available s)
                   (Storage.reads s))
  else (false, s).

End StorageManager.

(** ** Chat sessions

    The key [CHAT_SESSIONS] of chrome.storage.local, with [getChatSessions],
    [setChatSessions], [addChatSession] and [updateChatSession]. *)
Module ChatSessions.

Inductive role : Type := user | assistant | system.

Record ChatMessage : Type :=
  mkMessage { message_id : jsstring;
              content : jsstring;
              timestamp : Z;
              type : role;
              sources : option (list IndexedItem.t) }.

Record ChatSession : Type :=
  mkSession { id : jsstring;
              messages : list ChatMessage;
              createdAt : Z;
              updatedAt : Z }.

(** The stored value ([None]: the key is not set) and whether the store
    answers. *)
Record store : Type :=
  mkStore { sessions : option (list ChatSession);
            available : bool }.

(** [(await this.get(CHAT_SESSIONS)) || []] *)
Definition getChatSessions (s : store) : list ChatSession :=
  if available s
  then match sessions s with Some l => l | None => [] end
  else [].

(** [this.set(CHAT_SESSIONS, sessions)] *)
Definition setChatSessions (v : list ChatSession) (s : store)
  : bool * store :=
  if available s then (true, mkStore (Some v) (available s)) else (false, s).

Definition addChatSession (session : ChatSession) (s : store)
  : bool * store :=
  let sessions := getChatSessions s in
  setChatSessions (sessions ++ [session]) s.

(** [sessions.findIndex(s => s.id === sessionId)], [None] for [-1]. *)
Fixpoint findIndex (sessionId : jsstring) (l : list ChatSession)
  : option nat :=
  match l with
  | [] => None
  | x :: t =>
      if str_eqb (id x) sessionId then Some O
      else match findIndex sessionId t with
           | Some i => Some (S i)
           | None => None
           end
  end.

(** [sessions[index] = updatedSession] for an index within the array. *)
Fixpoint assign (index : nat) (v : ChatSession) (l : list ChatSession)
  : list ChatSession :=
  match l, index with
  | [], _ => []
  | _ :: t, O => v :: t
  | x :: t, S i => x :: assign i v t
  end.

Definition updateChatSession (sessionId : jsstring)
  (updatedSession : ChatSession) (s : store) : bool * store :=
  let sessions := getChatSessions s in
  match findIndex sessionId sessions with
  | Some index => setChatSessions (assign index updatedSession sessions) s
  | None => (false, s)
  end.

End ChatSessions.

(* ===================================================================== *)
(** * The rate limiter ([src/background/worker.ts]) *)
(* ===================================================================== *)

Module RateLimiter.

(** The fields; [tokens] is a fraction of a token, [lastRefill] a reading of
    the clock in milliseconds. *)
Record t : Type :=
  mk { tokens : Q;
       lastRefill : Z;
       maxTokens : Q;
       refillRate : Q }.

(** [new RateLimiter(maxTokens, refillRate)] at the time [now]. *)
Definition create (maxTokens refillRate : Q) (now : Z) : t :=
  mk maxTokens now maxTokens refillRate.

(** [Math.min(a, b)] *)
Definition min (a b : Q) : Q := if Qle_bool a b then a else b.

(** [waitForToken] called at the time [now]: the milliseconds it waits for
    (0 when it does not wait) and the limiter it leaves. *)
Definition waitForToken (now : Z) (r : t) : Q * t :=
  let elapsed := (inject_Z (now - lastRefill r) / 1000)%Q in
  let refilled :=
    min (maxTokens r) (tokens r + elapsed * refillRate r)%Q in
  if negb (Qle_bool 1 refilled)
  then
    let waitTime := ((1 - refilled) / refillRate r * 1000)%Q in
    (waitTime, mk (1 - 1)%Q now (maxTokens r) (refillRate r))
  else
    (0%Q, mk (refilled - 1)%Q now (maxTokens r) (refillRate r)).

End RateLimiter.

(* ===================================================================== *)
(** * The background service ([src/background/worker.ts]) *)
(* ===================================================================== *)

(** What the browser answers: the bookmark tree, the history of a time range
    given by its start, and the reading list when the browser has one. A
    call may be rejected. *)
Record Browser : Type :=
  mkBrowser { bookmarks_getTree : Completion (list BookmarkItem.t);
              history_search : Z -> Completion (list HistoryItem.t);
              readingList_query
              : option (Completion (list ReadingListItem.t)) }.

(** [processNode] of [getBookmarks], with the bookmarks it pushes returned in
    the order of the pushes; a pushed bookmark has no children (its
    [parentId] and [index], which nothing reads, are not among the fields of
    [BookmarkItem.t]). *)
Fixpoint processNode (node : BookmarkItem.t) : list BookmarkItem.t :=
  (if truthy_str (BookmarkItem.url node)
   then [BookmarkItem.mk (BookmarkItem.id node) (BookmarkItem.title node)
                         (BookmarkItem.url node) (BookmarkItem.dateAdded node)
                         None]
   else [])
  ++ match BookmarkItem.children node with
     | Some cs => flat_map processNode cs
     | None => []
     end.

(** [{ success, itemsCount }] *)
Record SyncResult : Type :=
  mkSyncResult { success : bool; itemsCount : Z }.

Section BackgroundService.

Context {case_mapping : CaseMapping} {flexsearch : FlexSearchIndex}.

Variable browser : Browser.

Notation "x <- c ;; k" := (bind c (fun x => k))
  (at level 61, c at next level, right associativity).
Notation "c ;;; k" := (bind c (fun _ => k))
  (at level 61, right associativity).

(** What [getBookmarks] resolves to: the bookmarks of the tree, or none
    when [chrome.bookmarks.getTree] rejects. *)
Definition fetched_bookmarks : list BookmarkItem.t :=
  match bookmarks_getTree browser with
  | Normal bookmarkTree => flat_map processNode bookmarkTree
  | Abrupt _ => []
  end.

Definition getBookmarks : M (list BookmarkItem.t) :=
  suspend ;;;
  ret fetched_bookmarks.

(** What [getHistory] resolves to; [now] is [Date.now()]. *)
Definition fetched_history (now : Z) : list HistoryItem.t :=
  let startTime := now - 7 * 24 * 60 * 60 * 1000 in
  match history_search browser startTime with
  | Normal historyItems =>
      map (fun item =>
             HistoryItem.mk (or_str (Some (HistoryItem.id item)) [])
                            (HistoryItem.url item)
                            (HistoryItem.title item)
                            (HistoryItem.lastVisitTime item)
                            (HistoryItem.visitCount item)
                            (HistoryItem.typedCount item))
          historyItems
  | Abrupt _ => []
  end.

Definition getHistory (now : Z) : M (list HistoryItem.t) :=
  suspend ;;;
  ret (fetched_history now).

(** What [getReadingList] resolves to: nothing without the reading-list
    API, which then is not awaited. *)
Definition fetched_readingList : list ReadingListItem.t :=
  match readingList_query browser with
  | Some (Normal readingListItems) =>
      map (fun item =>
             ReadingListItem.mk
               (ReadingListItem.title item)
               (ReadingListItem.url item)
               (ReadingListItem.hasBeenRead item)
               (ReadingListItem.creationTime item)
               (ReadingListItem.lastUpdateTime item))
          readingListItems
  | _ => []
  end.

Definition getReadingList : M (list ReadingListItem.t) :=
  match readingList_query browser with
  | None => ret []
  | Some _ =>
      suspend ;;;
      ret fetched_readingList
  end.

(** [now] is [Date.now()] when the history is asked for, [now'] when the
    index is rebuilt, [now''] when the sync time is stored. *)
Definition syncBrowserData (now now' now'' : Z) : M SyncResult :=
  try_catch
    (bookmarks <- getBookmarks ;;
     history <- getHistory now ;;
     readingList <- getReadingList ;;
     call_storage (StorageManager.setBookmarks bookmarks) ;;;
     call_storage (StorageManager.setHistory history) ;;;
     call_storage (StorageManager.setReadingList readingList) ;;;
     await (rebuildIndex now') ;;;
     call_storage (StorageManager.setLastSyncTime now'') ;;;
     let totalItems :=
       Z.of_nat (length bookmarks) + Z.of_nat (length history)
       + Z.of_nat (length readingList) in
     ret (mkSyncResult true totalItems))
    (fun _ => ret (mkSyncResult false 0)).

Definition handleRebuildIndex (now : Z) : M bool :=
  try_catch (await (rebuildIndex now) ;;; ret true) (fun _ => ret false).

Definition handleClearAllData : M bool :=
  try_catch
    (call_storage StorageManager.clearAllData ;;;
     await clearIndex ;;;
     ret true)
    (fun _ => ret false).

End BackgroundService.

(** [filteredResults.slice(0, 5).map(result => result.item)], the sources of
    the chat message. *)
Definition sources (settings : AppSettings.t)
  (searchResults : list SearchResult.t) : list IndexedItem.t :=
  map SearchResult.item (slice0 5 (filteredResults settings searchResults)).
(* ===================================================================== *)
(** * The vocabulary of the properties *)
(* ===================================================================== *)

Section Vocabulary.

Context {case_mapping : CaseMapping} {flexsearch : FlexSearchIndex}.

(** ** A logic for the methods

    [settles c w P E]: run on [w], the computation [c] does not stay pending;
    if it is fulfilled with [a] in world [w'] then [P a w'], and if it is
    rejected with [e] in world [w'] then [E e w']. *)
Definition settles {A} (c : M A) (w : World)
  (P : A -> World -> Prop) (E : exn -> World -> Prop) : Prop :=
  match c w with
  | (Fulfilled a, w') => P a w'
  | (Rejected e, w') => E e w'
  | (Pending, _) => False
  end.

(** No rejection. *)
Definition no_throw : exn -> World -> Prop := fun _ _ => False.

(** What a step leaves alone. *)
Definition same_items (w w' : World) : Prop :=
  items (indexer w') = items (indexer w)
  /\ isInitialized (indexer w') = isInitialized (indexer w).

(** [for (const item of l) this.addToIndex(item)] on the map. *)
Definition set_all (l : list IndexedItem.t) (m : ItemMap.t) : ItemMap.t :=
  fold_left (fun m item => ItemMap.set (IndexedItem.id item) item m) l m.

(** [ends c w P E N]: as [settles], with [N] for the world [c] leaves when
    its promise stays pending. *)
Definition ends {A} (c : M A) (w : World)
  (P : A -> World -> Prop) (E : exn -> World -> Prop) (N : World -> Prop)
  : Prop :=
  match c w with
  | (Fulfilled a, w') => P a w'
  | (Rejected e, w') => E e w'
  | (Pending, w') => N w'
  end.

(** [c] keeps the invariant [I], however it ends. *)
Definition keeps (I : World -> Prop) {A} (c : M A) : Prop :=
  forall w, I w -> ends c w (fun _ w' => I w') (fun _ w' => I w') I.

(** ** The document map as the methods leave it

    The keys of a [Map] are distinct, and [addToIndex], the only writer,
    files each item under its own id. *)
Definition keys (m : ItemMap.t) : list jsstring := map fst m.

Definition items_ok (m : ItemMap.t) : Prop :=
  NoDup (keys m)
  /\ Forall (fun entry => fst entry = IndexedItem.id (snd entry)) m.

(** A property of the world that the document map and the initialization
    flag decide. *)
Definition on_indexer (J : ItemMap.t -> bool -> Prop) : World -> Prop :=
  fun w => J (items (indexer w)) (isInitialized (indexer w)).

(** The id [k] is not in the well-formed map of an initialized indexer. *)
Definition gone (k : jsstring) : ItemMap.t -> bool -> Prop :=
  fun m initialized =>
    initialized = true /\ items_ok m /\ ~ In k (keys m).

(** The calls of the public methods. *)
Inductive call : Type :=
| Initialize
| RebuildIndex (now : Z)
| Search (now : Z) (query : jsstring) (maxResults : Z)
| AddItem (item : IndexedItem.t)
| RemoveItem (itemId : jsstring)
| UpdateItem (item : IndexedItem.t)
| GetStats
| ClearIndex.

(** The world after a call, whatever its outcome. *)
Definition perform (c : call) (w : World) : World :=
  match c with
  | Initialize => snd (initialize w)
  | RebuildIndex now => snd (rebuildIndex now w)
  | Search now query maxResults => snd (search now query maxResults w)
  | AddItem item => snd (addItem item w)
  | RemoveItem itemId => snd (removeItem itemId w)
  | UpdateItem item => snd (updateItem item w)
  | GetStats => snd (getStats w)
  | ClearIndex => snd (clearIndex w)
  end.

(** The worlds calls lead to, one call after the other, from a new indexer;
    between two calls anything may happen to the storage. *)
Inductive reachable : World -> Prop :=
| reachable_new (s : Storage.t) : reachable (new_world s)
| reachable_call (c : call) (w : World) :
    reachable w -> reachable (perform c w)
| reachable_storage (w : World) (s : Storage.t) :
    reachable w -> reachable (mkWorld (indexer w) s (suspended w)).

(** The results of searches made one after the other, each given as
    [(now, query, maxResults)]. *)
Fixpoint run_searches (queries : list (Z * jsstring * Z)) (w : World)
  : list (list SearchResult.t) :=
  match queries with
  | [] => []
  | (now, query, maxResults) :: rest =>
      match search now query maxResults w with
      | (Fulfilled results, w') => results :: run_searches rest w'
      | (_, w') => run_searches rest w'
      end
  end.

(** ** What a concurrent call observes *)

(** The same world with nothing yet observed. *)
Definition unobserved (w : World) : World :=
  mkWorld (indexer w) (storage w) [].

(** The states of the indexer that other tasks could see while [c], started
    in [w], was suspended. *)
Definition observed {A} (c : M A) (w : World) : list Indexer :=
  suspended (snd (c (unobserved w))).

(** The indexer after [this.index = new FlexSearch.Index(...)] and
    [this.items.clear()]. *)
Definition cleared (w : World) : Indexer :=
  mkIndexer index_new [] (isInitialized (indexer w)).

(** From [w] to [w'] the indexer did not change, and what was observed in
    between is the indexer as it is. *)
Definition quiet (w w' : World) : Prop :=
  indexer w' = indexer w
  /\ (forall s, In s (suspended w') -> s = indexer w \/ In s (suspended w))
  /\ (forall s, In s (suspended w) -> In s (suspended w')).

(** After the export, which may change the index but is not observed,
    [persistIndex] is quiet. *)
Definition quiet_after_export (w w' : World) : Prop :=
  exists w1,
    suspended w1 = suspended w /\ same_items w w1 /\ quiet w1 w'.

(** What [rebuildIndex] reads from storage. *)
Definition stored_data (s : Storage.t)
  : list BookmarkItem.t * list HistoryItem.t * list ReadingListItem.t :=
  (fst (Storage.getBookmarks s), fst (Storage.getHistory s),
   fst (Storage.getReadingList s)).

(** How a rebuild started in [w] leaves the world [w1], fulfilled or
    pending: what was observed is the cleared indexer or the indexer as it
    is left, the cleared indexer was observed, and the map holds the new
    data. *)
Definition rebuilt (now : Z) (w w1 : World) : Prop :=
  (forall s, In s (suspended w1) -> s = cleared w \/ s = indexer w1)
  /\ In (cleared w) (suspended w1)
  /\ items (indexer w1)
     = set_all (rebuild_items now (stored_data (storage w))) [].

(** The results of a search that was fulfilled. *)
Definition results_of {A} (run : Outcome (list A) * World) : list A :=
  match fst run with
  | Fulfilled results => results
  | _ => []
  end.

(** The ids of the results of a search. *)
Definition ids_found (run : Outcome (list SearchResult.t) * World)
  : list jsstring :=
  match fst run with
  | Fulfilled results =>
      map (fun r => IndexedItem.id (SearchResult.item r)) results
  | _ => []
  end.

(** ** What a pattern matches

    [matches icase r s]: the whole of [s] matches [r]. *)
Inductive matches (icase : bool) : regex -> jsstring -> Prop :=
| matches_eps : matches icase Eps []
| matches_chr p c :
    chr_match icase p c = true -> matches icase (Chr p) [c]
| matches_dot c :
    isLineTerminator c = false -> matches icase Dot [c]
| matches_seq r1 r2 s1 s2 :
    matches icase r1 s1 -> matches icase r2 s2 ->
    matches icase (Seq r1 r2) (s1 ++ s2)
| matches_alt_l r1 r2 s :
    matches icase r1 s -> matches icase (Alt r1 r2) s
| matches_alt_r r1 r2 s :
    matches icase r2 s -> matches icase (Alt r1 r2) s
| matches_star_nil r : matches icase (Star r) []
| matches_star_more r s1 s2 :
    matches icase r s1 -> matches icase (Star r) s2 ->
    matches icase (Star r) (s1 ++ s2)
| matches_opt_none r : matches icase (Opt r) []
| matches_opt_some r s :
    matches icase r s -> matches icase (Opt r) s.

(** [r] matches somewhere in [s]. *)
Definition matches_within (icase : bool) (r : regex) (s : jsstring) : Prop :=
  exists before found after,
    s = before ++ found ++ after /\ matches icase r found.

(** ** Intent *)

(** The query holds a listing phrase: it matches, whatever the case of its
    letters, the first of the list-all patterns. *)
Definition listing_phrase (query : jsstring) : bool :=
  test true listing_pattern query.

(** Enumeration intent in the words of the design document: the lower-cased
    query matches the vocabulary of listing phrases. *)
Definition stated_enumeration_intent (query : jsstring) : bool :=
  test false listing_pattern (toLowerCase query).

(** ** Listings *)

(** The query names the source type: the test of [wantBookmarks],
    [wantHistory] or [wantReadingList]. *)
Definition names_type (query : jsstring) (type : ItemType.t) : bool :=
  match type with
  | ItemType.bookmark => wantBookmarks query
  | ItemType.history => wantHistory query
  | ItemType.reading_list => wantReadingList query
  end.

(** The query names no source type at all. *)
Definition names_no_type (query : jsstring) : bool :=
  negb (wantBookmarks query) && negb (wantHistory query)
  && negb (wantReadingList query).

(** Newest first, ties allowed; and without ties. *)
Definition descending (timestamps : list Z) : Prop :=
  StronglySorted (fun a b => b <= a) timestamps.

Definition strictly_descending (timestamps : list Z) : Prop :=
  StronglySorted (fun a b => b < a) timestamps.

Definition timestamps_of (results : list SearchResult.t) : list Z :=
  map (fun r => IndexedItem.timestamp (SearchResult.item r)) results.

(** ** Keyword searches *)

(** The title of the result's item is the cleaned query, up to case: the
    test that earns the score of an exact title match. *)
Definition exact_title (clean : jsstring) (r : SearchResult.t) : bool :=
  str_eqb (toLowerCase (IndexedItem.title (SearchResult.item r)))
          (toLowerCase clean).

(** The index returns at most as many ids as the limit it is asked for. *)
Definition honours_limit : Prop :=
  forall (i : Index) (term : jsstring) (limit : Z) ids i',
    0 <= limit ->
    index_search i term limit = (Normal ids, i') ->
    Z.of_nat (length ids) <= limit.

(** The ids that are scored: the first [maxResults] raw matches. *)
Definition scored_ids (maxResults : Z) (raw : list jsstring)
  : list jsstring :=
  firstn (Z.to_nat (Z.min (Z.of_nat (length raw)) maxResults)) raw.

(** ** Documents of the history

    A field is present when it is set at all, and non-empty when it is set
    to a string that is not the empty string. *)
Definition present (field : option jsstring) : Prop := field <> None.

Definition non_empty (field : option jsstring) : Prop :=
  exists c s, field = Some (c :: s).

(** ** The context *)

(** [e] is the projection [{title, url, snippet, type, timestamp}] of
    [item], the snippet being the item's when it has a non-empty one and the
    first 200 characters of its content otherwise. *)
Definition projection_of (item : IndexedItem.t) (e : ContextEntry.t) : Prop :=
  ContextEntry.title e = IndexedItem.title item
  /\ ContextEntry.url e = IndexedItem.url item
  /\ ContextEntry.snippet e
     = match IndexedItem.snippet item with
       | Some (c :: s) => c :: s
       | _ => firstn 200 (IndexedItem.content item)
       end
  /\ ContextEntry.type e = IndexedItem.type item
  /\ ContextEntry.timestamp e = IndexedItem.timestamp item.

End Vocabulary.

(* ===================================================================== *)
(** * More vocabulary *)
(* ===================================================================== *)

(** The prefix of the ids of the documents of a source. *)
Definition id_prefix (type : ItemType.t) : jsstring :=
  match type with
  | ItemType.bookmark => lit "bookmark_"
  | ItemType.history => lit "history_"
  | ItemType.reading_list => lit "reading_"
  end.

(** No white space in a string; only characters of a class in a string. *)
Definition no_white_space (s : jsstring) : Prop :=
  Forall (fun c => isWhiteSpace c = false) s.

Definition all_of (p : Z -> bool) (s : jsstring) : Prop :=
  Forall (fun c => p c = true) s.

(** The ids of the items of results. *)
Definition result_ids (results : list SearchResult.t) : list jsstring :=
  map (fun r => IndexedItem.id (SearchResult.item r)) results.

(** The stored list of indexed items, as it is read back. *)
Definition stored_items (s : Storage.t) : list IndexedItem.t :=
  fst (Storage.getIndexedItems s).

Section MoreVocabulary.

Context {case_mapping : CaseMapping} {flexsearch : FlexSearchIndex}.

(** Between [w] and [w'] nothing changed but, possibly, the index object:
    the same documents, the same flag, the same storage, and no suspension
    in between. *)
Definition only_index_differs (w w' : World) : Prop :=
  items (indexer w') = items (indexer w)
  /\ isInitialized (indexer w') = isInitialized (indexer w)
  /\ storage w' = storage w
  /\ suspended w' = suspended w.

(** A property of the world that the storage decides. *)
Definition on_storage (S : Storage.t -> Prop) : World -> Prop :=
  fun w => S (storage w).

(** What the storage holds of the documents: whether it answers, and the
    stored list. *)
Definition documents_stored (a : bool) (v : option (list IndexedItem.t))
  : Storage.t -> Prop :=
  fun s => Storage.available s = a /\ Storage.indexedItems s = v.

(** The indexer of a new service worker over the storage [s], once
    initialized. *)
Definition restarted (s : Storage.t) : World :=
  snd (initialize (new_world s)).

(** Descending rank keys, ties allowed. *)
Definition ranked (results : list SearchResult.t) : Prop :=
  StronglySorted (fun a b => (rank_key b <= rank_key a)%Q) results.


(** From [w] to [w'] the documents, the flag and what the storage holds of
    the documents stayed the same. *)
Definition documents_kept (w w' : World) : Prop :=
  same_items w w'
  /\ Storage.available (storage w') = Storage.available (storage w)
  /\ stored_items (storage w') = stored_items (storage w).

(** The document map before a method that first makes sure the indexer is
    initialized. *)
Definition loaded (w : World) : ItemMap.t :=
  items (indexer (snd (initialize w))).

End MoreVocabulary.

(* ===================================================================== *)
(** * Concrete worlds *)
(* ===================================================================== *)

Module Examples.

#[local] Existing Instance ascii_case.
#[local] Existing Instance RefIndex.flexsearch.

(** A fresh indexer over an empty storage. *)
Definition fresh : World := new_world Storage.empty.

(** An item as [addItem] receives it: content is title and url. *)
Definition an_item (id title url : string) (type : ItemType.t)
  (timestamp : Z) : IndexedItem.t :=
  IndexedItem.mk (lit id) (lit title) (lit url)
                 (lit title ++ space ++ lit url) type timestamp None.

(** A history record whose title is the empty string, as Chrome reports a
    page without a title. *)
Definition untitled_visit : HistoryItem.t :=
  HistoryItem.mk (lit "7") (Some (lit "https://a.example/")) (Some [])
                 (Some 1700000000000) None None.

(** A visit with a title. *)
Definition rome_record : HistoryItem.t :=
  HistoryItem.mk (lit "2") (Some (lit "https://example.com/rome"))
                 (Some (lit "Rome")) (Some 1700000000500) (Some 3) None.

Definition react_bookmark : IndexedItem.t :=
  an_item "bookmark_1" "React Tutorial" "https://example.com/react"
          ItemType.bookmark 1700000000000.

Definition rome_visit : IndexedItem.t :=
  an_item "history_2" "Rome" "https://example.com/rome"
          ItemType.history 1700000000500.

Definition one_bookmark : World := perform (AddItem react_bookmark) fresh.

Definition two_items : World := perform (AddItem rome_visit) one_bookmark.

(** The bookmark added twice. *)
Definition added_twice : World :=
  perform (AddItem react_bookmark) one_bookmark.

(** And removed once. *)
Definition removed_once : World :=
  perform (RemoveItem (lit "bookmark_1")) added_twice.

(** Two bookmarks saved in the same millisecond. *)
Definition twin_a : IndexedItem.t :=
  an_item "bookmark_a" "Alpha" "https://a.example/" ItemType.bookmark
          1700000000000.

Definition twin_b : IndexedItem.t :=
  an_item "bookmark_b" "Beta" "https://b.example/" ItemType.bookmark
          1700000000000.

Definition twins : World :=
  perform (AddItem twin_b) (perform (AddItem twin_a) fresh).

Definition list_bookmarks : jsstring := lit "list bookmarks".

Definition react_rome_paris : jsstring := lit "react rome paris".

Definition github_history : jsstring := lit "github history".

(** Three items, and a bookmark whose title is two letters long. *)
Definition paris_page : IndexedItem.t :=
  an_item "reading_https://example.com/paris" "Paris"
          "https://example.com/paris" ItemType.reading_list 1700000000900.

Definition three_items : World := perform (AddItem paris_page) two_items.

Definition go_bookmark : IndexedItem.t :=
  an_item "bookmark_9" "Go" "https://go.dev/" ItemType.bookmark
          1700000000000.

Definition with_go : World := perform (AddItem go_bookmark) one_bookmark.

(** The storage after a sync that found one bookmark, and the indexer
    initialized and rebuilt from it. *)
Definition react_node : BookmarkItem.t :=
  BookmarkItem.mk (lit "1") (lit "React Tutorial")
                  (Some (lit "https://example.com/react"))
                  (Some 1700000000000) None.

Definition synced_storage : Storage.t :=
  Storage.mk (Some [react_node]) None None None None true [].

Definition synced : World :=
  perform (RebuildIndex 1700000000000)
          (perform Initialize (new_world synced_storage)).

(** A second rebuild of it, what a call sees while that rebuild reads the
    storage, and what it leaves. *)
Definition during_rebuild : World :=
  mkWorld (cleared synced) (storage synced) [].

Definition after_rebuild : World :=
  snd (rebuildIndex 1700000000000 (unobserved synced)).

(** Every source enabled, at most 20 entries: the default settings. *)
Definition DEFAULT_SETTINGS : AppSettings.t :=
  AppSettings.mk (AppSettings.mk_sources true true true) 20.

(** History disabled, up to five entries. *)
Definition no_history : AppSettings.t :=
  AppSettings.mk (AppSettings.mk_sources true false true) 5.

(** What the list-all branch gives for ["list"] on the two items. *)
Definition listed : list SearchResult.t :=
  list_all (lit "list") 20 (items (indexer two_items)).

(** The document a rebuild makes of the bookmark of [react_node]. *)
Definition react_document : IndexedItem.t :=
  IndexedItem.mk (lit "bookmark_1") (lit "React Tutorial")
                 (lit "https://example.com/react")
                 (lit "React Tutorial https://example.com/react")
                 ItemType.bookmark 1700000000000
                 (Some (lit "React Tutorial https://example.com/react")).

(** What a sync fetched: the bookmark and a visit, no reading list. *)
Definition fetched_data
  : list BookmarkItem.t * list HistoryItem.t * list ReadingListItem.t :=
  ([react_node], [rome_record], []).

(** The indexer of a new service worker over the synced storage, once
    initialized and before the rebuild. *)
Definition before_rebuild : World :=
  perform Initialize (new_world synced_storage).

(** A rate limiter of one token, refilled at one token a second, created at
    time 0 and asked for a token at once. *)
Definition drained : RateLimiter.t :=
  snd (RateLimiter.waitForToken 0 (RateLimiter.create 1 1 0)).

End Examples.
(* ===================================================================== *)
(** * Properties *)
(* ===================================================================== *)

(** ** The rules of the logic of the methods *)

Section Logic.

Context {case_mapping : CaseMapping} {flexsearch : FlexSearchIndex}.

Lemma settles_weaken {A} (c : M A) w (P P' : A -> World -> Prop)
  (E E' : exn -> World -> Prop) :
  settles c w P E ->
  (forall a w', P a w' -> P' a w') ->
  (forall e w', E e w' -> E' e w') ->
  settles c w P' E'.
Proof.
  unfold settles. destruct (c w) as [[a | e |] w']; auto.
Qed.

Lemma settles_ret {A} (a : A) w (P : A -> World -> Prop) E :
  P a w -> settles (ret a) w P E.
Proof. exact (fun H => H). Qed.

Lemma settles_bind {A B} (c : M A) (k : A -> M B) w
  (P : B -> World -> Prop) E :
  settles c w (fun a w' => settles (k a) w' P E) E ->
  settles (bind c k) w P E.
Proof.
  unfold settles, bind. destruct (c w) as [[a | e |] w']; auto.
Qed.

Lemma settles_try_catch {A} (c : M A) (h : exn -> M A) w
  (P : A -> World -> Prop) E :
  settles c w P (fun e w' => settles (h e) w' P E) ->
  settles (try_catch c h) w P E.
Proof.
  unfold settles, try_catch. destruct (c w) as [[a | e |] w']; auto.
Qed.

Lemma settles_throw {A} (e : exn) w (P : A -> World -> Prop)
  (E : exn -> World -> Prop) :
  E e w -> settles (throw e) w P E.
Proof. exact (fun H => H). Qed.

Lemma settles_gets {A} (f : Indexer -> A) w (P : A -> World -> Prop) E :
  P (f (indexer w)) w -> settles (gets f) w P E.
Proof. exact (fun H => H). Qed.

Lemma settles_modify (f : Indexer -> Indexer) w
  (P : unit -> World -> Prop) E :
  P tt (mkWorld (f (indexer w)) (storage w) (suspended w)) ->
  settles (modify f) w P E.
Proof. exact (fun H => H). Qed.

Lemma settles_suspend w (P : unit -> World -> Prop) E :
  P tt (mkWorld (indexer w) (storage w) (indexer w :: suspended w)) ->
  settles suspend w P E.
Proof. exact (fun H => H). Qed.

Lemma settles_call_index {A} (f : Index -> Completion A * Index) w
  (P : A -> World -> Prop) (E : exn -> World -> Prop) :
  (forall i,
     let w' := mkWorld (mkIndexer i (items (indexer w))
                                  (isInitialized (indexer w)))
                       (storage w) (suspended w) in
     (forall a, f (index (indexer w)) = (Normal a, i) -> P a w')
     /\ (forall e, f (index (indexer w)) = (Abrupt e, i) -> E e w')) ->
  settles (call_index f) w P E.
Proof.
  unfold settles, call_index. intros H.
  destruct (f (index (indexer w))) as [[a | e] i] eqn:Hf;
    destruct (H i) as [Hn Ha]; auto.
Qed.

Lemma settles_call_storage {A} (f : Storage.t -> A * Storage.t) w
  (P : A -> World -> Prop) E :
  P (fst (f (storage w)))
    (mkWorld (indexer w) (snd (f (storage w)))
             (indexer w :: suspended w)) ->
  settles (call_storage f) w P E.
Proof.
  unfold settles, call_storage, bind, suspend. cbn [storage indexer suspended].
  destruct (f (storage w)) as [a s]. auto.
Qed.

Lemma settles_await {A} (c : M A) w (P : A -> World -> Prop) E :
  settles c w
    (fun a w' =>
       P a (mkWorld (indexer w') (storage w') (indexer w' :: suspended w')))
    E ->
  settles (await c) w P E.
Proof.
  intros H. unfold await. apply settles_bind.
  eapply settles_weaken; [exact H | | auto].
  intros a w' HP. apply settles_bind, settles_suspend, settles_ret. exact HP.
Qed.

(** From the logic back to the run. *)
Lemma settles_fulfilled {A} (c : M A) w (P : A -> World -> Prop) :
  settles c w P no_throw ->
  exists a w', c w = (Fulfilled a, w') /\ P a w'.
Proof.
  unfold settles, no_throw. destruct (c w) as [[a | e |] w']; try tauto.
  intros H. exists a, w'. auto.
Qed.

Lemma settles_run {A} (c : M A) w (P : A -> World -> Prop) E a w' :
  settles c w P E -> c w = (Fulfilled a, w') -> P a w'.
Proof. unfold settles. intros H Hc. rewrite Hc in H. exact H. Qed.

Lemma settles_run_rejected {A} (c : M A) w (P : A -> World -> Prop) E e w' :
  settles c w P E -> c w = (Rejected e, w') -> E e w'.
Proof. unfold settles. intros H Hc. rewrite Hc in H. exact H. Qed.

(** The same rules for [ends]. *)
Lemma settles_ends {A} (c : M A) w (P : A -> World -> Prop) E
  (N : World -> Prop) :
  settles c w P E -> ends c w P E N.
Proof.
  unfold settles, ends. destruct (c w) as [[a | e |] w']; tauto.
Qed.

(** A step that always is fulfilled, within [ends]. *)
Lemma ends_fulfilled {A} (c : M A) w (P P' : A -> World -> Prop) E
  (N : World -> Prop) :
  settles c w P' no_throw ->
  (forall a w', P' a w' -> P a w') ->
  ends c w P E N.
Proof.
  unfold settles, ends, no_throw.
  destruct (c w) as [[a | e |] w']; try tauto. auto.
Qed.

Lemma ends_weaken {A} (c : M A) w (P P' : A -> World -> Prop)
  (E E' : exn -> World -> Prop) (N N' : World -> Prop) :
  ends c w P E N ->
  (forall a w', P a w' -> P' a w') ->
  (forall e w', E e w' -> E' e w') ->
  (forall w', N w' -> N' w') ->
  ends c w P' E' N'.
Proof.
  unfold ends. destruct (c w) as [[a | e |] w']; auto.
Qed.

Lemma ends_bind {A B} (c : M A) (k : A -> M B) w
  (P : B -> World -> Prop) E N :
  ends c w (fun a w' => ends (k a) w' P E N) E N ->
  ends (bind c k) w P E N.
Proof.
  unfold ends, bind. destruct (c w) as [[a | e |] w']; auto.
Qed.

Lemma ends_try_catch {A} (c : M A) (h : exn -> M A) w
  (P : A -> World -> Prop) E N :
  ends c w P (fun e w' => ends (h e) w' P E N) N ->
  ends (try_catch c h) w P E N.
Proof.
  unfold ends, try_catch. destruct (c w) as [[a | e |] w']; auto.
Qed.

Lemma ends_call_index {A} (f : Index -> Completion A * Index) w
  (P : A -> World -> Prop) (E : exn -> World -> Prop) (N : World -> Prop) :
  (forall r i,
     f (index (indexer w)) = (r, i) ->
     let w' := mkWorld (mkIndexer i (items (indexer w))
                                  (isInitialized (indexer w)))
                       (storage w) (suspended w) in
     match r with
     | Normal a => P a w'
     | Abrupt e => E e w'
     end) ->
  ends (call_index f) w P E N.
Proof.
  unfold ends, call_index. intros H.
  destruct (f (index (indexer w))) as [[a | e] i] eqn:Hf;
    exact (H _ _ eq_refl).
Qed.

Lemma ends_never {A} w (P : A -> World -> Prop) E (N : World -> Prop) :
  N (mkWorld (indexer w) (storage w) (indexer w :: suspended w)) ->
  ends never w P E N.
Proof. exact (fun H => H). Qed.

Lemma ends_await {A} (c : M A) w (P : A -> World -> Prop) E N :
  ends c w
    (fun a w' =>
       P a (mkWorld (indexer w') (storage w') (indexer w' :: suspended w')))
    E N ->
  ends (await c) w P E N.
Proof.
  unfold ends, await, bind, suspend, ret.
  destruct (c w) as [[a | e |] w']; auto.
Qed.

Lemma ends_conj {A} (c : M A) w (P P' : A -> World -> Prop)
  (E E' : exn -> World -> Prop) (N N' : World -> Prop) :
  ends c w P E N -> ends c w P' E' N' ->
  ends c w (fun a w' => P a w' /\ P' a w')
       (fun e w' => E e w' /\ E' e w') (fun w' => N w' /\ N' w').
Proof.
  unfold ends. destruct (c w) as [[a | e |] w']; auto.
Qed.

Lemma ends_run {A} (c : M A) w (P : A -> World -> Prop) E N a w' :
  ends c w P E N -> c w = (Fulfilled a, w') -> P a w'.
Proof. unfold ends. intros H Hc. rewrite Hc in H. exact H. Qed.

Lemma ends_snd {A} (c : M A) w (I : World -> Prop) :
  ends c w (fun _ w' => I w') (fun _ w' => I w') I -> I (snd (c w)).
Proof. unfold ends. destruct (c w) as [[a | e |] w']; auto. Qed.

End Logic.

(** One step of symbolic execution of a method. *)
Ltac step :=
  lazymatch goal with
  | |- settles (await _) _ _ _ => apply settles_await
  | |- settles (call_storage _) _ _ _ => apply settles_call_storage
  | |- settles (bind _ _) _ _ _ => apply settles_bind
  | |- settles (try_catch _ _) _ _ _ => apply settles_try_catch
  | |- settles (ret _) _ _ _ => apply settles_ret
  | |- settles (gets _) _ _ _ => apply settles_gets
  | |- settles suspend _ _ _ => apply settles_suspend
  | |- settles (throw _) _ _ _ => apply settles_throw
  | |- settles (modify _) _ _ _ => apply settles_modify
  | |- settles (set_index _) _ _ _ => apply settles_modify
  | |- settles (set_items _) _ _ _ => apply settles_modify
  | |- settles (set_isInitialized _) _ _ _ => apply settles_modify
  end.

(** The same for [ends]; a step that cannot stay pending goes by its
    [settles] rule. *)
Ltac estep :=
  lazymatch goal with
  | |- ends (await _) _ _ _ _ => apply ends_await
  | |- ends (bind _ _) _ _ _ _ => apply ends_bind
  | |- ends (try_catch _ _) _ _ _ _ => apply ends_try_catch
  | |- ends never _ _ _ _ => apply ends_never
  | |- ends _ _ _ _ _ => apply settles_ends; step
  end.

Ltac steps :=
  repeat step;
  cbn [indexer storage suspended index items isInitialized].

(** ** The methods always settle *)

Section Settling.

Context {case_mapping : CaseMapping} {flexsearch : FlexSearchIndex}.

Lemma same_items_refl w : same_items w w.
Proof. split; reflexivity. Qed.

Lemma same_items_trans w1 w2 w3 :
  same_items w1 w2 -> same_items w2 w3 -> same_items w1 w3.
Proof. intros [A B] [C D]; split; congruence. Qed.

Lemma call_index_same_items {A} (f : Index -> Completion A * Index) w :
  settles (call_index f) w (fun _ w' => same_items w w')
          (fun _ w' => same_items w w').
Proof.
  apply settles_call_index. intros i; split; intros; split; reflexivity.
Qed.

Lemma addToIndex_spec item w :
  settles (addToIndex item) w
    (fun _ w' =>
       items (indexer w')
       = ItemMap.set (IndexedItem.id item) item (items (indexer w))
       /\ isInitialized (indexer w') = isInitialized (indexer w)
       /\ storage w' = storage w
       /\ suspended w' = suspended w)
    no_throw.
Proof.
  unfold addToIndex. step. step.
  apply settles_call_index. intros i; split; intros; steps; repeat split.
Qed.

Lemma for_of_addToIndex_spec l w :
  settles (for_of l addToIndex) w
    (fun _ w' =>
       items (indexer w') = set_all l (items (indexer w))
       /\ isInitialized (indexer w') = isInitialized (indexer w)
       /\ storage w' = storage w
       /\ suspended w' = suspended w)
    no_throw.
Proof.
  revert w; induction l as [| item l IH]; intros w; simpl.
  - step. repeat split.
  - step. eapply settles_weaken; [apply addToIndex_spec | | auto].
    intros _ w1 (I1 & B1 & S1 & U1).
    eapply settles_weaken; [apply IH | | auto].
    intros _ w2 (I2 & B2 & S2 & U2).
    rewrite I2, I1. repeat split; congruence.
Qed.

Lemma initialize_spec w :
  settles initialize w
    (fun _ w' => isInitialized (indexer w') = true) no_throw.
Proof.
  unfold initialize. step. step.
  destruct (isInitialized (indexer w)) eqn:Hinit.
  - step. exact Hinit.
  - assert (Hcatch : forall (e : exn) w',
               settles (set_isInitialized true) w'
                 (fun _ w'' => isInitialized (indexer w'') = true) no_throw)
      by (intros; steps; reflexivity).
    step. step. step. step.
    destruct (fst (Storage.getIndexedItems (storage w)))
      as [| firstItem rest].
    + steps. reflexivity.
    + step. step. step. step. step.
      eapply settles_weaken;
        [apply for_of_addToIndex_spec | | intros e w' []].
      intros _ w1 _. step.
      eapply settles_weaken;
        [apply call_index_same_items | | intros; apply Hcatch; assumption].
      intros _ w2 _. step.
      eapply settles_weaken;
        [apply call_index_same_items | | intros; apply Hcatch; assumption].
      intros _ w3 _. steps. reflexivity.
Qed.

Lemma ensure_initialized_spec w :
  settles ensure_initialized w
    (fun _ w' =>
       isInitialized (indexer w') = true
       /\ (isInitialized (indexer w) = true -> w' = w))
    no_throw.
Proof.
  unfold ensure_initialized. step. step.
  destruct (isInitialized (indexer w)) eqn:Hinit; simpl.
  - step. auto.
  - step. eapply settles_weaken; [apply initialize_spec | | auto].
    intros [] w' H. split; [exact H | discriminate].
Qed.

Lemma search_all_same_items terms maxResults w :
  settles (search_all terms maxResults) w
    (fun _ w' => same_items w w') (fun _ w' => same_items w w').
Proof.
  revert w; induction terms as [| term rest IH]; intros w; simpl.
  - step. apply same_items_refl.
  - step.
    eapply settles_weaken; [apply call_index_same_items | | auto].
    intros a w1 S1. step.
    eapply settles_weaken; [apply IH | |]; cbv beta in *.
    + intros f w2 S2. step. eapply same_items_trans; eassumption.
    + intros e w2 S2. eapply same_items_trans; eassumption.
Qed.

Lemma search_try_same_items now query maxResults w :
  settles (search_try now query maxResults) w
    (fun _ w' => same_items w w') (fun _ w' => same_items w w').
Proof.
  unfold search_try.
  destruct (isListAllQuery query).
  - steps. apply same_items_refl.
  - unfold keyword_search, raw_matches. step. step.
    eapply settles_weaken; [apply search_all_same_items | | auto].
    intros f w1 S1. steps. exact S1.
Qed.

(** C1. [search] never throws (its promise is fulfilled, neither rejected nor
    left pending), and its result is the empty list when the query is empty
    or white space only, when the document map is empty, and when the body of
    its [try] (the term searches and the scoring) throws. *)
Theorem search_never_throws now query maxResults w :
  exists results w',
    search now query maxResults w = (Fulfilled results, w')
    /\ (trim query = [] -> results = [])
    /\ (items (indexer w') = [] -> results = [])
    /\ (forall e w2,
          search_try now query maxResults (snd (ensure_initialized w))
          = (Rejected e, w2) ->
          results = []).
Proof.
  unfold search, bind at 1.
  pose proof (ensure_initialized_spec w) as Hinit.
  apply settles_fulfilled in Hinit. destruct Hinit as ([] & w1 & E1 & I1 & _).
  rewrite E1. cbn [snd].
  destruct (trim query) as [| c q'] eqn:Htrim.
  - exists [], w1. repeat split; reflexivity.
  - unfold bind at 1, gets.
    destruct (ItemMap.size (items (indexer w1)) =? 0) eqn:Hsize.
    + exists [], w1. repeat split; reflexivity.
    + unfold try_catch.
      pose proof (search_try_same_items now query maxResults w1) as Hs.
      unfold settles in Hs.
      destruct (search_try now query maxResults w1) as [[r | e |] w2].
      * exists r, w2. split; [reflexivity |]. split; [discriminate |].
        split; [| discriminate].
        intros Hempty. destruct Hs as [Hs _]. rewrite Hs in Hempty.
        unfold ItemMap.size in Hsize. rewrite Hempty in Hsize.
        discriminate.
      * exists [], w2. repeat split; reflexivity.
      * destruct Hs.
Qed.

End Settling.

(** ** Arrays *)

Lemma slice0_length {A} (n : Z) (l : list A) :
  0 <= n -> Z.of_nat (length (slice0 n l)) <= n.
Proof.
  intros Hn. unfold slice0.
  destruct (n <? 0) eqn:Hneg; [apply Z.ltb_lt in Hneg; lia |].
  rewrite length_firstn. lia.
Qed.

Lemma firstn_length_firstn {A} (n : nat) (l : list A) :
  firstn (length (firstn n l)) l = firstn n l.
Proof.
  revert n; induction l as [| x l IH]; intros [| n]; simpl;
    try reflexivity.
  f_equal. apply IH.
Qed.

Lemma slice0_firstn {A} (n : Z) (l : list A) :
  slice0 n l = firstn (length (slice0 n l)) l.
Proof.
  unfold slice0. destruct (n <? 0); symmetry; apply firstn_length_firstn.
Qed.

Lemma firstn_In {A} (n : nat) (l : list A) x :
  In x (firstn n l) -> In x l.
Proof.
  intros H. rewrite <- (firstn_skipn n l). apply in_or_app. left. exact H.
Qed.

Lemma slice0_incl {A} (n : Z) (l : list A) x :
  In x (slice0 n l) -> In x l.
Proof.
  rewrite slice0_firstn. apply firstn_In.
Qed.

Lemma slice0_all {A} (n : Z) (l : list A) :
  Z.of_nat (length l) <= n -> slice0 n l = l.
Proof.
  intros H. unfold slice0.
  destruct (n <? 0) eqn:Hneg; [apply Z.ltb_lt in Hneg; lia |].
  apply firstn_all2. lia.
Qed.

(** ** The history normalizer *)

Lemma truthy_str_non_empty (field : option jsstring) :
  truthy_str field = true <-> non_empty field.
Proof.
  unfold non_empty. destruct field as [[| c s] |]; simpl; split;
    try discriminate; try (intros (c' & s' & H); discriminate).
  - intros _. exists c, s. reflexivity.
  - reflexivity.
Qed.

Lemma convertHistory_app now (h1 h2 : list HistoryItem.t) :
  convertHistoryToIndexedItems now (h1 ++ h2)
  = convertHistoryToIndexedItems now h1
    ++ convertHistoryToIndexedItems now h2.
Proof.
  unfold convertHistoryToIndexedItems. rewrite filter_app, map_app.
  reflexivity.
Qed.

(** C8, as the code has it. The history normalizer works record by record:
    a record whose url and title are both present and non-empty gives exactly
    one document (id ["history_" + id], the record's title and url, type
    history), and a record whose url or title is missing or the empty string
    gives none. *)
Theorem convertHistory_per_record now (history : list HistoryItem.t) :
  convertHistoryToIndexedItems now history
  = flat_map (fun record => convertHistoryToIndexedItems now [record]) history
  /\ forall record,
       (non_empty (HistoryItem.url record)
        /\ non_empty (HistoryItem.title record) ->
        exists doc,
          convertHistoryToIndexedItems now [record] = [doc]
          /\ IndexedItem.id doc = lit "history_" ++ HistoryItem.id record
          /\ Some (IndexedItem.title doc) = HistoryItem.title record
          /\ Some (IndexedItem.url doc) = HistoryItem.url record
          /\ IndexedItem.type doc = ItemType.history)
       /\ (~ (non_empty (HistoryItem.url record)
              /\ non_empty (HistoryItem.title record)) ->
           convertHistoryToIndexedItems now [record] = []).
Proof.
  split.
  - induction history as [| r h IH]; [reflexivity |].
    change (r :: h) with ([r] ++ h).
    rewrite convertHistory_app, IH. reflexivity.
  - intros record. split.
    + intros [Hu Ht].
      destruct Hu as (cu & su & Hu), Ht as (ct & st & Ht).
      unfold convertHistoryToIndexedItems. simpl.
      rewrite Hu, Ht. simpl.
      eexists. split; [reflexivity |]. simpl. rewrite Hu, Ht.
      repeat split.
    + intros Hno.
      unfold convertHistoryToIndexedItems. simpl.
      destruct (truthy_str (HistoryItem.url record)) eqn:Hu;
        [| reflexivity].
      destruct (truthy_str (HistoryItem.title record)) eqn:Ht;
        [| reflexivity].
      exfalso. apply Hno. split; apply truthy_str_non_empty; assumption.
Qed.

(** ** The context of a chat request *)

Lemma filteredResults_enabled settings searchResults r :
  In r (filteredResults settings searchResults) ->
  isEnabled settings (IndexedItem.type (SearchResult.item r)) = true.
Proof.
  unfold filteredResults. intros H. apply filter_In in H. apply H.
Qed.

Lemma or_str_snippet (item : IndexedItem.t) :
  or_str (IndexedItem.snippet item)
         (substring0 200 (IndexedItem.content item))
  = match IndexedItem.snippet item with
    | Some (c :: s) => c :: s
    | _ => firstn 200 (IndexedItem.content item)
    end.
Proof.
  unfold or_str, substring0.
  destruct (IndexedItem.snippet item) as [[| c s] |]; reflexivity.
Qed.


(** ** Statistics *)

Section Statistics.

Context {case_mapping : CaseMapping} {flexsearch : FlexSearchIndex}.

(** C10. Before the indexer is initialized, [getStats] answers
    [{totalItems: 0, indexSize: 0}] and leaves the world as it is: it reads
    nothing from storage. Once the indexer is initialized, [totalItems] is
    the size of the document map (and the serialized index is read once). *)
Theorem getStats_before_and_after_initialization w :
  (isInitialized (indexer w) = false ->
   getStats w = (Fulfilled (mkStats 0 0), w))
  /\ (isInitialized (indexer w) = true ->
      exists stats w',
        getStats w = (Fulfilled stats, w')
        /\ totalItems stats = ItemMap.size (items (indexer w))
        /\ Storage.reads (storage w')
           = Storage.SEARCH_INDEX :: Storage.reads (storage w)).
Proof.
  split; intros Hinit;
    unfold getStats, bind, gets, call_storage, bind, suspend, ret;
    cbv beta; rewrite Hinit; cbn [negb].
  - reflexivity.
  - cbn [storage indexer suspended].
    destruct (Storage.getSearchIndex (storage w)) as [serialized s] eqn:Hget.
    eexists; eexists. split; [reflexivity |]. cbn.
    split; [reflexivity |].
    unfold Storage.getSearchIndex in Hget. inversion Hget. reflexivity.
Qed.

End Statistics.

(** ** Strings and the document map *)

Lemma str_eqb_eq (a b : jsstring) : str_eqb a b = true <-> a = b.
Proof.
  revert b; induction a as [| x a IH]; intros [| y b]; simpl;
    split; try discriminate; try reflexivity.
  - intros H. apply andb_prop in H. destruct H as [Hxy Hab].
    apply Z.eqb_eq in Hxy. apply IH in Hab. congruence.
  - intros H. inversion H; subst. rewrite Z.eqb_refl. simpl.
    apply IH. reflexivity.
Qed.

Lemma str_eqb_refl (a : jsstring) : str_eqb a a = true.
Proof. apply str_eqb_eq. reflexivity. Qed.

Lemma str_eqb_neq (a b : jsstring) : str_eqb a b = false <-> a <> b.
Proof.
  split.
  - intros H E. apply str_eqb_eq in E. congruence.
  - intros H. destruct (str_eqb a b) eqn:E; [| reflexivity].
    apply str_eqb_eq in E. contradiction.
Qed.

Lemma get_In k m v : ItemMap.get k m = Some v -> In (k, v) m.
Proof.
  induction m as [| [k' v'] m IH]; simpl; [discriminate |].
  destruct (str_eqb k k') eqn:E.
  - apply str_eqb_eq in E. intros H. inversion H; subst. left. reflexivity.
  - intros H. right. apply IH. exact H.
Qed.

Lemma get_None k m : ItemMap.get k m = None <-> ~ In k (keys m).
Proof.
  induction m as [| [k' v'] m IH]; simpl.
  - tauto.
  - destruct (str_eqb k k') eqn:E.
    + apply str_eqb_eq in E. subst k'.
      split; [discriminate | intros H; exfalso; apply H; left; reflexivity].
    + apply str_eqb_neq in E. rewrite IH. split.
      * intros H [H1 | H1]; [congruence | tauto].
      * intros H H1. apply H. right. exact H1.
Qed.

Lemma keys_replace k v m : keys (ItemMap.replace k v m) = keys m.
Proof.
  induction m as [| [k' v'] m IH]; simpl; [reflexivity |].
  destruct (str_eqb k k'); simpl; [reflexivity | f_equal; exact IH].
Qed.

Lemma In_replace k v m entry :
  In entry (ItemMap.replace k v m) -> In entry m \/ entry = (k, v).
Proof.
  induction m as [| [k' v'] m IH]; simpl; [tauto |].
  destruct (str_eqb k k') eqn:E; simpl.
  - apply str_eqb_eq in E. subst k'. intros [H | H]; auto.
  - intros [H | H]; auto. destruct (IH H); auto.
Qed.

Lemma set_ok k v m :
  k = IndexedItem.id v -> items_ok m -> items_ok (ItemMap.set k v m).
Proof.
  intros Hk [Hnd Hkeyed]. unfold ItemMap.set, ItemMap.has.
  destruct (ItemMap.get k m) eqn:Hget; split.
  - rewrite (keys_replace k v m). exact Hnd.
  - apply Forall_forall. intros entry Hin.
    apply In_replace in Hin. destruct Hin as [Hin | ->].
    + revert entry Hin. apply Forall_forall. exact Hkeyed.
    + exact Hk.
  - unfold keys. rewrite map_app. simpl.
    apply NoDup_app;
      [exact Hnd | constructor; [intros [] | constructor] |].
    intros x Hx [<- | []]. apply get_None in Hget. contradiction.
  - apply Forall_app. split; [exact Hkeyed |].
    constructor; [exact Hk | constructor].
Qed.

Lemma set_all_ok l m : items_ok m -> items_ok (set_all l m).
Proof.
  revert m; induction l as [| item l IH]; intros m Hm; simpl;
    [exact Hm |].
  apply IH. apply set_ok; [reflexivity | exact Hm].
Qed.

Lemma nil_ok : items_ok [].
Proof. split; constructor. Qed.

Lemma In_delete k m entry : In entry (ItemMap.delete k m) -> In entry m.
Proof.
  induction m as [| [k' v'] m IH]; simpl; [tauto |].
  destruct (str_eqb k k'); simpl; [tauto |].
  intros [H | H]; auto.
Qed.

Lemma keys_delete k m x : In x (keys (ItemMap.delete k m)) -> In x (keys m).
Proof.
  unfold keys. intros H. apply in_map_iff in H.
  destruct H as (entry & <- & Hin). apply in_map. eapply In_delete; eauto.
Qed.

Lemma delete_ok k m : items_ok m -> items_ok (ItemMap.delete k m).
Proof.
  intros [Hnd Hkeyed]. split.
  - clear Hkeyed. induction m as [| [k' v'] m IH]; simpl; [constructor |].
    inversion Hnd as [| ? ? Hnotin Hnd']; subst.
    destruct (str_eqb k k'); [exact Hnd' |].
    simpl. constructor; [| apply IH; exact Hnd'].
    intros H. apply Hnotin. eapply keys_delete; exact H.
  - apply Forall_forall. intros entry Hin.
    apply In_delete in Hin. revert entry Hin. apply Forall_forall.
    exact Hkeyed.
Qed.

Lemma delete_gone k m : NoDup (keys m) -> ~ In k (keys (ItemMap.delete k m)).
Proof.
  induction m as [| [k' v'] m IH]; simpl; [tauto |].
  intros Hnd. inversion Hnd as [| ? ? Hnotin Hnd']; subst.
  destruct (str_eqb k k') eqn:E.
  - apply str_eqb_eq in E. subst k'. exact Hnotin.
  - apply str_eqb_neq in E. simpl. intros [H | H]; [congruence |].
    apply IH in H; [exact H | exact Hnd'].
Qed.

(** No item of a well-formed map from which [k] is absent has the id [k]. *)
Lemma absent_id k m v :
  items_ok m -> ~ In k (keys m) -> In v (ItemMap.values m) ->
  IndexedItem.id v <> k.
Proof.
  intros [_ Hkeyed] Habsent Hv Hid.
  unfold ItemMap.values in Hv. apply in_map_iff in Hv.
  destruct Hv as ([k' v'] & Hsnd & Hin). simpl in Hsnd. subst v'.
  assert (Hk : k' = IndexedItem.id v).
  { pose proof (proj1 (Forall_forall _ _) Hkeyed (k', v) Hin) as H.
    exact H. }
  apply Habsent. unfold keys.
  change k with (fst (k, v)). rewrite <- Hid, <- Hk at 1.
  apply in_map with (f := fst) in Hin. exact Hin.
Qed.

(** ** Sorting *)

Lemma sort_insert_perm {A} (after : A -> A -> bool) x l :
  Permutation (sort_insert after x l) (x :: l).
Proof.
  induction l as [| y l IH]; simpl; [reflexivity |].
  destruct (after x y); [| reflexivity].
  rewrite IH. apply perm_swap.
Qed.

Lemma sort_perm {A} (after : A -> A -> bool) l :
  Permutation (sort after l) l.
Proof.
  induction l as [| x l IH]; simpl; [reflexivity |].
  rewrite sort_insert_perm. constructor. exact IH.
Qed.

Lemma sort_In {A} (after : A -> A -> bool) l x :
  In x (sort after l) <-> In x l.
Proof.
  split; apply Permutation_in;
    [apply sort_perm | symmetry; apply sort_perm].
Qed.

(** ** The matcher and what a pattern matches *)

Lemma nullable_matches icase r : nullable r = true <-> matches icase r [].
Proof.
  split.
  - induction r; simpl; intros H; try discriminate.
    + constructor.
    + apply andb_prop in H. destruct H as [H1 H2].
      change (@nil Z) with (@nil Z ++ []). constructor; auto.
    + apply orb_prop in H. destruct H as [H | H];
        [apply matches_alt_l | apply matches_alt_r]; auto.
    + constructor.
    + constructor.
  - intros H. remember [] as s eqn:Hs. induction H; simpl; subst;
      try discriminate; try reflexivity.
    + apply app_eq_nil in Hs. destruct Hs as [-> ->].
      rewrite IHmatches1, IHmatches2; reflexivity.
    + rewrite IHmatches; reflexivity.
    + rewrite IHmatches; [apply orb_true_r | reflexivity].
Qed.

Lemma matches_Fail icase s : ~ matches icase Fail s.
Proof. intros H. inversion H. Qed.

Lemma matches_seq_inv icase r1 r2 s :
  matches icase (Seq r1 r2) s ->
  exists s1 s2,
    s = s1 ++ s2 /\ matches icase r1 s1 /\ matches icase r2 s2.
Proof. intros H. inversion H; subst. eauto. Qed.

Lemma matches_alt_inv icase r1 r2 s :
  matches icase (Alt r1 r2) s -> matches icase r1 s \/ matches icase r2 s.
Proof. intros H. inversion H; subst; auto. Qed.

Lemma matches_Eps_inv icase s : matches icase Eps s -> s = [].
Proof. intros H. inversion H. reflexivity. Qed.

Lemma seq_matches icase r1 r2 s :
  matches icase (seq r1 r2) s <-> matches icase (Seq r1 r2) s.
Proof.
  destruct r1; simpl; try tauto.
  - split; intros H; [destruct (matches_Fail H) |].
    apply matches_seq_inv in H. destruct H as (s1 & s2 & _ & H1 & _).
    destruct (matches_Fail H1).
  - split; intros H.
    + change s with ([] ++ s). constructor; [constructor | exact H].
    + apply matches_seq_inv in H. destruct H as (s1 & s2 & -> & H1 & H2).
      apply matches_Eps_inv in H1. subst s1. exact H2.
Qed.

Lemma alt_matches icase r1 r2 s :
  matches icase (alt r1 r2) s <-> matches icase (Alt r1 r2) s.
Proof.
  assert (Hl : forall r, matches icase (Alt Fail r) s <-> matches icase r s).
  { intros r. split; intros H; [| apply matches_alt_r; exact H].
    apply matches_alt_inv in H. destruct H as [H | H];
      [destruct (matches_Fail H) | exact H]. }
  assert (Hr : forall r, matches icase (Alt r Fail) s <-> matches icase r s).
  { intros r. split; intros H; [| apply matches_alt_l; exact H].
    apply matches_alt_inv in H. destruct H as [H | H];
      [exact H | destruct (matches_Fail H)]. }
  destruct r1; simpl; try (symmetry; apply Hl);
    destruct r2; simpl; try tauto; symmetry; apply Hr.
Qed.

(** A match of [r*] that begins with [c] begins with a match of [r] that
    begins with [c]. *)
Lemma matches_star_cons icase r c s :
  matches icase (Star r) (c :: s) ->
  exists s1 s2,
    s = s1 ++ s2 /\ matches icase r (c :: s1) /\ matches icase (Star r) s2.
Proof.
  intros H. remember (Star r) as r' eqn:Hr. remember (c :: s) as cs eqn:Hcs.
  revert s Hcs.
  induction H as [| | | | | | | r0 s1 s2 H1 _ H2 IH2 | |]; intros tl Hcs;
    try discriminate.
  inversion Hr; subst r0.
  destruct s1 as [| c1 s1]; simpl in Hcs.
  - apply IH2; [reflexivity | exact Hcs].
  - inversion Hcs; subst. exists s1, s2. auto.
Qed.

Lemma deriv_matches icase c r s :
  matches icase (deriv icase c r) s <-> matches icase r (c :: s).
Proof.
  revert s; induction r as [| | p | | r1 IH1 r2 IH2 | r1 IH1 r2 IH2
                            | r1 IH1 | r1 IH1]; intros s; simpl.
  - split; intros H; inversion H.
  - split; intros H; inversion H.
  - destruct (chr_match icase p c) eqn:E; split; intros H.
    + inversion H; subst. constructor. exact E.
    + inversion H; subst. constructor.
    + inversion H.
    + inversion H; subst. congruence.
  - destruct (isLineTerminator c) eqn:E; split; intros H.
    + inversion H.
    + inversion H; subst. congruence.
    + inversion H; subst. constructor. exact E.
    + inversion H; subst. constructor.
  - assert (Hseq : matches icase (Seq (deriv icase c r1) r2) s ->
                   matches icase (Seq r1 r2) (c :: s)).
    { intros H. apply matches_seq_inv in H.
      destruct H as (s1 & s2 & -> & H1 & H2).
      change (c :: s1 ++ s2) with ((c :: s1) ++ s2).
      constructor; [apply IH1; exact H1 | exact H2]. }
    assert (Hinv : matches icase (Seq r1 r2) (c :: s) ->
                   (matches icase r1 [] /\ matches icase r2 (c :: s))
                   \/ matches icase (Seq (deriv icase c r1) r2) s).
    { intros H. apply matches_seq_inv in H.
      destruct H as ([| c1 s1] & s2 & Hs & H1 & H2); simpl in Hs.
      - subst s2. left. auto.
      - inversion Hs; subst. right.
        constructor; [apply IH1; exact H1 | exact H2]. }
    destruct (nullable r1) eqn:En.
    + rewrite alt_matches. split; intros H.
      * apply matches_alt_inv in H. destruct H as [Hl | Hr].
        -- apply Hseq, seq_matches. exact Hl.
        -- change (c :: s) with ([] ++ c :: s).
           constructor; [apply nullable_matches; exact En
                        | apply IH2; exact Hr].
      * apply Hinv in H. destruct H as [[_ H2] | H].
        -- apply matches_alt_r, IH2. exact H2.
        -- apply matches_alt_l, seq_matches. exact H.
    + rewrite seq_matches. split; [exact Hseq |].
      intros H. apply Hinv in H. destruct H as [[H1 _] | H]; [| exact H].
      apply nullable_matches in H1. congruence.
  - rewrite alt_matches. split; intros H; apply matches_alt_inv in H;
      destruct H as [H | H];
      solve [apply matches_alt_l, IH1; exact H
            | apply matches_alt_r, IH2; exact H].
  - rewrite seq_matches. split; intros H.
    + apply matches_seq_inv in H. destruct H as (s1 & s2 & -> & H1 & H2).
      change (c :: s1 ++ s2) with ((c :: s1) ++ s2).
      constructor; [apply IH1; exact H1 | exact H2].
    + apply matches_star_cons in H. destruct H as (s1 & s2 & -> & H1 & H2).
      constructor; [apply IH1; exact H1 | exact H2].
  - split; intros H.
    + apply matches_opt_some, IH1. exact H.
    + inversion H; subst. apply IH1. assumption.
Qed.

(** [prefix_match] finds the matches that begin the string. *)
Lemma prefix_match_spec icase r s :
  prefix_match icase r s = true
  <-> exists found after, s = found ++ after /\ matches icase r found.
Proof.
  revert r; induction s as [| c s IH]; intros r.
  - assert (H : prefix_match icase r [] = nullable r)
      by (simpl; destruct (nullable r), r; reflexivity).
    rewrite H, (nullable_matches icase). split.
    + intros Hm. exists [], []. auto.
    + intros (found & after & Hs & Hm). symmetry in Hs.
      apply app_eq_nil in Hs. destruct Hs as [-> _]. exact Hm.
  - assert (H : prefix_match icase r (c :: s)
                = nullable r || prefix_match icase (deriv icase c r) s).
    { simpl. destruct (nullable r) eqn:En; [reflexivity |].
      destruct r; try reflexivity.
      simpl. destruct s; reflexivity. }
    rewrite H, orb_true_iff, (nullable_matches icase), IH. split.
    + intros [Hm | (found & after & -> & Hm)].
      * exists [], (c :: s). auto.
      * exists (c :: found), after. split; [reflexivity |].
        apply deriv_matches. exact Hm.
    + intros ([| c' found] & after & Hs & Hm); [left; exact Hm |].
      simpl in Hs. inversion Hs; subst. right.
      exists found, after. split; [reflexivity |].
      apply deriv_matches. exact Hm.
Qed.

(** [test] finds the matches anywhere in the string. *)
Lemma test_spec icase r s :
  test icase r s = true <-> matches_within icase r s.
Proof.
  unfold matches_within. induction s as [| c s IH].
  - assert (H : test icase r [] = prefix_match icase r [])
      by (simpl; destruct (nullable r), r; reflexivity).
    rewrite H, prefix_match_spec. split.
    + intros (found & after & Hs & Hm). exists [], found, after. auto.
    + intros (before & found & after & Hs & Hm). symmetry in Hs.
      apply app_eq_nil in Hs. destruct Hs as [_ Hs].
      apply app_eq_nil in Hs. destruct Hs as [-> ->].
      exists [], []. auto.
  - assert (H : test icase r (c :: s)
                = prefix_match icase r (c :: s) || test icase r s).
    { cbn [test]. destruct (prefix_match icase r (c :: s)); reflexivity. }
    rewrite H, orb_true_iff, prefix_match_spec, IH. split.
    + intros [(found & after & Hs & Hm)
             | (before & found & after & -> & Hm)].
      * exists [], found, after. auto.
      * exists (c :: before), found, after. auto.
    + intros ([| c' before] & found & after & Hs & Hm).
      * left. exists found, after. auto.
      * simpl in Hs. inversion Hs; subst. right.
        exists before, found, after. auto.
Qed.

(** ** The document map stays well formed *)

Section Invariant.

Context {case_mapping : CaseMapping} {flexsearch : FlexSearchIndex}.

Variable J : ItemMap.t -> bool -> Prop.

Local Abbreviation on_items := (on_indexer J).

Lemma keeps_ret {A} (a : A) : keeps on_items (ret a).
Proof. intros w H. exact H. Qed.

Lemma keeps_throw {A} (e : exn) : keeps on_items (throw e : M A).
Proof. intros w H. exact H. Qed.

Lemma keeps_never {A} : keeps on_items (never : M A).
Proof. intros w H. exact H. Qed.

Lemma keeps_gets {A} (f : Indexer -> A) : keeps on_items (gets f).
Proof. intros w H. exact H. Qed.

Lemma keeps_suspend : keeps on_items suspend.
Proof. intros w H. exact H. Qed.

Lemma keeps_set_index i : keeps on_items (set_index i).
Proof. intros w H. exact H. Qed.

Lemma keeps_set_items m : (forall b, J m b) -> keeps on_items (set_items m).
Proof. intros Hm w H. apply Hm. Qed.

Lemma keeps_call_index {A} (f : Index -> Completion A * Index) :
  keeps on_items (call_index f).
Proof.
  intros w H. unfold ends, call_index.
  destruct (f (index (indexer w))) as [[a | e] i]; exact H.
Qed.

Lemma keeps_call_storage {A} (f : Storage.t -> A * Storage.t) :
  keeps on_items (call_storage f).
Proof.
  intros w H. unfold ends, call_storage, bind, suspend. simpl.
  destruct (f (storage w)) as [a s]. exact H.
Qed.

Lemma keeps_bind {A B} (c : M A) (k : A -> M B) :
  keeps on_items c -> (forall a, keeps on_items (k a)) ->
  keeps on_items (bind c k).
Proof.
  intros Hc Hk w H. apply ends_bind.
  eapply ends_weaken; [apply Hc; exact H | | auto | auto].
  intros a w' H'. apply Hk. exact H'.
Qed.

Lemma keeps_try_catch {A} (c : M A) (h : exn -> M A) :
  keeps on_items c -> (forall e, keeps on_items (h e)) ->
  keeps on_items (try_catch c h).
Proof.
  intros Hc Hh w H. apply ends_try_catch.
  eapply ends_weaken; [apply Hc; exact H | auto | | auto].
  intros e w' H'. apply Hh. exact H'.
Qed.

Lemma keeps_await {A} (c : M A) : keeps on_items c -> keeps on_items (await c).
Proof.
  intros Hc. unfold await.
  apply keeps_bind; [exact Hc | intros a].
  apply keeps_bind; [apply keeps_suspend | intros _; apply keeps_ret].
Qed.

(** [const m = this.items; this.items = f m], then [k]. *)
Lemma keeps_update_items {B} (f : ItemMap.t -> ItemMap.t) (k : M B) :
  (forall m b, J m b -> J (f m) b) ->
  keeps on_items k ->
  keeps on_items
    (bind (gets items) (fun m => bind (set_items (f m)) (fun _ => k))).
Proof.
  intros Hf Hk w H. apply ends_bind, ends_bind. apply Hk.
  exact (Hf _ _ H).
Qed.

Lemma keeps_for_of {A} (l : list A) (f : A -> M unit) :
  (forall x, keeps on_items (f x)) -> keeps on_items (for_of l f).
Proof.
  intros Hf. induction l as [| x l IH]; simpl.
  - apply keeps_ret.
  - apply keeps_bind; [apply Hf | intros _; exact IH].
Qed.

Lemma keeps_persistIndex : keeps on_items persistIndex.
Proof.
  unfold persistIndex.
  apply keeps_try_catch; [| intros e; apply keeps_ret].
  apply keeps_bind; [apply keeps_call_index | intros [serialized |]].
  - apply keeps_bind; [apply keeps_suspend | intros _].
    apply keeps_bind; [apply keeps_call_storage | intros _].
    apply keeps_ret.
  - apply keeps_never.
Qed.

Lemma keeps_search_all terms maxResults :
  keeps on_items (search_all terms maxResults).
Proof.
  induction terms as [| term rest IH]; simpl.
  - apply keeps_ret.
  - apply keeps_bind; [apply keeps_call_index | intros found].
    apply keeps_bind; [exact IH | intros more; apply keeps_ret].
Qed.

Lemma keeps_search_try now query maxResults :
  keeps on_items (search_try now query maxResults).
Proof.
  unfold search_try. destruct (isListAllQuery query).
  - apply keeps_bind; [apply keeps_gets | intros m; apply keeps_ret].
  - unfold keyword_search, raw_matches.
    apply keeps_bind.
    + apply keeps_bind; [apply keeps_search_all | intros f; apply keeps_ret].
    + intros found.
      apply keeps_bind; [apply keeps_gets | intros m; apply keeps_ret].
Qed.

Lemma keeps_getStats : keeps on_items getStats.
Proof.
  unfold getStats. apply keeps_bind; [apply keeps_gets | intros init].
  destruct init; simpl; [| apply keeps_ret].
  apply keeps_bind; [apply keeps_call_storage | intros serialized].
  apply keeps_bind; [apply keeps_gets | intros m; apply keeps_ret].
Qed.

(** The methods that write the map keep a property that holds of the empty
    map, that [set] and [delete] keep, and that initialization keeps. *)
Hypothesis J_nil : forall b, J [] b.
Hypothesis J_set :
  forall item m b, J m b -> J (ItemMap.set (IndexedItem.id item) item m) b.
Hypothesis J_delete : forall k m b, J m b -> J (ItemMap.delete k m) b.
Hypothesis J_initialized : forall m b, J m b -> J m true.

Lemma keeps_set_initialized : keeps on_items (set_isInitialized true).
Proof. intros w H. exact (J_initialized H). Qed.

Lemma keeps_addToIndex item : keeps on_items (addToIndex item).
Proof.
  unfold addToIndex.
  apply keeps_bind.
  - apply keeps_try_catch;
      [apply keeps_call_index | intros e; apply keeps_ret].
  - intros _ w H. apply ends_bind. exact (J_set item H).
Qed.

Lemma keeps_initialize : keeps on_items initialize.
Proof.
  unfold initialize. apply keeps_bind; [apply keeps_gets | intros init].
  destruct init; [apply keeps_ret |].
  apply keeps_try_catch; [| intros e; apply keeps_set_initialized].
  apply keeps_bind; [apply keeps_call_storage | intros stored].
  apply keeps_bind; [| intros _; apply keeps_set_initialized].
  destruct stored as [| firstItem rest]; [apply keeps_ret |].
  apply keeps_bind; [apply keeps_set_index | intros _].
  apply keeps_bind; [apply keeps_set_items, J_nil | intros _].
  apply keeps_bind;
    [apply keeps_for_of; intros x; apply keeps_addToIndex | intros _].
  apply keeps_bind; [apply keeps_call_index | intros _].
  apply keeps_bind; [apply keeps_call_index | intros _; apply keeps_ret].
Qed.

Lemma keeps_ensure_initialized : keeps on_items ensure_initialized.
Proof.
  unfold ensure_initialized.
  apply keeps_bind; [apply keeps_gets | intros init].
  destruct init; simpl; [apply keeps_ret |].
  apply keeps_await, keeps_initialize.
Qed.

Lemma keeps_rebuildIndex now : keeps on_items (rebuildIndex now).
Proof.
  unfold rebuildIndex, rebuild_clear, rebuild_read, rebuild_fill,
    rebuild_save.
  apply keeps_try_catch; [| intros e; apply keeps_throw].
  apply keeps_bind.
  { apply keeps_bind; [apply keeps_set_index | intros _].
    apply keeps_set_items, J_nil. }
  intros _. apply keeps_bind.
  { apply keeps_bind; [apply keeps_call_storage | intros b].
    apply keeps_bind; [apply keeps_call_storage | intros h].
    apply keeps_bind; [apply keeps_call_storage | intros r].
    apply keeps_ret. }
  intros data. apply keeps_bind.
  { apply keeps_for_of; intros x; apply keeps_addToIndex. }
  intros _.
  apply keeps_bind; [apply keeps_await, keeps_persistIndex | intros _].
  apply keeps_bind; [apply keeps_gets | intros m].
  apply keeps_bind; [apply keeps_call_storage | intros _; apply keeps_ret].
Qed.

Lemma keeps_search now query maxResults :
  keeps on_items (search now query maxResults).
Proof.
  unfold search.
  apply keeps_bind; [apply keeps_ensure_initialized | intros _].
  destruct (trim query); [apply keeps_ret |].
  apply keeps_bind; [apply keeps_gets | intros m].
  destruct (ItemMap.size m =? 0); [apply keeps_ret |].
  apply keeps_try_catch; [apply keeps_search_try | intros e; apply keeps_ret].
Qed.

Lemma keeps_addItem item : keeps on_items (addItem item).
Proof.
  unfold addItem.
  apply keeps_bind; [apply keeps_ensure_initialized | intros _].
  apply keeps_bind; [apply keeps_addToIndex | intros _].
  apply keeps_bind; [apply keeps_await, keeps_persistIndex | intros _].
  apply keeps_bind; [apply keeps_call_storage | intros current].
  apply keeps_bind; [apply keeps_call_storage | intros _; apply keeps_ret].
Qed.

Lemma keeps_removeItem itemId : keeps on_items (removeItem itemId).
Proof.
  unfold removeItem.
  apply keeps_bind; [apply keeps_ensure_initialized | intros _].
  apply keeps_bind; [apply keeps_call_index | intros _].
  apply keeps_update_items; [intros m b; apply J_delete |].
  apply keeps_bind; [apply keeps_await, keeps_persistIndex | intros _].
  apply keeps_bind; [apply keeps_call_storage | intros current].
  apply keeps_bind; [apply keeps_call_storage | intros _; apply keeps_ret].
Qed.

Lemma keeps_updateItem item : keeps on_items (updateItem item).
Proof.
  unfold updateItem.
  apply keeps_bind; [apply keeps_await, keeps_removeItem | intros _].
  apply keeps_await, keeps_addItem.
Qed.

Lemma keeps_clearIndex : keeps on_items clearIndex.
Proof.
  unfold clearIndex.
  apply keeps_bind; [apply keeps_set_index | intros _].
  apply keeps_bind; [apply keeps_set_items, J_nil | intros _].
  apply keeps_bind; [apply keeps_call_storage | intros _].
  apply keeps_bind; [apply keeps_call_storage | intros _; apply keeps_ret].
Qed.

Lemma keeps_perform (c : call) w : on_items w -> on_items (perform c w).
Proof.
  intros H. destruct c; simpl; apply ends_snd.
  - apply keeps_initialize, H.
  - apply keeps_rebuildIndex, H.
  - apply keeps_search, H.
  - apply keeps_addItem, H.
  - apply keeps_removeItem, H.
  - apply keeps_updateItem, H.
  - apply keeps_getStats, H.
  - apply keeps_clearIndex, H.
Qed.

Lemma reachable_on_items w : reachable w -> on_items w.
Proof.
  induction 1 as [s | c w _ IH | w s _ IH].
  - apply J_nil.
  - apply keeps_perform, IH.
  - exact IH.
Qed.

End Invariant.

Section WellFormed.

Context {case_mapping : CaseMapping} {flexsearch : FlexSearchIndex}.

(** In every reachable world the keys of the document map are distinct and
    each item is filed under its own id. *)
Lemma reachable_items_ok w : reachable w -> items_ok (items (indexer w)).
Proof.
  apply (@reachable_on_items _ _ (fun m _ => items_ok m)).
  - intros _. apply nil_ok.
  - intros item m _ Hm. apply set_ok; [reflexivity | exact Hm].
  - intros k m _ Hm. apply delete_ok. exact Hm.
  - intros m _ Hm. exact Hm.
Qed.

End WellFormed.

(** ** Results come from the document map *)

Section Removal.

Context {case_mapping : CaseMapping} {flexsearch : FlexSearchIndex}.

Lemma list_all_results_items maxResults index l :
  map SearchResult.item (list_all_results maxResults index l) = l.
Proof.
  revert index; induction l as [| item l IH]; intros index; simpl;
    [reflexivity | f_equal; apply IH].
Qed.

Lemma list_all_from_items query maxResults m r :
  In r (list_all query maxResults m) ->
  In (SearchResult.item r) (ItemMap.values m)
  /\ has_type (includeTypes query) (SearchResult.item r) = true.
Proof.
  unfold list_all. intros H.
  apply (in_map SearchResult.item) in H.
  rewrite list_all_results_items in H.
  apply slice0_incl, sort_In, filter_In in H. exact H.
Qed.

Lemma score_results_from_items now clean maxResults m i ids r :
  In r (score_results now clean maxResults m i ids) ->
  In (SearchResult.item r) (ItemMap.values m).
Proof.
  revert i; induction ids as [| itemId rest IH]; intros i; simpl; [tauto |].
  destruct (ItemMap.get itemId m) as [item |] eqn:Hget; [| apply IH].
  intros [<- | H]; [| eapply IH; exact H].
  simpl. apply get_In in Hget.
  apply (in_map snd) in Hget. exact Hget.
Qed.

(** On an initialized indexer a search leaves the map and the flag alone,
    and the item of each result is a value of the map. *)
Lemma search_from_items now query maxResults w :
  isInitialized (indexer w) = true ->
  settles (search now query maxResults) w
    (fun results w' =>
       same_items w w'
       /\ Forall (fun r => In (SearchResult.item r)
                              (ItemMap.values (items (indexer w))))
                 results)
    no_throw.
Proof.
  intros Hinit. unfold search. step.
  eapply settles_weaken; [apply ensure_initialized_spec | | auto].
  intros [] w0 [_ Hsame]. cbv beta. specialize (Hsame Hinit). subst w0.
  destruct (trim query); [step; split; [apply same_items_refl | constructor] |].
  step. step.
  destruct (ItemMap.size (items (indexer w)) =? 0);
    [step; split; [apply same_items_refl | constructor] |].
  step. unfold search_try.
  destruct (isListAllQuery query).
  - steps. split; [apply same_items_refl |].
    apply Forall_forall. intros r Hr.
    apply list_all_from_items in Hr. apply Hr.
  - unfold keyword_search, raw_matches. step. step.
    eapply settles_weaken; [apply search_all_same_items | |]; cbv beta.
    + intros found w1 S1. steps. split; [exact S1 |].
      apply Forall_forall. intros r Hr.
      apply sort_In, score_results_from_items in Hr.
      destruct S1 as [S1 _]. rewrite S1 in Hr. exact Hr.
    + intros e w1 S1. steps. split; [exact S1 | constructor].
Qed.

Lemma keeps_ok {A} (c : M A) :
  (forall J : ItemMap.t -> bool -> Prop,
     (forall b, J [] b) ->
     (forall item m b,
        J m b -> J (ItemMap.set (IndexedItem.id item) item m) b) ->
     (forall k m b, J m b -> J (ItemMap.delete k m) b) ->
     (forall m b, J m b -> J m true) ->
     keeps (on_indexer J) c) ->
  keeps (on_indexer (fun m _ => items_ok m)) c.
Proof.
  intros H. apply H.
  - intros _. apply nil_ok.
  - intros item m _ Hm. apply set_ok; [reflexivity | exact Hm].
  - intros k m _ Hm. apply delete_ok. exact Hm.
  - intros m _ Hm. exact Hm.
Qed.

(** When [removeItem] is fulfilled, the indexer is initialized and the id is
    not in the map. *)
Lemma removeItem_gone itemId w :
  items_ok (items (indexer w)) ->
  ends (removeItem itemId) w
    (fun _ w' => on_indexer (gone itemId) w')
    (fun _ _ => True) (fun _ => True).
Proof.
  intros Hok. unfold removeItem. apply ends_bind.
  assert (Hinit : ends ensure_initialized w
            (fun _ w' => isInitialized (indexer w') = true)
            (fun _ _ => True) (fun _ => True)).
  { apply settles_ends.
    eapply settles_weaken; [apply ensure_initialized_spec | | auto].
    cbv beta. intros _ w' [H _]. exact H. }
  assert (Hkeeps : keeps (on_indexer (fun m _ => items_ok m))
                         ensure_initialized).
  { apply keeps_ok. intros J a b c d. apply keeps_ensure_initialized; auto. }
  eapply ends_weaken;
    [apply ends_conj; [exact Hinit | exact (Hkeeps w Hok)] | | auto | auto].
  cbv beta. clear Hinit Hkeeps. intros [] w0 [Hinit Hok0].
  apply ends_bind.
  assert (Hremove : ends (call_index (fun i => index_remove i itemId)) w0
            (fun _ w' => same_items w0 w') (fun _ _ => True)
            (fun _ => True)).
  { apply settles_ends.
    eapply settles_weaken; [apply call_index_same_items | auto | auto]. }
  eapply ends_weaken; [exact Hremove | | auto | auto].
  cbv beta. clear Hremove. intros [] w1 [Hitems Hflag].
  estep. estep. estep. estep.
  assert (Hrest : keeps (on_indexer (gone itemId))
            (bind (await persistIndex)
               (fun _ =>
                  bind (call_storage Storage.getIndexedItems)
                    (fun currentItems =>
                       bind (call_storage
                               (Storage.setIndexedItems
                                  (filter
                                     (fun item =>
                                        negb (str_eqb (IndexedItem.id item)
                                                      itemId))
                                     currentItems)))
                            (fun _ => ret tt))))).
  { apply keeps_bind; [apply keeps_await, keeps_persistIndex | intros _].
    apply keeps_bind; [apply keeps_call_storage | intros current].
    apply keeps_bind; [apply keeps_call_storage | intros _; apply keeps_ret]. }
  eapply ends_weaken; [apply Hrest | auto | auto | auto].
  unfold on_indexer, gone. simpl. rewrite Hflag, Hitems.
  unfold on_indexer in Hok0.
  split; [exact Hinit |].
  split; [apply delete_ok; exact Hok0 | apply delete_gone, Hok0].
Qed.

(** C7. From any world that calls of the public methods lead to (whatever
    was added before, and however often), once [removeItem(id)] is
    fulfilled, no search made afterwards returns a result whose item has
    that id. *)
Theorem removed_item_is_never_found w itemId w1 queries :
  reachable w ->
  removeItem itemId w = (Fulfilled tt, w1) ->
  Forall (Forall (fun r => IndexedItem.id (SearchResult.item r) <> itemId))
         (run_searches queries w1).
Proof.
  intros Hreach Hrun.
  assert (Hgone : on_indexer (gone itemId) w1).
  { pose proof (@removeItem_gone itemId w (reachable_items_ok Hreach)) as Hg.
    unfold ends in Hg. rewrite Hrun in Hg. exact Hg. }
  clear Hreach Hrun w. revert w1 Hgone.
  induction queries as [| [[now query] maxResults] rest IH]; intros w Hgone;
    simpl; [constructor |].
  destruct Hgone as (Hinit & Hok & Habsent).
  pose proof (search_from_items now query maxResults w Hinit) as Hs.
  unfold settles in Hs.
  destruct (search now query maxResults w) as [[results | e |] w'];
    try contradiction.
  destruct Hs as [[Hitems Hflag] Hfrom].
  assert (Hgone' : on_indexer (gone itemId) w').
  { unfold on_indexer, gone. rewrite Hitems, Hflag. auto. }
  constructor; [| apply IH; exact Hgone'].
  eapply Forall_impl; [| exact Hfrom].
  intros r Hr. cbv beta in Hr. eapply absent_id; eassumption.
Qed.

End Removal.

(** ** Listings *)

Section Listing.

Context {case_mapping : CaseMapping} {flexsearch : FlexSearchIndex}.

Lemma sort_insert_sorted {A} (after : A -> A -> bool) (R : A -> A -> Prop)
  x l :
  (forall a b, after a b = true -> R b a) ->
  (forall a b, after a b = false -> R a b) ->
  (forall a b c, R a b -> R b c -> R a c) ->
  StronglySorted R l -> StronglySorted R (sort_insert after x l).
Proof.
  intros Hafter Hbefore Htrans. induction 1 as [| y l Hl IH Hy]; simpl.
  - constructor; constructor.
  - destruct (after x y) eqn:E.
    + constructor; [exact IH |].
      apply Forall_forall. intros z Hz.
      apply (Permutation_in _ (sort_insert_perm after x l)) in Hz.
      destruct Hz as [<- | Hz]; [apply Hafter; exact E |].
      revert z Hz. apply Forall_forall. exact Hy.
    + constructor; [constructor; assumption |].
      constructor; [apply Hbefore; exact E |].
      eapply Forall_impl; [| exact Hy].
      intros z Hz. eapply Htrans; [apply Hbefore; exact E | exact Hz].
Qed.

Lemma sort_sorted {A} (after : A -> A -> bool) (R : A -> A -> Prop) l :
  (forall a b, after a b = true -> R b a) ->
  (forall a b, after a b = false -> R a b) ->
  (forall a b c, R a b -> R b c -> R a c) ->
  StronglySorted R (sort after l).
Proof.
  intros Hafter Hbefore Htrans. induction l as [| x l IH]; simpl.
  - constructor.
  - apply sort_insert_sorted; assumption.
Qed.

Lemma firstn_sorted {A} (R : A -> A -> Prop) n l :
  StronglySorted R l -> StronglySorted R (firstn n l).
Proof.
  intros H. revert n. induction H as [| x l Hl IH Hx]; intros [| n]; simpl;
    try constructor.
  - apply IH.
  - apply Forall_forall. intros y Hy. apply firstn_In in Hy.
    revert y Hy. apply Forall_forall. exact Hx.
Qed.

Lemma slice0_sorted {A} (R : A -> A -> Prop) n (l : list A) :
  StronglySorted R l -> StronglySorted R (slice0 n l).
Proof.
  intros H. rewrite slice0_firstn. apply firstn_sorted. exact H.
Qed.

Lemma map_sorted {A B} (f : A -> B) (R : B -> B -> Prop) l :
  StronglySorted (fun a b => R (f a) (f b)) l ->
  StronglySorted R (map f l).
Proof.
  induction 1 as [| x l Hl IH Hx]; simpl; constructor; [exact IH |].
  apply Forall_map. exact Hx.
Qed.

(** The items of a listing, newest first. *)
Lemma sorted_newest_first (l : list IndexedItem.t) :
  StronglySorted
    (fun a b => IndexedItem.timestamp b <= IndexedItem.timestamp a)
    (sort newer_first l).
Proof.
  apply sort_sorted; unfold newer_first.
  - intros a b H. apply Z.ltb_lt in H. lia.
  - intros a b H. apply Z.ltb_ge in H. lia.
  - intros a b c. lia.
Qed.

Lemma has_type_names query item :
  has_type (includeTypes query) item = true ->
  names_type query (IndexedItem.type item) = true
  \/ names_no_type query = true.
Proof.
  unfold has_type, includeTypes, names_type, names_no_type.
  destruct (wantBookmarks query), (wantHistory query),
    (wantReadingList query), (IndexedItem.type item); simpl; auto;
    discriminate.
Qed.

Lemma position_relevance_decreases maxResults i j :
  0 < maxResults -> i < j ->
  (position_relevance maxResults j < position_relevance maxResults i)%Q.
Proof.
  intros Hmax Hij. unfold position_relevance.
  assert (Hlt : maxResults - j < maxResults - i) by lia.
  revert Hlt. generalize (maxResults - j), (maxResults - i). intros a b Hlt.
  destruct maxResults as [| p | p]; try lia.
  unfold Qlt, Qdiv, Qmult, Qinv, inject_Z. simpl. nia.
Qed.

Lemma list_all_results_length maxResults index l :
  length (list_all_results maxResults index l) = length l.
Proof.
  rewrite <- (list_all_results_items maxResults index l) at 2.
  rewrite length_map. reflexivity.
Qed.

Lemma list_all_results_nth maxResults index l n r :
  nth_error (list_all_results maxResults index l) n = Some r ->
  SearchResult.score r = 10%Q
  /\ SearchResult.relevance r
     = position_relevance maxResults (index + Z.of_nat n).
Proof.
  revert index n; induction l as [| item l IH]; intros index [| n]; simpl;
    try discriminate.
  - intros H. inversion H; subst. simpl. rewrite Z.add_0_r. auto.
  - intros H. apply IH in H.
    replace (index + Z.pos (Pos.of_succ_nat n))
      with (index + 1 + Z.of_nat n) by lia.
    exact H.
Qed.

Lemma list_all_results_relevance maxResults index l :
  0 < maxResults ->
  StronglySorted
    (fun a b => (SearchResult.relevance b < SearchResult.relevance a)%Q)
    (list_all_results maxResults index l)
  /\ Forall (fun r => exists j, index <= j
                      /\ SearchResult.relevance r
                         = position_relevance maxResults j)
            (list_all_results maxResults index l).
Proof.
  intros Hmax. revert index; induction l as [| item l IH]; intros index;
    simpl.
  - split; constructor.
  - destruct (IH (index + 1)) as [Hsorted Hall]. split.
    + constructor; [exact Hsorted |].
      eapply Forall_impl; [| exact Hall].
      intros r (j & Hj & ->). simpl.
      apply position_relevance_decreases; lia.
    + constructor.
      * exists index. split; [lia | reflexivity].
      * eapply Forall_impl; [| exact Hall].
        intros r (j & Hj & Hr). exists j. split; [lia | exact Hr].
Qed.

(** What [search] answers to a list-all query: nothing, or the listing of
    the document map. *)
Lemma search_list_all now query maxResults w :
  isListAllQuery query = true ->
  settles (search now query maxResults) w
    (fun results w' =>
       results = []
       \/ results = list_all query maxResults (items (indexer w')))
    no_throw.
Proof.
  intros Hlist. unfold search. step.
  eapply settles_weaken; [apply ensure_initialized_spec | | auto].
  intros [] w0 _. cbv beta.
  destruct (trim query); [step; left; reflexivity |].
  step. step.
  destruct (ItemMap.size (items (indexer w0)) =? 0);
    [step; left; reflexivity |].
  step. unfold search_try. rewrite Hlist. steps. right. reflexivity.
Qed.

(** C6, as the code has it. For a list-all query and a limit that is not
    negative, the results are items of the document map of the source types
    the query names (of any type when it names none), newest first with ties
    allowed, at most [maxResults] of them; each has the score 10 and, at
    position [i], the relevance [(maxResults - i) / maxResults], which
    decreases strictly along the list. *)
Theorem list_all_query_results now query maxResults w results w' :
  0 <= maxResults ->
  isListAllQuery query = true ->
  search now query maxResults w = (Fulfilled results, w') ->
  Forall (fun r =>
            In (SearchResult.item r) (ItemMap.values (items (indexer w')))
            /\ (names_type query (IndexedItem.type (SearchResult.item r))
                = true
                \/ names_no_type query = true))
         results
  /\ descending (timestamps_of results)
  /\ Z.of_nat (length results) <= maxResults
  /\ (forall i r,
        nth_error results i = Some r ->
        SearchResult.score r = 10%Q
        /\ SearchResult.relevance r
           = position_relevance maxResults (Z.of_nat i))
  /\ StronglySorted
       (fun a b => (SearchResult.relevance b < SearchResult.relevance a)%Q)
       results.
Proof.
  intros Hmax Hlist Hrun.
  pose proof (@search_list_all now query maxResults w Hlist) as Hs.
  unfold settles in Hs. rewrite Hrun in Hs.
  destruct Hs as [-> | ->].
  - split; [constructor |]. split; [constructor |].
    split; [simpl; lia |]. split; [| constructor].
    intros [| i] r H; discriminate.
  - split; [| split; [| split; [| split]]].
    + apply Forall_forall. intros r Hr.
      apply list_all_from_items in Hr. destruct Hr as [Hin Htype].
      split; [exact Hin | apply has_type_names; exact Htype].
    + unfold timestamps_of, list_all.
      rewrite <- (map_map SearchResult.item IndexedItem.timestamp).
      rewrite list_all_results_items.
      apply map_sorted, slice0_sorted, sorted_newest_first.
    + unfold list_all. rewrite list_all_results_length.
      apply slice0_length. exact Hmax.
    + intros i r Hnth. unfold list_all in Hnth.
      apply list_all_results_nth in Hnth. exact Hnth.
    + unfold list_all.
      destruct (Z.eq_dec maxResults 0) as [-> | Hnz].
      * simpl. constructor.
      * apply list_all_results_relevance. lia.
Qed.

End Listing.

(** ** What a search sees of a rebuild *)

Section Rebuild.

Context {case_mapping : CaseMapping} {flexsearch : FlexSearchIndex}.

Lemma quiet_refl w : quiet w w.
Proof. split; [reflexivity | split; auto]. Qed.

Lemma quiet_trans w1 w2 w3 : quiet w1 w2 -> quiet w2 w3 -> quiet w1 w3.
Proof.
  intros (I1 & S1 & T1) (I2 & S2 & T2). split; [congruence |]. split.
  - intros s Hs. apply S2 in Hs. destruct Hs as [-> | Hs]; auto.
  - auto.
Qed.

Lemma quiet_suspend w :
  quiet w (mkWorld (indexer w) (storage w) (indexer w :: suspended w)).
Proof.
  split; [reflexivity |]. simpl. split.
  - intros s [<- | H]; auto.
  - auto.
Qed.

Lemma call_storage_quiet {A} (f : Storage.t -> A * Storage.t) w :
  settles (call_storage f) w (fun _ w' => quiet w w') no_throw.
Proof.
  step. split; [reflexivity |]. simpl. split.
  - intros s [<- | H]; auto.
  - auto.
Qed.

Lemma persistIndex_quiet w :
  ends persistIndex w
    (fun _ w' => quiet_after_export w w')
    (fun _ _ => False)
    (fun w' => quiet_after_export w w').
Proof.
  unfold persistIndex. estep. estep.
  apply ends_call_index. intros r i _ w1.
  assert (H1 : suspended w1 = suspended w /\ same_items w w1)
    by (split; [reflexivity | split; reflexivity]).
  destruct r as [[serializedIndex |] | e].
  - estep. estep. estep.
    eapply ends_fulfilled; [apply call_storage_quiet |].
    cbv beta. intros _ w3 Hq. apply settles_ends. step.
    exists w1. split; [apply H1 |]. split; [apply H1 |].
    eapply quiet_trans; [apply quiet_suspend | exact Hq].
  - apply ends_never. exists w1.
    split; [apply H1 |]. split; [apply H1 | apply quiet_suspend].
  - apply settles_ends. step.
    exists w1. split; [apply H1 |]. split; [apply H1 | apply quiet_refl].
Qed.

Lemma rebuild_save_quiet w :
  ends rebuild_save w
    (fun _ w' => quiet_after_export w w')
    (fun _ _ => False)
    (fun w' => quiet_after_export w w').
Proof.
  unfold rebuild_save. estep. estep.
  eapply ends_weaken; [apply persistIndex_quiet | | auto | auto].
  cbv beta. intros _ w1 (wx & Hsus & Hsame & Hq).
  estep. estep. estep.
  eapply ends_fulfilled; [apply call_storage_quiet |].
  cbv beta. intros _ w3 Hq3. apply settles_ends. step.
  exists wx. split; [exact Hsus |]. split; [exact Hsame |].
  eapply quiet_trans; [exact Hq |].
  eapply quiet_trans; [apply quiet_suspend | exact Hq3].
Qed.

Lemma rebuild_read_spec w :
  settles rebuild_read w
    (fun data w' =>
       data = stored_data (storage w)
       /\ indexer w' = indexer w
       /\ suspended w'
          = indexer w :: indexer w :: indexer w :: suspended w)
    no_throw.
Proof.
  unfold rebuild_read, stored_data. steps. repeat split.
Qed.

(** A search on a cleared, initialized indexer finds nothing. *)
Lemma search_cleared now query maxResults w :
  isInitialized (indexer w) = true ->
  items (indexer w) = [] ->
  search now query maxResults w = (Fulfilled [], w).
Proof.
  intros Hinit Hitems.
  unfold search, ensure_initialized, bind, gets, ret. rewrite Hinit. simpl.
  destruct (trim query); [reflexivity |].
  rewrite Hitems. reflexivity.
Qed.

Lemma rebuildIndex_rebuilt now w :
  ends (rebuildIndex now) (unobserved w)
    (fun _ w1 => rebuilt now w w1)
    (fun _ _ => False)
    (fun w1 => rebuilt now w w1).
Proof.
  unfold rebuilt.
  unfold rebuildIndex. estep. estep.
  unfold rebuild_clear. estep. estep. estep. estep.
  cbn [unobserved indexer storage suspended index items isInitialized].
  fold (cleared w).
  eapply ends_fulfilled; [apply rebuild_read_spec |].
  cbv beta. intros data w2 (-> & Hix2 & Hsus2).
  cbn [indexer storage suspended] in Hix2, Hsus2.
  estep.
  eapply ends_fulfilled; [apply for_of_addToIndex_spec |].
  cbv beta. intros _ w3 (Hitems3 & Hflag3 & _ & Hsus3).
  rewrite Hix2 in Hitems3. cbn [cleared items] in Hitems3.
  rewrite Hsus2 in Hsus3.
  eapply ends_weaken; [apply rebuild_save_quiet | | auto |]; cbv beta.
  - intros _ w4 (wx & Hsusx & [Hitemsx _] & (Hix4 & Hsus4 & Hkept4)).
    split; [| split].
    + intros s Hs. apply Hsus4 in Hs. destruct Hs as [-> | Hs].
      * right. symmetry. exact Hix4.
      * left. rewrite Hsusx, Hsus3 in Hs. simpl in Hs.
        destruct Hs as [<- | [<- | [<- | []]]]; reflexivity.
    + apply Hkept4. rewrite Hsusx, Hsus3. left. reflexivity.
    + rewrite Hix4, Hitemsx. exact Hitems3.
  - intros w4 (wx & Hsusx & [Hitemsx _] & (Hix4 & Hsus4 & Hkept4)).
    split; [| split].
    + intros s Hs. apply Hsus4 in Hs. destruct Hs as [-> | Hs].
      * right. symmetry. exact Hix4.
      * left. rewrite Hsusx, Hsus3 in Hs. simpl in Hs.
        destruct Hs as [<- | [<- | [<- | []]]]; reflexivity.
    + apply Hkept4. rewrite Hsusx, Hsus3. left. reflexivity.
    + rewrite Hix4, Hitemsx. exact Hitems3.
Qed.

Lemma rebuildIndex_leaves_rebuilt now w :
  rebuilt now w (snd (rebuildIndex now (unobserved w))).
Proof.
  pose proof (rebuildIndex_rebuilt now w) as H. unfold ends in H.
  destruct (rebuildIndex now (unobserved w)) as [[[] | e |] w1];
    simpl; try contradiction; exact H.
Qed.


End Rebuild.

(** ** Keyword searches *)

Section Keyword.

Context {case_mapping : CaseMapping} {flexsearch : FlexSearchIndex}.

Lemma starts_with_refl (s : jsstring) : starts_with s s = true.
Proof.
  induction s as [| c s IH]; simpl; [reflexivity |].
  rewrite Z.eqb_refl. exact IH.
Qed.

Lemma includes_refl (s : jsstring) : includes s s = true.
Proof.
  destruct s; simpl; [reflexivity |].
  rewrite Z.eqb_refl, starts_with_refl. reflexivity.
Qed.

(** [Array.from(new Set(l))] has no duplicates and the elements of [l]. *)
Lemma existsb_str_eqb x seen :
  existsb (str_eqb x) seen = true <-> In x seen.
Proof.
  rewrite existsb_exists. split.
  - intros (y & Hy & E). apply str_eqb_eq in E. subst. exact Hy.
  - intros H. exists x. split; [exact H | apply str_eqb_refl].
Qed.

Lemma dedup_aux_spec seen l :
  NoDup (dedup_aux seen l)
  /\ (forall x, In x (dedup_aux seen l) <-> In x l /\ ~ In x seen)
  /\ (length (dedup_aux seen l) <= length l)%nat.
Proof.
  revert seen; induction l as [| y l IH]; intros seen; simpl.
  - split; [constructor |]. split; [tauto | lia].
  - destruct (existsb (str_eqb y) seen) eqn:E.
    + apply existsb_str_eqb in E.
      destruct (IH seen) as (Hnd & Hin & Hlen).
      split; [exact Hnd |]. split; [| lia].
      intros x. rewrite Hin. split; [tauto |].
      intros [[<- | H] Hn]; [contradiction | tauto].
    + assert (Hy : ~ In y seen).
      { intros H. apply existsb_str_eqb in H. congruence. }
      destruct (IH (y :: seen)) as (Hnd & Hin & Hlen).
      split; [| split; [| simpl; lia]].
      * constructor; [| exact Hnd].
        rewrite Hin. simpl. tauto.
      * intros x. simpl. rewrite Hin. simpl.
        destruct (list_eq_dec Z.eq_dec y x) as [-> | Hne]; tauto.
Qed.

Lemma dedup_spec l :
  NoDup (dedup l)
  /\ (forall x, In x (dedup l) <-> In x l)
  /\ (length (dedup l) <= length l)%nat.
Proof.
  unfold dedup. destruct (dedup_aux_spec [] l) as (Hnd & Hin & Hlen).
  split; [exact Hnd |]. split; [| exact Hlen].
  intros x. rewrite Hin. simpl. tauto.
Qed.

(** With an index that honours its limit, the term searches give at most
    [2 * maxResults] ids per term. *)
Lemma search_all_length terms maxResults w :
  honours_limit -> 0 <= maxResults ->
  settles (search_all terms maxResults) w
    (fun found _ =>
       Z.of_nat (length found)
       <= Z.of_nat (length terms) * (2 * maxResults))
    (fun _ _ => True).
Proof.
  intros Hhon Hmax. revert w; induction terms as [| term rest IH];
    intros w.
  - simpl. step. simpl. lia.
  - cbn [search_all]. step. apply settles_call_index. intros i; split.
    + intros ids Hsearch. step.
      eapply settles_weaken; [apply IH | | auto].
      cbv beta. intros more w2 Hmore. step.
      rewrite length_app.
      assert (Z.of_nat (length ids) <= maxResults * 2)
        by (eapply Hhon; [lia | exact Hsearch]).
      cbn [length]. lia.
    + auto.
Qed.


(** The relevance of a scored match is positive and at most 1. *)
Lemma position_relevance_bounds maxResults i :
  0 <= i < maxResults ->
  (0 < position_relevance maxResults i
   /\ position_relevance maxResults i <= 1)%Q.
Proof.
  intros Hi. unfold position_relevance.
  assert (H1 : 0 < maxResults - i) by lia.
  assert (H2 : maxResults - i <= maxResults) by lia.
  revert H1 H2. generalize (maxResults - i). intros a H1 H2.
  destruct maxResults as [| p | p]; try lia.
  unfold Qlt, Qle, Qdiv, Qmult, Qinv, inject_Z. simpl. split; nia.
Qed.

Lemma score_bounds now clean item :
  let r := SearchResult.mk item (calculateRelevanceScore now clean item) 0 in
  (exact_title clean r = true ->
   (15 <= calculateRelevanceScore now clean item)%Q)
  /\ (exact_title clean r = false ->
      (calculateRelevanceScore now clean item <= 17 # 2)%Q).
Proof.
  unfold exact_title, calculateRelevanceScore. cbn [SearchResult.item].
  split; intros Hexact; rewrite Hexact.
  - apply str_eqb_eq in Hexact. rewrite Hexact, includes_refl.
    destruct (includes _ _), (Qlt_bool _ _), (ItemType.eqb _ _);
      unfold Qle; simpl; lia.
  - destruct (includes _ _), (includes _ _), (Qlt_bool _ _),
      (ItemType.eqb _ _); unfold Qle; simpl; lia.
Qed.

(** Each scored result is an item of the map, with its score and the
    relevance of its position among the raw matches. *)
Lemma score_results_spec now clean maxResults m i ids :
  Forall (fun r =>
            SearchResult.score r
            = calculateRelevanceScore now clean (SearchResult.item r)
            /\ exists j,
                 i <= j < i + Z.of_nat (length ids)
                 /\ SearchResult.relevance r
                    = position_relevance maxResults j)
         (score_results now clean maxResults m i ids).
Proof.
  revert i; induction ids as [| itemId rest IH]; intros i; simpl;
    [constructor |].
  assert (Hrest : Forall (fun r =>
            SearchResult.score r
            = calculateRelevanceScore now clean (SearchResult.item r)
            /\ exists j,
                 i <= j < i + Z.pos (Pos.of_succ_nat (length rest))
                 /\ SearchResult.relevance r
                    = position_relevance maxResults j)
         (score_results now clean maxResults m (i + 1) rest)).
  { eapply Forall_impl; [| apply IH].
    intros r [Hs (j & Hj & Hr)]. split; [exact Hs |].
    exists j. split; [lia | exact Hr]. }
  destruct (ItemMap.get itemId m) as [item |]; [| exact Hrest].
  constructor; [| exact Hrest].
  simpl. split; [reflexivity |]. exists i. split; [lia | reflexivity].
Qed.

(** An exact title match outranks every result that is not one. *)
Lemma exact_title_outranks now clean maxResults (a b : SearchResult.t) :
  (exists j, 0 <= j < maxResults
             /\ SearchResult.relevance a = position_relevance maxResults j) ->
  (exists j, 0 <= j < maxResults
             /\ SearchResult.relevance b = position_relevance maxResults j) ->
  SearchResult.score a
  = calculateRelevanceScore now clean (SearchResult.item a) ->
  SearchResult.score b
  = calculateRelevanceScore now clean (SearchResult.item b) ->
  exact_title clean a = true ->
  exact_title clean b = false ->
  (rank_key b < rank_key a)%Q.
Proof.
  intros (ja & Hja & Hra) (jb & Hjb & Hrb) Hsa Hsb Ha Hb.
  unfold rank_key. rewrite Hra, Hrb, Hsa, Hsb.
  destruct (position_relevance_bounds Hja) as [Ha1 _].
  destruct (position_relevance_bounds Hjb) as [_ Hb2].
  pose proof (proj1 (score_bounds now clean (SearchResult.item a))) as Hsa'.
  pose proof (proj2 (score_bounds now clean (SearchResult.item b))) as Hsb'.
  cbv zeta in Hsa', Hsb'. unfold exact_title in *.
  cbn [SearchResult.item] in Hsa', Hsb'.
  specialize (Hsa' Ha). specialize (Hsb' Hb).
  lra.
Qed.

(** In a list sorted by a key, largest first, the elements of a class whose
    keys are all above those of the others come first. *)
Lemma sorted_partition {A} (key : A -> Q) (p : A -> bool) (l : list A) :
  StronglySorted (fun a b => (key b <= key a)%Q) l ->
  (forall a b, In a l -> In b l -> p a = true -> p b = false ->
               (key b < key a)%Q) ->
  exists hits others,
    l = hits ++ others
    /\ Forall (fun a => p a = true) hits
    /\ Forall (fun a => p a = false) others.
Proof.
  induction 1 as [| x l Hl IH Hx]; intros Hsep.
  - exists [], []. repeat split; constructor.
  - destruct IH as (hits & others & -> & Hhits & Hothers).
    { intros a b Ha Hb. apply Hsep; right; assumption. }
    destruct (p x) eqn:Hpx.
    + exists (x :: hits), others. repeat split; [| exact Hothers].
      constructor; assumption.
    + destruct hits as [| h hits].
      * exists [], (x :: others). repeat split; [constructor |].
        constructor; assumption.
      * exfalso. inversion Hhits as [| ? ? Hph _]; subst.
        inversion Hx as [| ? ? Hhx _]; subst.
        assert (Hlt : (key x < key h)%Q).
        { apply Hsep; [right; left; reflexivity | left; reflexivity
                      | exact Hph | exact Hpx]. }
        lra.
Qed.

Lemma best_first_sorted (l : list SearchResult.t) :
  StronglySorted (fun a b => (rank_key b <= rank_key a)%Q)
                 (sort best_first l).
Proof.
  apply sort_sorted; unfold best_first, Qlt_bool.
  - intros a b H. apply negb_true_iff in H.
    destruct (Qle_bool (rank_key b - rank_key a) 0) eqn:E; [discriminate |].
    assert (Hn : ~ (rank_key b - rank_key a <= 0)%Q).
    { intros Hle. apply Qle_bool_iff in Hle. congruence. }
    lra.
  - intros a b H. apply negb_false_iff, Qle_bool_iff in H. lra.
  - intros a b c. lra.
Qed.

(** What [search] answers to a keyword query: nothing, or the scored raw
    matches, best first. *)
Lemma search_keyword now query maxResults w :
  isListAllQuery query = false ->
  settles (search now query maxResults) w
    (fun results w' =>
       results = []
       \/ exists w1 raw,
            raw_matches query maxResults w1 = (Fulfilled raw, w')
            /\ results
               = sort best_first
                   (score_results now (cleanQuery query) maxResults
                      (items (indexer w')) 0 (scored_ids maxResults raw)))
    no_throw.
Proof.
  intros Hkw. unfold search. step.
  eapply settles_weaken; [apply ensure_initialized_spec | | auto].
  intros [] w0 _. cbv beta.
  destruct (trim query); [step; left; reflexivity |].
  step. step.
  destruct (ItemMap.size (items (indexer w0)) =? 0);
    [step; left; reflexivity |].
  step. unfold search_try. rewrite Hkw. unfold keyword_search.
  step. unfold settles.
  destruct (raw_matches query maxResults w0) as [[raw | e |] w1] eqn:Hraw.
  - steps. right. exists w0, raw. split; [exact Hraw | reflexivity].
  - steps. left. reflexivity.
  - unfold raw_matches, bind in Hraw.
    pose proof (search_all_same_items (searchTerms (cleanQuery query))
                                      maxResults w0) as Hs.
    unfold settles in Hs.
    destruct (search_all (searchTerms (cleanQuery query)) maxResults w0)
      as [[found | e |] w2]; try discriminate; contradiction.
Qed.


End Keyword.

(** ** Intent *)

Section Intent.

Context {case_mapping : CaseMapping} {flexsearch : FlexSearchIndex}.

Lemma test_iff icase r1 r2 s :
  (matches_within icase r1 s <-> matches_within icase r2 s) ->
  test icase r1 s = test icase r2 s.
Proof.
  intros H. rewrite <- !test_spec in H.
  destruct (test icase r1 s), (test icase r2 s); try reflexivity.
  - symmetry. apply H. reflexivity.
  - apply H. reflexivity.
Qed.

(** An optional end of a pattern does not change where the pattern is
    found: [/ab?|c/] and [/a|c/] are found in the same strings. *)
Lemma test_optional_end icase a b c s :
  test icase (Alt (Seq a (Opt b)) c) s = test icase (Alt a c) s.
Proof.
  apply test_iff. unfold matches_within. split.
  - intros (before & found & after & -> & Hm).
    apply matches_alt_inv in Hm. destruct Hm as [Hm | Hm].
    + apply matches_seq_inv in Hm. destruct Hm as (s1 & s2 & -> & H1 & _).
      exists before, s1, (s2 ++ after). split.
      * rewrite <- app_assoc. reflexivity.
      * apply matches_alt_l. exact H1.
    + exists before, found, after. split; [reflexivity |].
      apply matches_alt_r. exact Hm.
  - intros (before & found & after & -> & Hm).
    exists before, found, after. split; [reflexivity |].
    apply matches_alt_inv in Hm. destruct Hm as [Hm | Hm].
    + apply matches_alt_l. rewrite <- (app_nil_r found).
      constructor; [exact Hm | constructor].
    + apply matches_alt_r. exact Hm.
Qed.

(** [/bookmarks?|书签/i] and [/bookmark|书签/i] are found in the same
    queries. *)
Lemma bookmarks_pattern_names_bookmarks query :
  test true bookmarks_pattern query = wantBookmarks query.
Proof. apply test_optional_end. Qed.

(** C3, as the code has it. A query is handled as a list-all query exactly
    when it holds, whatever the case of its letters, a listing phrase or the
    name of a source type (bookmark, history, reading list, in either
    language). On an initialized indexer whose document map is not empty, a
    query that is not blank is answered by the listing when it is a list-all
    query, and by the keyword search in every other case. *)
Theorem list_all_intent query :
  (isListAllQuery query = true
   <-> listing_phrase query = true
       \/ exists type, names_type query type = true)
  /\ forall now maxResults w,
       isInitialized (indexer w) = true ->
       items (indexer w) <> [] ->
       trim query <> [] ->
       (isListAllQuery query = true ->
        search now query maxResults w
        = (Fulfilled (list_all query maxResults (items (indexer w))), w))
       /\ (isListAllQuery query = false ->
           search now query maxResults w
           = try_catch (keyword_search now query maxResults)
                       (fun _ => ret []) w).
Proof.
  split.
  - unfold isListAllQuery, listAllPatterns, listing_phrase. simpl.
    rewrite bookmarks_pattern_names_bookmarks, orb_false_r.
    fold (wantHistory query). fold (wantReadingList query).
    rewrite !orb_true_iff. split.
    + intros [H | [H | [H | H]]]; [left; exact H | right ..].
      * exists ItemType.bookmark. exact H.
      * exists ItemType.history. exact H.
      * exists ItemType.reading_list. exact H.
    + intros [H | [[] H]]; simpl in H; auto.
  - intros now maxResults w Hinit Hitems Hquery.
    assert (Hsearch :
      search now query maxResults w
      = try_catch (search_try now query maxResults) (fun _ => ret []) w).
    { unfold search, ensure_initialized, bind, gets, ret.
      rewrite Hinit. simpl.
      destruct (trim query); [congruence |].
      unfold ItemMap.size.
      destruct (items (indexer w)); [congruence | reflexivity]. }
    rewrite Hsearch. unfold search_try.
    split; intros H; rewrite H; reflexivity.
Qed.

End Intent.

(* ===================================================================== *)
(** * The properties on concrete worlds *)
(* ===================================================================== *)

Section OnExamples.

Import Examples.

#[local] Existing Instance ascii_case.
#[local] Existing Instance RefIndex.flexsearch.

(** C8, as stated, fails: a record whose url and title are both present, the
    title being the empty string, gives no document. *)
Lemma untitled_visit_is_dropped :
  present (HistoryItem.url untitled_visit)
  /\ present (HistoryItem.title untitled_visit)
  /\ convertHistoryToIndexedItems 0 [untitled_visit] = [].
Proof.
  repeat split; try (simpl; discriminate).
Qed.


Lemma getStats_before_and_after_initialization_witness :
  fst (getStats fresh) = Fulfilled (mkStats 0 0)
  /\ exists stats w',
       getStats two_items = (Fulfilled stats, w') /\ totalItems stats = 2.
Proof.
  split.
  - rewrite (proj1 (getStats_before_and_after_initialization fresh)
                   eq_refl).
    reflexivity.
  - destruct (proj2 (getStats_before_and_after_initialization two_items)
                    eq_refl) as (stats & w' & E & T & _).
    exists stats, w'. split; [exact E | exact T].
Defined.

(** C6, as stated, fails: two bookmarks with the same timestamp are both
    listed, so the timestamps of the results do not descend strictly. *)
Lemma twins_are_listed_with_equal_timestamps :
  isListAllQuery list_bookmarks = true
  /\ exists results w',
       search 1700000000000 list_bookmarks 20 twins = (Fulfilled results, w')
       /\ timestamps_of results = [1700000000000; 1700000000000]
       /\ ~ strictly_descending (timestamps_of results).
Proof.
  split; [vm_compute; reflexivity |].
  exists (list_all list_bookmarks 20 (items (indexer twins))), twins.
  split; [vm_compute; reflexivity |].
  assert (H : timestamps_of
                (list_all list_bookmarks 20 (items (indexer twins)))
              = [1700000000000; 1700000000000])
    by (vm_compute; reflexivity).
  split; [exact H |].
  rewrite H. unfold strictly_descending. intros Hs.
  inversion Hs as [| ? ? _ Hall]; subst.
  inversion Hall as [| ? ? Hlt _]; subst.
  lia.
Qed.

Lemma list_all_query_results_witness :
  0 <= 20
  /\ isListAllQuery list_bookmarks = true
  /\ exists results w',
       search 1700000000000 list_bookmarks 20 twins = (Fulfilled results, w')
       /\ descending (timestamps_of results)
       /\ Z.of_nat (length results) <= 20.
Proof.
  assert (Hmax : 0 <= 20) by lia.
  assert (Hlist : isListAllQuery list_bookmarks = true)
    by (vm_compute; reflexivity).
  assert (Hrun : search 1700000000000 list_bookmarks 20 twins
                 = (Fulfilled
                      (list_all list_bookmarks 20 (items (indexer twins))),
                    twins))
    by (vm_compute; reflexivity).
  split; [exact Hmax |]. split; [exact Hlist |].
  exists (list_all list_bookmarks 20 (items (indexer twins))), twins.
  split; [exact Hrun |].
  destruct (@list_all_query_results _ _ _ _ _ _ _ _ Hmax Hlist Hrun)
    as (_ & Hd & Hl & _).
  split; [exact Hd | exact Hl].
Defined.

Lemma removed_item_is_never_found_witness :
  reachable added_twice
  /\ removeItem (lit "bookmark_1") added_twice = (Fulfilled tt, removed_once)
  /\ Forall
       (Forall (fun r =>
                  IndexedItem.id (SearchResult.item r) <> lit "bookmark_1"))
       (run_searches [(1700000000000, lit "react", 20);
                      (1700000000000, list_bookmarks, 20)]
                     removed_once).
Proof.
  assert (Hreach : reachable added_twice).
  { apply (reachable_call (AddItem react_bookmark)).
    apply (reachable_call (AddItem react_bookmark)).
    apply reachable_new. }
  assert (Hrun : removeItem (lit "bookmark_1") added_twice
                 = (Fulfilled tt, removed_once))
    by (vm_compute; reflexivity).
  split; [exact Hreach |]. split; [exact Hrun |].
  exact (@removed_item_is_never_found _ _ _ _ _ _ Hreach Hrun).
Defined.





(** The reference index honours its limit. *)
Lemma RefIndex_honours_limit : @honours_limit RefIndex.flexsearch.
Proof.
  intros i term limit ids i' Hlimit Hsearch.
  simpl in Hsearch. unfold RefIndex.search in Hsearch.
  inversion Hsearch; subst. rewrite length_firstn. lia.
Qed.


(** C3, as stated, fails: the lower-cased query ["github history"] holds
    no listing phrase, and it is handled as a list-all query all the same,
    because it names a source type: the search lists the history (here a
    visit of a page about Rome, with the score 10 of a listing). *)
Lemma source_type_alone_is_listed :
  toLowerCase github_history = github_history
  /\ stated_enumeration_intent github_history = false
  /\ isListAllQuery github_history = true
  /\ results_of (search 1700000000000 github_history 20 three_items)
     = [SearchResult.mk rome_visit 10 (position_relevance 20 0)].
Proof.
  repeat split; vm_compute; reflexivity.
Qed.

Lemma search_never_throws_witness :
  trim (lit "   ") = []
  /\ exists w',
       search 1700000000000 (lit "   ") 20 three_items = (Fulfilled [], w').
Proof.
  assert (Hblank : trim (lit "   ") = []) by reflexivity.
  split; [exact Hblank |].
  destruct (search_never_throws 1700000000000 (lit "   ") 20 three_items)
    as (results & w' & Hrun & Hempty & _).
  exists w'. rewrite <- (Hempty Hblank). exact Hrun.
Defined.


Lemma list_all_intent_witness :
  isInitialized (indexer three_items) = true
  /\ items (indexer three_items) <> []
  /\ trim github_history <> []
  /\ isListAllQuery github_history = true
  /\ search 1700000000000 github_history 20 three_items
     = (Fulfilled (list_all github_history 20 (items (indexer three_items))),
        three_items).
Proof.
  assert (Hinit : isInitialized (indexer three_items) = true)
    by (vm_compute; reflexivity).
  assert (Hitems : items (indexer three_items) <> [])
    by (vm_compute; discriminate).
  assert (Hquery : trim github_history <> [])
    by (vm_compute; discriminate).
  assert (Hlist : isListAllQuery github_history = true)
    by (vm_compute; reflexivity).
  split; [exact Hinit |]. split; [exact Hitems |]. split; [exact Hquery |].
  split; [exact Hlist |].
  exact (proj1 (proj2 (list_all_intent github_history)
                  1700000000000 20 three_items Hinit Hitems Hquery)
               Hlist).
Defined.

Lemma convertHistory_per_record_witness :
  non_empty (HistoryItem.url rome_record)
  /\ non_empty (HistoryItem.title rome_record)
  /\ exists doc,
       convertHistoryToIndexedItems 1700000000000 [rome_record] = [doc]
       /\ IndexedItem.id doc = lit "history_2".
Proof.
  assert (Hurl : non_empty (HistoryItem.url rome_record))
    by (eexists; eexists; reflexivity).
  assert (Htitle : non_empty (HistoryItem.title rome_record))
    by (eexists; eexists; reflexivity).
  split; [exact Hurl |]. split; [exact Htitle |].
  destruct (proj1 (proj2 (convertHistory_per_record 1700000000000 [])
                         rome_record)
                  (conj Hurl Htitle))
    as (doc & Hdoc & Hid & _).
  exists doc. split; [exact Hdoc | exact Hid].
Defined.

End OnExamples.

(* ===================================================================== *)
(** * More properties of the indexer and of the background service *)
(* ===================================================================== *)

(** ** Snippets *)

Lemma trimStart_length (s : jsstring) :
  (length (trimStart s) <= length s)%nat.
Proof.
  induction s as [| c s IH]; simpl; [lia |].
  destruct (isWhiteSpace c); simpl; lia.
Qed.

Lemma trim_length (s : jsstring) : (length (trim s) <= length s)%nat.
Proof.
  unfold trim, trimEnd. rewrite length_rev.
  etransitivity; [apply trimStart_length |].
  rewrite length_rev. apply trimStart_length.
Qed.

(** X1. A snippet is the content itself when the content has at most 200
    code units; otherwise it is the trimmed first 200 code units followed by
    three dots. In both cases it has at most 203 code units. *)
Theorem generateSnippet_is_short (content : jsstring) :
  (length (generateSnippet content) <= 203)%nat
  /\ ((length content <= 200)%nat -> generateSnippet content = content)
  /\ ((200 < length content)%nat ->
      generateSnippet content
      = trim (firstn 200 content) ++ lit "...").
Proof.
  unfold generateSnippet, substring0.
  destruct (Z.of_nat (length content) <=? 200) eqn:E.
  - apply Z.leb_le in E. split; [lia |]. split; [reflexivity | lia].
  - apply Z.leb_gt in E. split; [| split; [lia | reflexivity]].
    rewrite length_app.
    pose proof (trim_length (firstn (Z.to_nat 200) content)) as Ht.
    rewrite length_firstn in Ht.
    change (length (lit "...")) with 3%nat. lia.
Qed.

(** ** The normalizers *)

Lemma BookmarkItem_tree_ind (P : BookmarkItem.t -> Prop) :
  (forall id title url dateAdded,
     P (BookmarkItem.mk id title url dateAdded None)) ->
  (forall id title url dateAdded cs,
     Forall P cs -> P (BookmarkItem.mk id title url dateAdded (Some cs))) ->
  forall b, P b.
Proof.
  intros Hleaf Hnode. fix IH 1. intros [id title url dateAdded [cs |]].
  - apply Hnode. induction cs as [| c cs IHcs]; constructor.
    + apply IH.
    + exact IHcs.
  - apply Hleaf.
Qed.

Lemma starts_with_app (p s : jsstring) : starts_with p (p ++ s) = true.
Proof.
  induction p as [| c p IH]; simpl; [reflexivity |].
  rewrite Z.eqb_refl. exact IH.
Qed.

Lemma starts_with_head c p x :
  starts_with (c :: p) x = true -> hd_error x = Some c.
Proof.
  destruct x as [| y x]; simpl; [discriminate |].
  intros H. apply andb_prop in H. destruct H as [H _].
  apply Z.eqb_eq in H. subst. reflexivity.
Qed.

Lemma id_prefix_inj t1 t2 x :
  starts_with (id_prefix t1) x = true ->
  starts_with (id_prefix t2) x = true ->
  t1 = t2.
Proof.
  intros H1 H2.
  destruct t1, t2; try reflexivity;
    apply starts_with_head in H1; apply starts_with_head in H2;
    rewrite H1 in H2; discriminate.
Qed.

Lemma processBookmark_namespaced now :
  forall b d,
    In d (processBookmark now b) ->
    IndexedItem.type d = ItemType.bookmark
    /\ starts_with (lit "bookmark_") (IndexedItem.id d) = true
    /\ IndexedItem.snippet d = Some (generateSnippet (IndexedItem.content d))
    /\ IndexedItem.url d <> [].
Proof.
  assert (Hdoc : forall id title url dateAdded d,
    In d (if truthy_str url
          then
            [IndexedItem.mk (lit "bookmark_" ++ id)
               (or_str (Some title) (lit "Untitled")) (or_str url [])
               (trim (title ++ space ++ or_str url []))
               ItemType.bookmark (or_num dateAdded now)
               (Some (generateSnippet
                        (trim (title ++ space ++ or_str url []))))]
          else []) ->
    IndexedItem.type d = ItemType.bookmark
    /\ starts_with (lit "bookmark_") (IndexedItem.id d) = true
    /\ IndexedItem.snippet d = Some (generateSnippet (IndexedItem.content d))
    /\ IndexedItem.url d <> []).
  { intros id title url dateAdded d Hin.
    destruct url as [[| c u] |]; simpl in Hin; try contradiction.
    destruct Hin as [<- | []]. cbn [IndexedItem.type IndexedItem.id
      IndexedItem.snippet IndexedItem.content IndexedItem.url].
    split; [reflexivity |].
    split; [exact (starts_with_app (lit "bookmark_") id) |].
    split; [reflexivity | discriminate]. }
  intros b. induction b as [id title url dateAdded
                           | id title url dateAdded cs IH]
    using BookmarkItem_tree_ind; intros d Hin; cbn [processBookmark
      BookmarkItem.url BookmarkItem.title BookmarkItem.id
      BookmarkItem.dateAdded BookmarkItem.children] in Hin;
    apply in_app_or in Hin; destruct Hin as [Hin | Hin].
  - eapply Hdoc; exact Hin.
  - destruct Hin.
  - eapply Hdoc; exact Hin.
  - apply in_flat_map in Hin. destruct Hin as (c & Hc & Hd).
    exact (proj1 (Forall_forall _ _) IH c Hc d Hd).
Qed.

(** X2. Every document the normalizers make for a rebuild has an id that
    begins with the prefix of its source type and a snippet made from its
    content, so two documents of different source types never have the same
    id. *)
Theorem rebuild_items_are_namespaced now data d :
  In d (rebuild_items now data) ->
  starts_with (id_prefix (IndexedItem.type d)) (IndexedItem.id d) = true
  /\ IndexedItem.snippet d = Some (generateSnippet (IndexedItem.content d))
  /\ forall d',
       In d' (rebuild_items now data) ->
       IndexedItem.id d' = IndexedItem.id d ->
       IndexedItem.type d' = IndexedItem.type d.
Proof.
  assert (Hone : forall d,
    In d (rebuild_items now data) ->
    starts_with (id_prefix (IndexedItem.type d)) (IndexedItem.id d) = true
    /\ IndexedItem.snippet d
       = Some (generateSnippet (IndexedItem.content d))).
  { clear d. intros d Hin. destruct data as [[bookmarks history] readingList].
    unfold rebuild_items in Hin.
    apply in_app_or in Hin. destruct Hin as [Hin | Hin].
    - unfold convertBookmarksToIndexedItems in Hin.
      apply in_flat_map in Hin. destruct Hin as (b & _ & Hd).
      apply processBookmark_namespaced in Hd.
      destruct Hd as (Ht & Hp & Hs & _). rewrite Ht. auto.
    - apply in_app_or in Hin. destruct Hin as [Hin | Hin].
      + unfold convertHistoryToIndexedItems in Hin.
        apply in_map_iff in Hin. destruct Hin as (r & <- & _).
        cbn [IndexedItem.type IndexedItem.id IndexedItem.snippet
             IndexedItem.content id_prefix].
        split; [apply starts_with_app | reflexivity].
      + unfold convertReadingListToIndexedItems in Hin.
        apply in_map_iff in Hin. destruct Hin as (r & <- & _).
        cbn [IndexedItem.type IndexedItem.id IndexedItem.snippet
             IndexedItem.content id_prefix].
        split; [apply starts_with_app | reflexivity]. }
  intros Hin. destruct (Hone d Hin) as [Hp Hs].
  split; [exact Hp |]. split; [exact Hs |].
  intros d' Hin' Hid. destruct (Hone d' Hin') as [Hp' _].
  rewrite Hid in Hp'. eapply id_prefix_inj; eassumption.
Qed.

(** X3. The bookmarks the background service collects from the bookmark
    tree give the same documents as the tree itself: flattening the tree
    before it is stored loses no document and changes none, whatever the
    nesting of the folders. *)
Theorem flattened_bookmarks_give_the_same_documents now
  (bookmarkTree : list BookmarkItem.t) :
  convertBookmarksToIndexedItems now (flat_map processNode bookmarkTree)
  = convertBookmarksToIndexedItems now bookmarkTree.
Proof.
  unfold convertBookmarksToIndexedItems.
  assert (Hnode : forall b,
    flat_map (processBookmark now) (processNode b) = processBookmark now b).
  { intros b. induction b as [id title url dateAdded
                             | id title url dateAdded cs IH]
      using BookmarkItem_tree_ind;
      cbn [processNode processBookmark BookmarkItem.url BookmarkItem.title
           BookmarkItem.id BookmarkItem.dateAdded BookmarkItem.children];
      rewrite flat_map_app.
    - destruct (truthy_str url) eqn:E; simpl; [| reflexivity].
      rewrite E. simpl. reflexivity.
    - f_equal.
      + destruct (truthy_str url) eqn:E; simpl; [| reflexivity].
        rewrite E. simpl. reflexivity.
      + induction IH as [| c cs Hc _ IHcs]; simpl; [reflexivity |].
        rewrite flat_map_app, Hc, IHcs. reflexivity. }
  induction bookmarkTree as [| b t IH]; simpl; [reflexivity |].
  rewrite flat_map_app, Hnode, IH. reflexivity.
Qed.

(** ** Scores *)

Section Scores.

Context {case_mapping : CaseMapping}.

(** X4. A relevance score lies between 0 and 18.5, and it is 10 or more
    exactly when the title equals the query up to case; such a score is then
    at least 15, because a title that equals the query also contains it. *)
Theorem score_tells_exact_title now (query : jsstring)
  (item : IndexedItem.t) :
  let score := calculateRelevanceScore now query item in
  let exact := str_eqb (toLowerCase (IndexedItem.title item))
                       (toLowerCase query) in
  (0 <= score /\ score <= 37 # 2)%Q
  /\ ((10 <= score)%Q <-> exact = true)
  /\ (exact = true -> (15 <= score)%Q).
Proof.
  unfold calculateRelevanceScore.
  destruct (str_eqb (toLowerCase (IndexedItem.title item))
                    (toLowerCase query)) eqn:Hexact.
  - apply str_eqb_eq in Hexact. rewrite Hexact, includes_refl.
    destruct (includes _ _), (Qlt_bool _ _), (ItemType.eqb _ _);
      cbv zeta; unfold Qle; simpl; repeat split; intros; try lia;
      reflexivity.
  - destruct (includes _ _), (includes _ _), (Qlt_bool _ _),
      (ItemType.eqb _ _);
      cbv zeta; unfold Qle; simpl; repeat split; intros; try lia;
      discriminate.
Qed.

End Scores.

(** ** Intent, whatever the case and the surroundings *)

Lemma canonicalize_ascii_lower c :
  canonicalize (ascii_lower c) = canonicalize c.
Proof.
  unfold canonicalize, ascii_lower.
  destruct ((65 <=? c) && (c <=? 90)) eqn:E.
  - apply andb_prop in E. destruct E as [E1 E2].
    apply Z.leb_le in E1, E2.
    replace ((97 <=? c + 32) && (c + 32 <=? 122)) with true
      by (symmetry; apply andb_true_intro; split; apply Z.leb_le; lia).
    replace ((97 <=? c) && (c <=? 122)) with false
      by (symmetry; apply andb_false_intro1; apply Z.leb_gt; lia).
    lia.
  - reflexivity.
Qed.

Lemma isLineTerminator_ascii_lower c :
  isLineTerminator (ascii_lower c) = isLineTerminator c.
Proof.
  unfold ascii_lower.
  destruct ((65 <=? c) && (c <=? 90)) eqn:E; [| reflexivity].
  apply andb_prop in E. destruct E as [E1 E2]. apply Z.leb_le in E1, E2.
  unfold isLineTerminator.
  repeat match goal with
         | |- context [?a =? ?b] =>
             let H := fresh in
             destruct (a =? b) eqn:H;
             [apply Z.eqb_eq in H; lia | clear H]
         end.
  reflexivity.
Qed.

Lemma deriv_ascii_lower c r :
  deriv true (ascii_lower c) r = deriv true c r.
Proof.
  induction r; simpl; try reflexivity;
    try (rewrite ?IHr1, ?IHr2, ?IHr; reflexivity).
  - unfold chr_match. rewrite canonicalize_ascii_lower. reflexivity.
  - rewrite isLineTerminator_ascii_lower. reflexivity.
Qed.

Lemma prefix_match_ascii_lower r s :
  prefix_match true r (map ascii_lower s) = prefix_match true r s.
Proof.
  revert r; induction s as [| c s IH]; intros r; [reflexivity |].
  cbn [map prefix_match]. rewrite deriv_ascii_lower, IH. reflexivity.
Qed.

Lemma test_ascii_lower r s :
  test true r (map ascii_lower s) = test true r s.
Proof.
  induction s as [| c s IH]; [reflexivity |].
  change (map ascii_lower (c :: s))
    with (map ascii_lower [c] ++ map ascii_lower s).
  cbn [map app test].
  rewrite <- IH.
  change (ascii_lower c :: map ascii_lower s) with (map ascii_lower (c :: s)).
  rewrite prefix_match_ascii_lower. reflexivity.
Qed.

(** X5. The classification of a query and the source types it asks for do
    not depend on the case of its ASCII letters: the query with its capital
    letters A to Z made small is a list-all query exactly when the query is,
    and it lists the same types. *)
Theorem intent_ignores_ascii_case (query : jsstring) :
  isListAllQuery (map ascii_lower query) = isListAllQuery query
  /\ includeTypes (map ascii_lower query) = includeTypes query.
Proof.
  unfold isListAllQuery, includeTypes, wantBookmarks, wantHistory,
    wantReadingList, listAllPatterns. cbn [existsb].
  rewrite !test_ascii_lower. split; reflexivity.
Qed.

Lemma test_within icase r (before s after : jsstring) :
  test icase r s = true -> test icase r (before ++ s ++ after) = true.
Proof.
  rewrite !test_spec. intros (b & found & a & -> & Hm).
  exists (before ++ b), found, (a ++ after). split; [| exact Hm].
  rewrite <- !app_assoc. reflexivity.
Qed.

(** X6. A query that contains a list-all query is a list-all query: words
    put before or after a listing phrase or the name of a source type do not
    change the classification, and every source type the inner query names
    is still named. *)
Theorem list_all_survives_surroundings (before query after : jsstring) :
  isListAllQuery query = true ->
  isListAllQuery (before ++ query ++ after) = true
  /\ forall type,
       names_type query type = true ->
       names_type (before ++ query ++ after) type = true.
Proof.
  intros H. split.
  - unfold isListAllQuery in *. apply existsb_exists in H.
    destruct H as (pattern & Hin & Ht). apply existsb_exists.
    exists pattern. split; [exact Hin | apply test_within; exact Ht].
  - intros [] Hn; simpl in *; apply test_within; exact Hn.
Qed.

(** ** Search terms *)

Lemma split_ws_aux_pieces cur in_ws s :
  no_white_space cur ->
  Forall no_white_space (split_ws_aux cur in_ws s).
Proof.
  revert cur in_ws; induction s as [| c s IH]; intros cur in_ws Hcur; simpl.
  - constructor; [| constructor]. apply Forall_rev. exact Hcur.
  - destruct (isWhiteSpace c) eqn:E.
    + destruct in_ws.
      * apply IH. exact Hcur.
      * constructor; [apply Forall_rev; exact Hcur |].
        apply IH. constructor.
    + apply IH. constructor; assumption.
Qed.

Lemma runs_aux_pieces p cur s :
  all_of p cur ->
  Forall (fun t => t <> [] /\ all_of p t) (runs_aux p cur s).
Proof.
  revert cur; induction s as [| c s IH]; intros cur Hcur; simpl.
  - destruct cur as [| x cur]; [constructor |].
    constructor; [| constructor]. split.
    + intros H. apply (f_equal (@length Z)) in H.
      rewrite length_rev in H. discriminate.
    + apply Forall_rev. exact Hcur.
  - destruct (p c) eqn:E.
    + apply IH. constructor; assumption.
    + destruct cur as [| x cur]; [apply IH; constructor |].
      constructor; [| apply IH; constructor]. split.
      * intros H. apply (f_equal (@length Z)) in H.
        rewrite length_rev in H. discriminate.
      * apply Forall_rev. exact Hcur.
Qed.

(** X7. The terms searched for: for a cleaned query without CJK
    characters, every term is longer than two code units and holds no white
    space; for a cleaned query with a CJK character, every term is not empty
    and is made either of CJK characters only or of ASCII letters only. *)
Theorem searchTerms_shape (clean : jsstring) :
  (existsb isCJK clean = false ->
   Forall (fun term => (2 < length term)%nat /\ no_white_space term)
          (searchTerms clean))
  /\ (existsb isCJK clean = true ->
      Forall (fun term =>
                term <> []
                /\ (all_of isCJK term \/ all_of isAsciiLetter term))
             (searchTerms clean)).
Proof.
  unfold searchTerms. split; intros H; rewrite H.
  - apply Forall_forall. intros term Hin. apply filter_In in Hin.
    destruct Hin as [Hin Hlen]. apply Z.ltb_lt in Hlen. split; [lia |].
    clear Hlen. revert term Hin. apply Forall_forall.
    apply split_ws_aux_pieces. constructor.
  - apply Forall_forall. intros term Hin. apply filter_In in Hin.
    destruct Hin as [Hin _]. apply in_app_or in Hin.
    destruct Hin as [Hin | Hin].
    + pose proof (@runs_aux_pieces isCJK [] clean (Forall_nil _)) as Hr.
      apply (proj1 (Forall_forall _ _) Hr) in Hin.
      destruct Hin as [Hne Hall]. auto.
    + pose proof (@runs_aux_pieces isAsciiLetter [] clean (Forall_nil _))
        as Hr.
      apply (proj1 (Forall_forall _ _) Hr) in Hin.
      destruct Hin as [Hne Hall]. auto.
Qed.

(** ** The sources of a chat message *)

Lemma nth_error_firstn_Some {A} n (l : list A) i x :
  nth_error (firstn n l) i = Some x -> nth_error l i = Some x.
Proof.
  revert n i; induction l as [| y l IH]; intros [| n] [| i]; simpl;
    try discriminate; auto.
  apply IH.
Qed.

Lemma nth_error_slice0 {A} n (l : list A) i x :
  nth_error (slice0 n l) i = Some x -> nth_error l i = Some x.
Proof. rewrite slice0_firstn. apply nth_error_firstn_Some. Qed.


(** ** Chat sessions *)

Lemma findIndex_None sessionId l :
  ChatSessions.findIndex sessionId l = None
  <-> Forall (fun x => ChatSessions.id x <> sessionId) l.
Proof.
  induction l as [| x l IH]; simpl.
  - split; [constructor | reflexivity].
  - destruct (str_eqb (ChatSessions.id x) sessionId) eqn:E.
    + apply str_eqb_eq in E. split; [discriminate |].
      intros H. inversion H; subst. contradiction.
    + apply str_eqb_neq in E.
      destruct (ChatSessions.findIndex sessionId l) as [i |].
      * split; [discriminate |]. intros H. inversion H; subst.
        apply IH in H3. discriminate.
      * split; [| reflexivity]. intros _. constructor; [exact E |].
        apply IH. reflexivity.
Qed.

Lemma findIndex_first sessionId before old after :
  Forall (fun x => ChatSessions.id x <> sessionId) before ->
  ChatSessions.id old = sessionId ->
  ChatSessions.findIndex sessionId (before ++ old :: after)
  = Some (length before).
Proof.
  intros Hbefore Hold. induction Hbefore as [| x l Hx _ IH]; simpl.
  - apply str_eqb_eq in Hold. rewrite Hold. reflexivity.
  - apply str_eqb_neq in Hx. rewrite Hx, IH. reflexivity.
Qed.

Lemma assign_middle before old after v :
  ChatSessions.assign (length before) v (before ++ old :: after)
  = before ++ v :: after.
Proof.
  induction before as [| x l IH]; simpl; [reflexivity |].
  rewrite IH. reflexivity.
Qed.

(** X9. Updating a chat session replaces the first stored session that has
    the given id and keeps every other session in its place; when no stored
    session has the id, or the store does not answer, it writes nothing and
    answers [false]. *)
Theorem updateChatSession_replaces_first_or_nothing sessionId updated s :
  (forall before old after,
     ChatSessions.available s = true ->
     ChatSessions.getChatSessions s = before ++ old :: after ->
     Forall (fun x => ChatSessions.id x <> sessionId) before ->
     ChatSessions.id old = sessionId ->
     ChatSessions.updateChatSession sessionId updated s
     = (true, ChatSessions.mkStore (Some (before ++ updated :: after)) true))
  /\ (Forall (fun x => ChatSessions.id x <> sessionId)
             (ChatSessions.getChatSessions s) ->
      ChatSessions.updateChatSession sessionId updated s = (false, s))
  /\ (ChatSessions.available s = false ->
      ChatSessions.updateChatSession sessionId updated s = (false, s)).
Proof.
  unfold ChatSessions.updateChatSession. split; [| split].
  - intros before old after Hav Hget Hbefore Hold.
    rewrite Hget, (@findIndex_first sessionId before old after Hbefore Hold),
      assign_middle.
    unfold ChatSessions.setChatSessions. rewrite Hav. reflexivity.
  - intros H. apply findIndex_None in H. rewrite H. reflexivity.
  - intros Hav. unfold ChatSessions.getChatSessions. rewrite Hav.
    reflexivity.
Qed.

(** X10. A chat session that is added is read back as the last of the
    stored sessions, after those that were there, when the store answers;
    when it does not, nothing is written. *)
Theorem addChatSession_appends session s :
  (ChatSessions.available s = true ->
   fst (ChatSessions.addChatSession session s) = true
   /\ ChatSessions.getChatSessions
        (snd (ChatSessions.addChatSession session s))
      = ChatSessions.getChatSessions s ++ [session])
  /\ (ChatSessions.available s = false ->
      ChatSessions.addChatSession session s = (false, s)).
Proof.
  unfold ChatSessions.addChatSession, ChatSessions.setChatSessions,
    ChatSessions.getChatSessions.
  split; intros Hav; rewrite Hav; simpl; auto.
Qed.

(** ** The rate limiter *)

Lemma min_spec (a b : Q) :
  (RateLimiter.min a b <= a /\ RateLimiter.min a b <= b
   /\ (RateLimiter.min a b == a \/ RateLimiter.min a b == b))%Q.
Proof.
  unfold RateLimiter.min. destruct (Qle_bool a b) eqn:E.
  - apply Qle_bool_iff in E. repeat split; try lra; left; reflexivity.
  - assert (~ (a <= b)%Q) as H
      by (intros H; apply Qle_bool_iff in H; congruence).
    apply Qnot_le_lt in H. repeat split; try lra; right; reflexivity.
Qed.

(** X11. The bucket of the rate limiter, in exact arithmetic: with room for
    a token, a positive refill rate and a clock that does not go back, a call
    of [waitForToken] leaves between 0 and [maxTokens - 1] tokens and the
    time of the call as the time of the last refill; it waits for no longer
    than it takes to refill one token, and for no time at all exactly when
    the refilled bucket holds a token. *)
Theorem waitForToken_keeps_the_bucket now (r : RateLimiter.t) :
  (1 <= RateLimiter.maxTokens r)%Q ->
  (0 < RateLimiter.refillRate r)%Q ->
  RateLimiter.lastRefill r <= now ->
  (0 <= RateLimiter.tokens r
   /\ RateLimiter.tokens r <= RateLimiter.maxTokens r)%Q ->
  let wait := fst (RateLimiter.waitForToken now r) in
  let r' := snd (RateLimiter.waitForToken now r) in
  let elapsed := (inject_Z (now - RateLimiter.lastRefill r) / 1000)%Q in
  (0 <= RateLimiter.tokens r'
   /\ RateLimiter.tokens r' <= RateLimiter.maxTokens r' - 1)%Q
  /\ RateLimiter.lastRefill r' = now
  /\ RateLimiter.maxTokens r' = RateLimiter.maxTokens r
  /\ RateLimiter.refillRate r' = RateLimiter.refillRate r
  /\ (0 <= wait /\ wait <= 1000 / RateLimiter.refillRate r)%Q
  /\ ((wait == 0)%Q
      <-> (1 <= RateLimiter.tokens r + elapsed * RateLimiter.refillRate r)%Q).
Proof.
  intros Hmax Hrate Hclock [Hlow Hhigh]. cbv zeta.
  unfold RateLimiter.waitForToken.
  set (elapsed := (inject_Z (now - RateLimiter.lastRefill r) / 1000)%Q).
  set (more := (RateLimiter.tokens r + elapsed * RateLimiter.refillRate r)%Q).
  assert (Helapsed : (0 <= elapsed)%Q).
  { unfold elapsed. apply Qle_shift_div_l; [reflexivity |].
    rewrite Qmult_0_l. change 0%Q with (inject_Z 0).
    rewrite <- Zle_Qle. lia. }
  assert (Hmore : (RateLimiter.tokens r <= more)%Q).
  { unfold more.
    assert (0 <= elapsed * RateLimiter.refillRate r)%Q
      by (apply Qmult_le_0_compat; lra).
    lra. }
  destruct (min_spec (RateLimiter.maxTokens r) more) as (Hm1 & Hm2 & Hm3).
  set (refilled := RateLimiter.min (RateLimiter.maxTokens r) more) in *.
  assert (Hrefilled : (0 <= refilled)%Q) by (destruct Hm3; lra).
  assert (Hinv : (0 < / RateLimiter.refillRate r)%Q)
    by (apply Qinv_lt_0_compat; exact Hrate).
  destruct (Qle_bool 1 refilled) eqn:E; cbn [negb fst snd
    RateLimiter.tokens RateLimiter.lastRefill RateLimiter.maxTokens
    RateLimiter.refillRate].
  - apply Qle_bool_iff in E.
    repeat split; try lra.
    unfold Qdiv. apply Qmult_le_0_compat; lra.
  - assert (~ (1 <= refilled)%Q) as H
      by (intros H; apply Qle_bool_iff in H; congruence).
    apply Qnot_le_lt in H.
    assert (Hw : (0 < (1 - refilled) / RateLimiter.refillRate r * 1000)%Q).
    { unfold Qdiv. apply Qmult_lt_0_compat; [| reflexivity].
      apply Qmult_lt_0_compat; lra. }
    repeat split; try lra.
    unfold Qdiv.
    setoid_replace ((1 - refilled) * / RateLimiter.refillRate r * 1000)%Q
      with ((1000 * (1 - refilled)) * / RateLimiter.refillRate r)%Q by ring.
    apply Qmult_le_compat_r; lra.
Qed.

Section SearchResults.

Context {case_mapping : CaseMapping} {flexsearch : FlexSearchIndex}.

(** ** A search on an initialized indexer *)

Lemma ensure_initialized_done w :
  isInitialized (indexer w) = true ->
  ensure_initialized w = (Fulfilled tt, w).
Proof.
  intros H. unfold ensure_initialized, bind, gets. rewrite H. reflexivity.
Qed.

Lemma search_initialized now query maxResults w :
  isInitialized (indexer w) = true ->
  search now query maxResults w
  = match trim query with
    | [] => (Fulfilled [], w)
    | _ :: _ =>
        if ItemMap.size (items (indexer w)) =? 0 then (Fulfilled [], w)
        else try_catch (search_try now query maxResults)
                       (fun _ => ret []) w
    end.
Proof.
  intros H. unfold search. unfold bind at 1.
  rewrite (ensure_initialized_done w H).
  destruct (trim query); [reflexivity |].
  unfold bind, gets.
  destruct (ItemMap.size (items (indexer w)) =? 0); reflexivity.
Qed.

Lemma list_all_nil query maxResults : list_all query maxResults [] = [].
Proof.
  unfold list_all. simpl.
  replace (slice0 maxResults (@nil IndexedItem.t)) with (@nil IndexedItem.t);
    [reflexivity |].
  unfold slice0. destruct (maxResults <? 0); rewrite firstn_nil; reflexivity.
Qed.

Lemma search_list_all_initialized now query maxResults w :
  isInitialized (indexer w) = true ->
  isListAllQuery query = true ->
  trim query <> [] ->
  search now query maxResults w
  = (Fulfilled (list_all query maxResults (items (indexer w))), w).
Proof.
  intros Hinit Hlist Hnon. rewrite (search_initialized _ _ _ _ Hinit).
  destruct (trim query) as [| c s]; [congruence |].
  destruct (ItemMap.size (items (indexer w)) =? 0) eqn:E.
  - apply Z.eqb_eq in E. unfold ItemMap.size in E.
    destruct (items (indexer w)); [| discriminate].
    rewrite list_all_nil. reflexivity.
  - unfold try_catch, search_try. rewrite Hlist. reflexivity.
Qed.

Lemma has_type_every query item :
  names_no_type query = true ->
  has_type (includeTypes query) item = true.
Proof.
  unfold names_no_type, includeTypes, has_type. intros H. rewrite H.
  rewrite !orb_true_r. simpl.
  destruct (IndexedItem.type item); reflexivity.
Qed.

Lemma filter_every {A} (p : A -> bool) (l : list A) :
  (forall x, p x = true) -> filter p l = l.
Proof.
  intros H. induction l as [| x l IH]; simpl; [reflexivity |].
  rewrite H, IH. reflexivity.
Qed.

(** X12. A list-all query that names no source type, on an initialized
    indexer and with a limit not below the number of documents, lists every
    document once: the items of the results are the documents of the map,
    in another order, and the search leaves the world as it is. *)
Theorem list_all_without_type_lists_everything now query maxResults w :
  isInitialized (indexer w) = true ->
  isListAllQuery query = true ->
  trim query <> [] ->
  names_no_type query = true ->
  ItemMap.size (items (indexer w)) <= maxResults ->
  exists results,
    search now query maxResults w = (Fulfilled results, w)
    /\ Permutation (map SearchResult.item results)
                   (ItemMap.values (items (indexer w))).
Proof.
  intros Hinit Hlist Hnon Hnone Hsize.
  exists (list_all query maxResults (items (indexer w))).
  split; [apply search_list_all_initialized; assumption |].
  unfold list_all. rewrite list_all_results_items.
  rewrite (filter_every _ _ (fun item => has_type_every query item Hnone)).
  rewrite slice0_all.
  - apply sort_perm.
  - rewrite (Permutation_length (sort_perm _ _)).
    unfold ItemMap.values. rewrite length_map. exact Hsize.
Qed.

(** ** The results of any search *)

Lemma score_results_length now clean maxResults m i ids :
  (length (score_results now clean maxResults m i ids) <= length ids)%nat.
Proof.
  revert i; induction ids as [| k ids IH]; intros i; simpl; [lia |].
  destruct (ItemMap.get k m); simpl; specialize (IH (i + 1)); lia.
Qed.

Lemma scored_ids_length maxResults raw :
  0 <= maxResults ->
  Z.of_nat (length (scored_ids maxResults raw)) <= maxResults.
Proof.
  intros H. unfold scored_ids. rewrite length_firstn. lia.
Qed.

Lemma sort_length {A} (after : A -> A -> bool) l :
  length (sort after l) = length l.
Proof. apply Permutation_length, sort_perm. Qed.

Lemma list_all_length query maxResults m :
  0 <= maxResults ->
  Z.of_nat (length (list_all query maxResults m)) <= maxResults.
Proof.
  intros H. unfold list_all. rewrite list_all_results_length.
  apply slice0_length. exact H.
Qed.

(** What a search returned, by the strategy. *)
Lemma search_results now query maxResults w :
  settles (search now query maxResults) w
    (fun results w' =>
       results = []
       \/ (isListAllQuery query = true
           /\ results = list_all query maxResults (items (indexer w')))
       \/ (isListAllQuery query = false
           /\ exists w1 raw,
                raw_matches query maxResults w1 = (Fulfilled raw, w')
                /\ results
                   = sort best_first
                       (score_results now (cleanQuery query) maxResults
                          (items (indexer w')) 0
                          (scored_ids maxResults raw))))
    no_throw.
Proof.
  destruct (isListAllQuery query) eqn:E.
  - eapply settles_weaken; [apply (search_list_all now query maxResults w E)
                           | | auto].
    intros results w' [H | H]; auto.
  - eapply settles_weaken; [apply (search_keyword now query maxResults w E)
                           | | auto].
    intros results w' [H | H]; auto.
Qed.

Lemma search_results_of now query maxResults w
  (P : list SearchResult.t -> Prop) :
  P [] ->
  (forall results w',
     search now query maxResults w = (Fulfilled results, w') ->
     P results) ->
  P (results_of (search now query maxResults w)).
Proof.
  intros Hnil H. unfold results_of.
  destruct (search now query maxResults w) as [[results | e |] w'] eqn:E;
    simpl; auto.
  apply (H results w'). reflexivity.
Qed.

(** X13. A search returns no more results than it is asked for, whatever
    the query and the state of the indexer, for a limit that is not
    negative. *)
Theorem search_returns_at_most_maxResults now query maxResults w :
  0 <= maxResults ->
  Z.of_nat (length (results_of (search now query maxResults w)))
  <= maxResults.
Proof.
  intros Hmax. apply search_results_of; [simpl; lia |].
  intros results w' Hrun.
  pose proof (search_results now query maxResults w) as H.
  unfold settles in H. rewrite Hrun in H.
  destruct H as [-> | [[_ ->] | [_ (w1 & raw & _ & ->)]]].
  - simpl. lia.
  - apply list_all_length. exact Hmax.
  - rewrite sort_length.
    pose proof (score_results_length now (cleanQuery query) maxResults
                  (items (indexer w')) 0 (scored_ids maxResults raw)).
    pose proof (scored_ids_length raw Hmax). lia.
Qed.

Lemma sorted_under {A} (R R' : A -> A -> Prop) (P : A -> Prop) l :
  (forall a b, P a -> P b -> R a b -> R' a b) ->
  Forall P l -> StronglySorted R l -> StronglySorted R' l.
Proof.
  intros H HP HS. induction HS as [| a l HS IH Ha]; constructor.
  - apply IH. inversion HP; assumption.
  - inversion HP as [| ? ? Pa Pl]; subst.
    rewrite Forall_forall in *. intros b Hb. apply H; auto.
Qed.

Lemma list_all_results_score maxResults index l :
  Forall (fun r => SearchResult.score r = 10%Q)
         (list_all_results maxResults index l).
Proof.
  revert index; induction l as [| x l IH]; intros index; simpl;
    constructor; [reflexivity | apply IH].
Qed.

Lemma list_all_ranked query maxResults m :
  0 <= maxResults -> ranked (list_all query maxResults m).
Proof.
  intros Hmax. unfold ranked, list_all.
  destruct (Z.eq_dec maxResults 0) as [-> | Hne].
  - unfold slice0. simpl. constructor.
  - apply (@sorted_under _
             (fun a b => (SearchResult.relevance b
                          < SearchResult.relevance a)%Q)
             _ (fun r => SearchResult.score r = 10%Q)).
    + intros a b Ha Hb Hlt. unfold rank_key. rewrite Ha, Hb. lra.
    + apply list_all_results_score.
    + apply list_all_results_relevance. lia.
Qed.

(** X14. The results of a search come best first: each result's rank key,
    its score plus its relevance, is not below that of any later result,
    whichever strategy answered, for a limit that is not negative. *)
Theorem search_results_are_ranked now query maxResults w :
  0 <= maxResults ->
  ranked (results_of (search now query maxResults w)).
Proof.
  intros Hmax. apply search_results_of; [constructor |].
  intros results w' Hrun.
  pose proof (search_results now query maxResults w) as H.
  unfold settles in H. rewrite Hrun in H.
  destruct H as [-> | [[_ ->] | [_ (w1 & raw & _ & ->)]]].
  - constructor.
  - apply list_all_ranked. exact Hmax.
  - apply best_first_sorted.
Qed.

(** ** No document twice *)

Lemma values_ids m :
  items_ok m -> map IndexedItem.id (ItemMap.values m) = keys m.
Proof.
  intros [_ H]. unfold ItemMap.values, keys. rewrite map_map.
  apply map_ext_in. intros entry Hin.
  rewrite Forall_forall in H. symmetry. apply H. exact Hin.
Qed.

Lemma NoDup_map_filter {A B} (f : A -> B) (p : A -> bool) l :
  NoDup (map f l) -> NoDup (map f (filter p l)).
Proof.
  induction l as [| x l IH]; simpl; intros H; [constructor |].
  inversion H as [| ? ? Hx Hl]; subst.
  destruct (p x); simpl; [| auto].
  constructor; [| auto].
  intros Hin. apply Hx. apply in_map_iff in Hin.
  destruct Hin as (y & Hy & Hin). apply filter_In in Hin.
  apply in_map_iff. exists y. tauto.
Qed.

Lemma NoDup_firstn {A} n (l : list A) : NoDup l -> NoDup (firstn n l).
Proof.
  revert n; induction l as [| x l IH]; intros [| n] H; simpl;
    try constructor.
  - inversion H; subst. intros Hin. apply firstn_In in Hin. contradiction.
  - inversion H; subst. auto.
Qed.

Lemma NoDup_slice0 {A} n (l : list A) : NoDup l -> NoDup (slice0 n l).
Proof. rewrite slice0_firstn. apply NoDup_firstn. Qed.

Lemma slice0_map {A B} (f : A -> B) n l :
  map f (slice0 n l) = slice0 n (map f l).
Proof.
  unfold slice0. rewrite length_map.
  destruct (n <? 0); symmetry; apply firstn_map.
Qed.

Lemma list_all_distinct query maxResults m :
  items_ok m -> NoDup (result_ids (list_all query maxResults m)).
Proof.
  intros Hok. unfold result_ids, list_all.
  rewrite <- (map_map SearchResult.item IndexedItem.id).
  rewrite list_all_results_items, slice0_map.
  apply NoDup_slice0.
  eapply Permutation_NoDup;
    [apply Permutation_map; symmetry; apply sort_perm |].
  apply NoDup_map_filter. rewrite (values_ids Hok). apply Hok.
Qed.

Lemma get_id k m v :
  items_ok m -> ItemMap.get k m = Some v -> IndexedItem.id v = k.
Proof.
  intros [_ H] Hget. apply get_In in Hget.
  rewrite Forall_forall in H. symmetry. apply (H _ Hget).
Qed.

Lemma score_results_ids now clean maxResults m i ids :
  items_ok m ->
  result_ids (score_results now clean maxResults m i ids)
  = filter (fun k => ItemMap.has k m) ids.
Proof.
  intros Hok. revert i; induction ids as [| k ids IH]; intros i; simpl;
    [reflexivity |].
  unfold ItemMap.has. destruct (ItemMap.get k m) as [v |] eqn:E; simpl.
  - rewrite (get_id _ Hok E). f_equal. apply IH.
  - apply IH.
Qed.

Lemma NoDup_filter {A} (p : A -> bool) l : NoDup l -> NoDup (filter p l).
Proof.
  intros H. rewrite <- (map_id (filter p l)). apply NoDup_map_filter.
  rewrite map_id. exact H.
Qed.

Lemma raw_matches_distinct query maxResults w raw w' :
  raw_matches query maxResults w = (Fulfilled raw, w') -> NoDup raw.
Proof.
  unfold raw_matches, bind, ret.
  destruct (search_all _ _ w) as [[found | e |] w1]; intros H;
    inversion H; subst.
  apply dedup_spec.
Qed.

(** X15. A search never returns a document twice: on an indexer that the
    methods have led to, the ids of the results of a search are distinct. *)
Theorem search_results_are_distinct now query maxResults w :
  reachable w ->
  NoDup (result_ids (results_of (search now query maxResults w))).
Proof.
  intros Hreach. apply search_results_of; [constructor |].
  intros results w' Hrun.
  assert (Hok : items_ok (items (indexer w'))).
  { replace w' with (perform (Search now query maxResults) w)
      by (simpl; rewrite Hrun; reflexivity).
    apply reachable_items_ok, reachable_call, Hreach. }
  pose proof (search_results now query maxResults w) as H.
  unfold settles in H. rewrite Hrun in H.
  destruct H as [-> | [[_ ->] | [_ (w1 & raw & Hraw & ->)]]].
  - constructor.
  - apply list_all_distinct. exact Hok.
  - unfold result_ids.
    eapply Permutation_NoDup;
      [apply Permutation_map; symmetry; apply sort_perm |].
    fold (result_ids (score_results now (cleanQuery query) maxResults
                        (items (indexer w')) 0 (scored_ids maxResults raw))).
    rewrite (score_results_ids _ _ _ _ _ Hok).
    apply NoDup_filter. unfold scored_ids. apply NoDup_firstn.
    apply (raw_matches_distinct _ _ _ Hraw).
Qed.

(** ** A search changes nothing *)

Lemma only_index_differs_refl w : only_index_differs w w.
Proof. repeat split. Qed.

Lemma only_index_differs_trans w1 w2 w3 :
  only_index_differs w1 w2 -> only_index_differs w2 w3 ->
  only_index_differs w1 w3.
Proof.
  unfold only_index_differs. intros (a & b & c & d) (a' & b' & c' & d').
  repeat split; congruence.
Qed.

Lemma call_index_only_index {A} (f : Index -> Completion A * Index) w :
  settles (call_index f) w (fun _ w' => only_index_differs w w')
          (fun _ w' => only_index_differs w w').
Proof.
  apply settles_call_index. intros i. cbv zeta.
  split; intros; repeat split.
Qed.

Lemma search_all_only_index terms maxResults w :
  settles (search_all terms maxResults) w
    (fun _ w' => only_index_differs w w')
    (fun _ w' => only_index_differs w w').
Proof.
  revert w; induction terms as [| term rest IH]; intros w; simpl.
  - step. apply only_index_differs_refl.
  - step. eapply settles_weaken; [apply call_index_only_index | | auto].
    intros found w1 H1. cbv beta. step.
    eapply settles_weaken; [apply IH | |].
    + intros more w2 H2. cbv beta. step.
      exact (only_index_differs_trans H1 H2).
    + intros e w2 H2. exact (only_index_differs_trans H1 H2).
Qed.

Lemma search_try_only_index now query maxResults w :
  settles (search_try now query maxResults) w
    (fun _ w' => only_index_differs w w')
    (fun _ w' => only_index_differs w w').
Proof.
  unfold search_try. destruct (isListAllQuery query).
  - steps. apply only_index_differs_refl.
  - unfold keyword_search, raw_matches. step. step.
    eapply settles_weaken; [apply search_all_only_index | | auto].
    intros found w1 H1. cbv beta. steps. exact H1.
Qed.

(** X16. A search on an initialized indexer is fulfilled in one go and
    writes nothing: it is not suspended, and it leaves the documents, the
    flag and the storage as they are; of the world only the index object,
    through its own [search], may differ afterwards. *)
Theorem search_on_initialized_indexer_writes_nothing now query maxResults w :
  isInitialized (indexer w) = true ->
  exists results w',
    search now query maxResults w = (Fulfilled results, w')
    /\ only_index_differs w w'.
Proof.
  intros Hinit.
  assert (H : settles (search now query maxResults) w
                      (fun _ w' => only_index_differs w w') no_throw);
    [| exact (settles_fulfilled _ _ _ H)].
  unfold settles. rewrite (search_initialized _ _ _ _ Hinit).
  destruct (trim query); [apply only_index_differs_refl |].
  destruct (ItemMap.size (items (indexer w)) =? 0);
    [apply only_index_differs_refl |].
  change (settles (try_catch (search_try now query maxResults)
                             (fun _ => ret []))
                  w (fun _ w' => only_index_differs w w') no_throw).
  step. eapply settles_weaken; [apply search_try_only_index | auto |].
  intros e w1 H1. cbv beta. step. exact H1.
Qed.

(** X17. A keyword query that leaves no search term finds nothing: when
    the cleaned query gives no term, as for a query of stop words or of
    words of one or two letters, the search returns no result, whatever the
    indexer holds. *)
Theorem query_without_terms_finds_nothing now query maxResults w :
  isListAllQuery query = false ->
  searchTerms (cleanQuery query) = [] ->
  exists w', search now query maxResults w = (Fulfilled [], w').
Proof.
  intros Hkey Hterms.
  destruct (settles_fulfilled _ _ _
              (search_keyword now query maxResults w Hkey))
    as (results & w' & Hrun & H).
  exists w'. rewrite Hrun. f_equal. f_equal.
  destruct H as [-> | (w1 & raw & Hraw & ->)]; [reflexivity |].
  unfold raw_matches in Hraw. rewrite Hterms in Hraw.
  simpl in Hraw. unfold bind, ret in Hraw. inversion Hraw; subst.
  unfold scored_ids. change (dedup []) with (@nil jsstring).
  rewrite firstn_nil. reflexivity.
Qed.

End SearchResults.

(** ** What the methods leave in the storage *)

Section StorageInvariant.

Context {case_mapping : CaseMapping} {flexsearch : FlexSearchIndex}.

Variable S : Storage.t -> Prop.

Local Abbreviation on_store := (on_storage S).

Lemma stores_ret {A} (a : A) : keeps on_store (ret a).
Proof. intros w H. exact H. Qed.

Lemma stores_gets {A} (f : Indexer -> A) : keeps on_store (gets f).
Proof. intros w H. exact H. Qed.

Lemma stores_suspend : keeps on_store suspend.
Proof. intros w H. exact H. Qed.

Lemma stores_modify f : keeps on_store (modify f).
Proof. intros w H. exact H. Qed.

Lemma stores_call_index {A} (f : Index -> Completion A * Index) :
  keeps on_store (call_index f).
Proof.
  intros w H. unfold ends, call_index.
  destruct (f (index (indexer w))) as [[a | e] i]; exact H.
Qed.

Lemma stores_call_storage {A} (f : Storage.t -> A * Storage.t) :
  (forall s, S s -> S (snd (f s))) ->
  keeps on_store (call_storage f).
Proof.
  intros Hf w H. unfold ends, call_storage, bind, suspend. simpl.
  specialize (Hf (storage w) H).
  destruct (f (storage w)) as [a s]. exact Hf.
Qed.

Lemma stores_bind {A B} (c : M A) (k : A -> M B) :
  keeps on_store c -> (forall a, keeps on_store (k a)) ->
  keeps on_store (bind c k).
Proof.
  intros Hc Hk w H. apply ends_bind.
  eapply ends_weaken; [apply Hc; exact H | | auto | auto].
  intros a w' H'. apply Hk. exact H'.
Qed.

Lemma stores_try_catch {A} (c : M A) (h : exn -> M A) :
  keeps on_store c -> (forall e, keeps on_store (h e)) ->
  keeps on_store (try_catch c h).
Proof.
  intros Hc Hh w H. apply ends_try_catch.
  eapply ends_weaken; [apply Hc; exact H | auto | | auto].
  intros e w' H'. apply Hh. exact H'.
Qed.

Lemma stores_for_of {A} (l : list A) (f : A -> M unit) :
  (forall x, keeps on_store (f x)) -> keeps on_store (for_of l f).
Proof.
  intros Hf. induction l as [| x l IH]; simpl.
  - apply stores_ret.
  - apply stores_bind; [apply Hf | intros _; exact IH].
Qed.

Lemma stores_addToIndex item : keeps on_store (addToIndex item).
Proof.
  unfold addToIndex.
  apply stores_bind; [| intros _].
  - apply stores_try_catch; [apply stores_call_index |].
    intros e. apply stores_ret.
  - apply stores_bind; [apply stores_gets | intros m; apply stores_modify].
Qed.

(** Initialization keeps a property of the storage that reading keeps. *)
Hypothesis S_read : forall k s, S s -> S (Storage.log_read k s).

Lemma stores_initialize : keeps on_store initialize.
Proof.
  unfold initialize.
  apply stores_bind; [apply stores_gets | intros init].
  destruct init; [apply stores_ret |].
  apply stores_try_catch; [| intros e; apply stores_modify].
  apply stores_bind;
    [apply stores_call_storage; intros s; apply S_read | intros stored].
  apply stores_bind; [| intros _; apply stores_modify].
  destruct stored as [| firstItem rest]; [apply stores_ret |].
  apply stores_bind; [apply stores_modify | intros _].
  apply stores_bind; [apply stores_modify | intros _].
  apply stores_bind;
    [apply stores_for_of; intros x; apply stores_addToIndex | intros _].
  apply stores_bind; [apply stores_call_index | intros _].
  apply stores_bind; [apply stores_call_index | intros _].
  apply stores_ret.
Qed.

End StorageInvariant.

Section Stored.

Context {case_mapping : CaseMapping} {flexsearch : FlexSearchIndex}.

Lemma documents_stored_read a v k s :
  documents_stored a v s -> documents_stored a v (Storage.log_read k s).
Proof. intros H. exact H. Qed.

Lemma documents_stored_items a v s :
  documents_stored a v s ->
  stored_items s = Storage.or_empty a v.
Proof. intros [<- <-]. reflexivity. Qed.

Lemma documents_stored_now s :
  documents_stored (Storage.available s) (Storage.indexedItems s) s.
Proof. split; reflexivity. Qed.

(** The documents a method reads back are those stored when it began, when
    on the way it only read the storage. *)
Lemma stored_items_kept {A} (c : M A) w :
  (forall S : Storage.t -> Prop,
     (forall k s, S s -> S (Storage.log_read k s)) ->
     keeps (on_storage S) c) ->
  ends c w
    (fun _ w' => documents_stored (Storage.available (storage w))
                   (Storage.indexedItems (storage w)) (storage w'))
    (fun _ w' => documents_stored (Storage.available (storage w))
                   (Storage.indexedItems (storage w)) (storage w'))
    (fun w' => documents_stored (Storage.available (storage w))
                   (Storage.indexedItems (storage w)) (storage w')).
Proof.
  intros H.
  apply (H (documents_stored (Storage.available (storage w))
                             (Storage.indexedItems (storage w)))).
  - intros k s. apply documents_stored_read.
  - apply documents_stored_now.
Qed.

(** ** Initialization *)

Lemma initialize_done w :
  isInitialized (indexer w) = true -> initialize w = (Fulfilled tt, w).
Proof.
  intros H. unfold initialize, bind, gets. rewrite H. reflexivity.
Qed.

Lemma initialize_items w :
  isInitialized (indexer w) = false ->
  settles initialize w
    (fun _ w' =>
       isInitialized (indexer w') = true
       /\ items (indexer w')
          = match stored_items (storage w) with
            | [] => items (indexer w)
            | l => set_all l []
            end)
    no_throw.
Proof.
  intros Hinit. unfold initialize. step. step. rewrite Hinit.
  step. step. step. cbn [fst snd].
  change (fst (Storage.getIndexedItems (storage w)))
    with (stored_items (storage w)).
  destruct (stored_items (storage w)) as [| firstItem rest] eqn:Hstored.
  - steps. split; reflexivity.
  - steps.
    eapply settles_weaken;
      [apply for_of_addToIndex_spec | | intros e w1 []].
    intros [] w1 (Hitems & Hflag & _). cbv beta.
    cbn [indexer items isInitialized] in Hitems, Hflag.
    step.
    eapply settles_weaken; [apply call_index_same_items | |].
    + intros found w2 [H2 H2']. cbv beta. step.
      eapply settles_weaken; [apply call_index_same_items | |].
      * intros found' w3 [H3 H3']. cbv beta. steps.
        split; [reflexivity | congruence].
      * intros e w3 [H3 H3']. cbv beta. steps.
        split; [reflexivity | congruence].
    + intros e w2 [H2 H2']. cbv beta. steps.
      split; [reflexivity | congruence].
Qed.

(** X18. Initialization, run once: on an initialized indexer it does
    nothing; otherwise it is fulfilled, never rejected, with the indexer
    initialized and holding the stored documents, each under its id, a later
    one replacing an earlier one with the same id; when nothing is stored, or
    the storage does not answer, the document map stays as it was. *)
Theorem initialize_loads_the_stored_documents w :
  (isInitialized (indexer w) = true -> initialize w = (Fulfilled tt, w))
  /\ (isInitialized (indexer w) = false ->
      exists w',
        initialize w = (Fulfilled tt, w')
        /\ isInitialized (indexer w') = true
        /\ items (indexer w')
           = match stored_items (storage w) with
             | [] => items (indexer w)
             | l => set_all l []
             end
        /\ stored_items (storage w') = stored_items (storage w)).
Proof.
  split; [apply initialize_done |].
  intros Hinit.
  pose proof (initialize_items w Hinit) as H.
  pose proof (stored_items_kept (c := initialize) w
                (fun S Hr => stores_initialize S Hr)) as K.
  unfold settles in H. unfold ends in K.
  destruct (initialize w) as [[[] | e |] w']; try contradiction.
  exists w'. destruct H as [H1 H2]. repeat split; try assumption.
  rewrite (documents_stored_items K). reflexivity.
Qed.

End Stored.

Section Maintenance.

Context {case_mapping : CaseMapping} {flexsearch : FlexSearchIndex}.

(** ** The storage, read and written *)

Lemma stored_items_set v s :
  stored_items (snd (Storage.setIndexedItems v s))
  = if Storage.available s then v else stored_items s.
Proof.
  unfold stored_items, Storage.setIndexedItems, Storage.getIndexedItems.
  destruct (Storage.available s) eqn:E; simpl; rewrite ?E; reflexivity.
Qed.

Lemma available_set v s :
  Storage.available (snd (Storage.setIndexedItems v s)) = Storage.available s.
Proof.
  unfold Storage.setIndexedItems.
  destruct (Storage.available s) eqn:E; simpl; rewrite ?E; reflexivity.
Qed.

Lemma stored_items_index v s :
  stored_items (snd (Storage.setSearchIndex v s)) = stored_items s
  /\ Storage.available (snd (Storage.setSearchIndex v s))
     = Storage.available s.
Proof.
  unfold stored_items, Storage.setSearchIndex, Storage.getIndexedItems.
  destruct (Storage.available s) eqn:E; simpl; rewrite ?E; split; reflexivity.
Qed.

Lemma stored_items_unavailable s :
  Storage.available s = false -> stored_items s = [].
Proof.
  unfold stored_items, Storage.getIndexedItems. intros ->. reflexivity.
Qed.

Lemma persistIndex_keeps_documents w :
  ends persistIndex w
    (fun _ w' => documents_kept w w')
    (fun _ _ => False)
    (fun w' => documents_kept w w').
Proof.
  unfold persistIndex. estep. estep.
  apply ends_call_index. intros r i _ w1.
  destruct r as [[serializedIndex |] | e].
  - estep. estep. estep. estep. estep.
    cbn [indexer storage suspended index items isInitialized fst snd].
    unfold documents_kept, same_items.
    cbn [indexer storage items isInitialized w1].
    destruct (stored_items_index serializedIndex (storage w)) as [H1 H2].
    repeat split; assumption.
  - apply ends_never. repeat split.
  - estep. repeat split.
Qed.

(** ** Making sure the indexer is initialized *)

Lemma ensure_initialized_loads w :
  settles ensure_initialized w
    (fun _ w' =>
       items (indexer w') = loaded w
       /\ isInitialized (indexer w') = true
       /\ Storage.available (storage w') = Storage.available (storage w)
       /\ stored_items (storage w') = stored_items (storage w))
    no_throw.
Proof.
  unfold loaded.
  destruct (isInitialized (indexer w)) eqn:Hinit.
  - unfold settles. rewrite (ensure_initialized_done w Hinit).
    rewrite (initialize_done w Hinit). repeat split. exact Hinit.
  - unfold ensure_initialized. step. step. rewrite Hinit.
    cbn [negb]. step.
    pose proof (initialize_items w Hinit) as H.
    pose proof (stored_items_kept (c := initialize) w
                  (fun S Hr => stores_initialize S Hr)) as K.
    unfold settles in *. unfold ends in K.
    destruct (initialize w) as [[[] | e |] w']; try contradiction.
    cbn [indexer storage snd]. destruct H as [H1 H2].
    repeat split; try assumption.
    + apply K.
    + rewrite (documents_stored_items K). reflexivity.
Qed.

Lemma loaded_initialized w :
  isInitialized (indexer w) = true -> loaded w = items (indexer w).
Proof.
  intros H. unfold loaded. rewrite (initialize_done w H). reflexivity.
Qed.

(** ** The map *)

Lemma get_replace_same k v m :
  ItemMap.has k m = true -> ItemMap.get k (ItemMap.replace k v m) = Some v.
Proof.
  unfold ItemMap.has. induction m as [| [k' v'] m IH]; simpl;
    [discriminate |].
  destruct (str_eqb k k') eqn:E; simpl; rewrite E; auto.
Qed.

Lemma get_replace_other k k' v m :
  k' <> k -> ItemMap.get k' (ItemMap.replace k v m) = ItemMap.get k' m.
Proof.
  intros Hne. induction m as [| [k0 v0] m IH]; simpl; [reflexivity |].
  destruct (str_eqb k k0) eqn:E; simpl.
  - apply str_eqb_eq in E. subst k0.
    destruct (str_eqb k' k) eqn:E'; [| reflexivity].
    apply str_eqb_eq in E'. contradiction.
  - rewrite IH. reflexivity.
Qed.

Lemma get_app k m m' :
  ItemMap.get k (m ++ m')
  = match ItemMap.get k m with
    | Some v => Some v
    | None => ItemMap.get k m'
    end.
Proof.
  induction m as [| [k0 v0] m IH]; simpl; [reflexivity |].
  destruct (str_eqb k k0); auto.
Qed.

Lemma get_set_same k v m : ItemMap.get k (ItemMap.set k v m) = Some v.
Proof.
  unfold ItemMap.set. destruct (ItemMap.has k m) eqn:E.
  - apply get_replace_same. exact E.
  - rewrite get_app. unfold ItemMap.has in E.
    destruct (ItemMap.get k m); [discriminate |].
    simpl. rewrite str_eqb_refl. reflexivity.
Qed.

Lemma get_set_other k k' v m :
  k' <> k -> ItemMap.get k' (ItemMap.set k v m) = ItemMap.get k' m.
Proof.
  intros Hne. unfold ItemMap.set. destruct (ItemMap.has k m).
  - apply get_replace_other. exact Hne.
  - rewrite get_app. destruct (ItemMap.get k' m); [reflexivity |].
    simpl. apply str_eqb_neq in Hne. rewrite Hne. reflexivity.
Qed.

(** ** Adding, removing and updating a document *)

Lemma addItem_spec item w :
  ends (addItem item) w
    (fun _ w' =>
       items (indexer w')
       = ItemMap.set (IndexedItem.id item) item (loaded w)
       /\ isInitialized (indexer w') = true
       /\ Storage.available (storage w') = Storage.available (storage w)
       /\ stored_items (storage w')
          = if Storage.available (storage w)
            then stored_items (storage w) ++ [item]
            else [])
    (fun _ _ => False)
    (fun w' =>
       items (indexer w')
       = ItemMap.set (IndexedItem.id item) item (loaded w)
       /\ isInitialized (indexer w') = true).
Proof.
  unfold addItem. estep.
  eapply ends_fulfilled; [apply ensure_initialized_loads |].
  intros [] w1 (Hitems1 & Hinit1 & Hav1 & Hst1). cbv beta. estep.
  eapply ends_fulfilled; [apply addToIndex_spec |].
  intros [] w2 (Hitems2 & Hinit2 & Hst2 & _). cbv beta. estep. estep.
  eapply ends_weaken; [apply persistIndex_keeps_documents | | auto |].
  - intros [] w3 ([Hitems3 Hinit3] & Hav3 & Hst3). cbv beta.
    estep. estep. estep. estep. estep.
    cbn [indexer storage suspended fst snd].
    rewrite available_set, stored_items_set.
    change (Storage.available (snd (Storage.getIndexedItems (storage w3))))
      with (Storage.available (storage w3)).
    change (stored_items (snd (Storage.getIndexedItems (storage w3))))
      with (stored_items (storage w3)).
    change (fst (Storage.getIndexedItems (storage w3)))
      with (stored_items (storage w3)).
    rewrite Hitems3, Hinit3, Hitems2, Hinit2, Hitems1, Hav3, Hst3, Hst2,
      Hav1, Hst1.
    repeat split; try assumption.
    destruct (Storage.available (storage w)) eqn:E; [reflexivity |].
    apply stored_items_unavailable. simpl. congruence.
  - intros w3 ([Hitems3 Hinit3] & _). cbv beta.
    rewrite Hitems3, Hinit3, Hitems2, Hinit2, Hitems1. split; auto.
Qed.

Lemma removeItem_spec itemId w :
  ends (removeItem itemId) w
    (fun _ w' =>
       items (indexer w') = ItemMap.delete itemId (loaded w)
       /\ isInitialized (indexer w') = true
       /\ Storage.available (storage w') = Storage.available (storage w)
       /\ stored_items (storage w')
          = filter (fun item => negb (str_eqb (IndexedItem.id item) itemId))
                   (stored_items (storage w)))
    (fun _ w' =>
       items (indexer w') = loaded w
       /\ isInitialized (indexer w') = true
       /\ stored_items (storage w') = stored_items (storage w))
    (fun w' =>
       items (indexer w') = ItemMap.delete itemId (loaded w)
       /\ isInitialized (indexer w') = true).
Proof.
  unfold removeItem. estep.
  eapply ends_fulfilled; [apply ensure_initialized_loads |].
  intros [] w1 (Hitems1 & Hinit1 & Hav1 & Hst1). cbv beta. estep.
  apply ends_call_index. intros r i _ w2.
  assert (H2 : items (indexer w2) = loaded w
               /\ isInitialized (indexer w2) = true
               /\ storage w2 = storage w1)
    by (repeat split; assumption).
  clearbody w2. destruct H2 as (Hitems2 & Hinit2 & Hst2).
  destruct r as [a | e].
  - estep. estep. estep. estep. estep. estep.
    eapply ends_weaken;
      [apply persistIndex_keeps_documents | | intros ? ? [] |].
    + intros [] w3 ([Hitems3 Hinit3] & Hav3 & Hst3). cbv beta.
      cbn [indexer storage items isInitialized] in Hitems3, Hinit3, Hav3,
        Hst3.
      estep. estep. estep. estep. estep.
      cbn [indexer storage suspended fst snd].
      rewrite available_set, stored_items_set.
      change (Storage.available (snd (Storage.getIndexedItems (storage w3))))
        with (Storage.available (storage w3)).
      change (stored_items (snd (Storage.getIndexedItems (storage w3))))
        with (stored_items (storage w3)).
      change (fst (Storage.getIndexedItems (storage w3)))
        with (stored_items (storage w3)).
      rewrite Hitems3, Hinit3, Hitems2, Hav3, Hst3, Hst2, Hav1, Hst1.
      repeat split; try assumption.
      destruct (Storage.available (storage w)) eqn:E; [reflexivity |].
      rewrite (stored_items_unavailable _ E). reflexivity.
    + intros w3 ([Hitems3 Hinit3] & _). cbv beta.
      cbn [indexer storage items isInitialized] in Hitems3, Hinit3.
      rewrite Hitems3, Hinit3, Hitems2. split; auto.
  - rewrite Hst2. repeat split; assumption.
Qed.

(** X19. Adding a document files it under its id, in place of a document
    that had the id, and leaves every other document alone; the promise is
    never rejected, and even when it stays pending, because the index
    export delivers nothing, the document is in the map. When the promise is
    fulfilled over a storage that answers, the stored list is the old list
    with the document appended. *)
Theorem addItem_files_the_document item w :
  let id := IndexedItem.id item in
  ends (addItem item) w
    (fun _ w' =>
       ItemMap.get id (items (indexer w')) = Some item
       /\ (forall k, k <> id ->
                     ItemMap.get k (items (indexer w'))
                     = ItemMap.get k (loaded w))
       /\ (Storage.available (storage w) = true ->
           stored_items (storage w') = stored_items (storage w) ++ [item]))
    (fun _ _ => False)
    (fun w' =>
       ItemMap.get id (items (indexer w')) = Some item
       /\ (forall k, k <> id ->
                     ItemMap.get k (items (indexer w'))
                     = ItemMap.get k (loaded w))).
Proof.
  cbv zeta.
  eapply ends_weaken; [apply addItem_spec | | auto |].
  - intros [] w' (Hitems & _ & _ & Hst). rewrite Hitems.
    split; [apply get_set_same |].
    split; [intros k Hk; apply get_set_other; exact Hk |].
    intros Hav. rewrite Hst, Hav. reflexivity.
  - intros w' (Hitems & _). rewrite Hitems.
    split; [apply get_set_same |].
    intros k Hk. apply get_set_other. exact Hk.
Qed.

End Maintenance.

Section Restart.

Context {case_mapping : CaseMapping} {flexsearch : FlexSearchIndex}.

(** ** A new indexer over the storage *)

Lemma restarted_items s :
  items (indexer (restarted s)) = set_all (stored_items s) []
  /\ isInitialized (indexer (restarted s)) = true.
Proof.
  unfold restarted.
  pose proof (initialize_items (new_world s) eq_refl) as H.
  unfold settles in H.
  destruct (initialize (new_world s)) as [[[] | e |] w']; try contradiction.
  destruct H as [H1 H2]. split; [| exact H1].
  cbn [snd]. rewrite H2. cbn [storage new_world].
  destruct (stored_items s); reflexivity.
Qed.

Lemma set_all_app l l' m : set_all (l ++ l') m = set_all l' (set_all l m).
Proof. apply fold_left_app. Qed.

(** Looking up [k] after [set_all]: the last of the items with the id. *)
Lemma get_set_all k l m :
  ItemMap.get k (set_all l m)
  = match find (fun x => str_eqb (IndexedItem.id x) k) (rev l) with
    | Some v => Some v
    | None => ItemMap.get k m
    end.
Proof.
  revert m. induction l as [| x l IH] using rev_ind; intros m;
    [reflexivity |].
  rewrite set_all_app, rev_app_distr. simpl.
  destruct (str_eqb (IndexedItem.id x) k) eqn:E.
  - apply str_eqb_eq in E. subst k. apply get_set_same.
  - apply str_eqb_neq in E. rewrite get_set_other by congruence.
    apply IH.
Qed.

Lemma find_filter {A} (q p : A -> bool) l :
  (forall x, q x = true -> p x = true) ->
  find q (filter p l) = find q l.
Proof.
  intros H. induction l as [| x l IH]; simpl; [reflexivity |].
  destruct (p x) eqn:Ep; simpl.
  - rewrite IH. reflexivity.
  - destruct (q x) eqn:Eq; [| exact IH].
    apply H in Eq. congruence.
Qed.

Lemma find_filter_none {A} (q p : A -> bool) l :
  (forall x, p x = true -> q x = false) ->
  find q (filter p l) = None.
Proof.
  intros H. induction l as [| x l IH]; simpl; [reflexivity |].
  destruct (p x) eqn:Ep; simpl; [| exact IH].
  rewrite (H x Ep). exact IH.
Qed.

Lemma filter_rev {A} (p : A -> bool) l : rev (filter p l) = filter p (rev l).
Proof.
  induction l as [| x l IH]; simpl; [reflexivity |].
  rewrite filter_app. simpl. destruct (p x); simpl; rewrite IH;
    [reflexivity | rewrite app_nil_r; reflexivity].
Qed.


(** ** Updating *)

Lemma set_after_delete k v m :
  NoDup (keys m) ->
  ItemMap.set k v (ItemMap.delete k m) = ItemMap.delete k m ++ [(k, v)].
Proof.
  intros Hm. unfold ItemMap.set, ItemMap.has.
  destruct (ItemMap.get k (ItemMap.delete k m)) eqn:E; [| reflexivity].
  exfalso. apply (@delete_gone k m Hm). apply get_In in E.
  unfold keys. apply in_map_iff. exists (k, t). split; [reflexivity | exact E].
Qed.

(** X21. Updating a document is removing it and adding it again: when the
    promise is fulfilled the document is in the map under its id, after the
    other documents, which are left alone. When the index refuses the
    removal the promise is rejected and the map is as it was; and when it
    stays pending, because an index export delivers nothing, the document
    that had the id is removed, and the new one may not be in the map. *)
Theorem updateItem_removes_then_adds item w :
  let id := IndexedItem.id item in
  let without := ItemMap.delete id (loaded w) in
  ends (updateItem item) w
    (fun _ w' =>
       items (indexer w') = ItemMap.set id item without
       /\ (items_ok (loaded w) ->
           items (indexer w') = without ++ [(id, item)]))
    (fun _ w' => items (indexer w') = loaded w)
    (fun w' =>
       items (indexer w') = without
       \/ items (indexer w') = ItemMap.set id item without).
Proof.
  cbv zeta. unfold updateItem. estep. estep.
  eapply ends_weaken; [apply removeItem_spec | | |].
  - intros [] w1 (Hitems1 & Hinit1 & _). cbv beta. estep.
    eapply ends_weaken; [apply addItem_spec | | intros ? ? [] |].
    + intros [] w2 (Hitems2 & _). cbv beta.
      cbn [indexer items].
      rewrite loaded_initialized in Hitems2 by exact Hinit1.
      cbn [indexer items] in Hitems2. rewrite Hitems1 in Hitems2.
      split; [exact Hitems2 |].
      intros [Hnodup _]. rewrite Hitems2. apply set_after_delete.
      exact Hnodup.
    + intros w2 (Hitems2 & _). cbv beta.
      rewrite loaded_initialized in Hitems2 by exact Hinit1.
      cbn [indexer items] in Hitems2. rewrite Hitems1 in Hitems2.
      right. exact Hitems2.
  - intros e w1 (Hitems1 & _). exact Hitems1.
  - intros w1 (Hitems1 & _). left. exact Hitems1.
Qed.

(** ** Clearing *)

Lemma cleared_storage s :
  let s' := snd (Storage.setIndexedItems []
                   (snd (Storage.setSearchIndex [] s))) in
  stored_items s' = [] /\ fst (Storage.getSearchIndex s') = None.
Proof.
  cbv zeta.
  unfold stored_items, Storage.setIndexedItems, Storage.setSearchIndex,
    Storage.getIndexedItems, Storage.getSearchIndex.
  destruct (Storage.available s) eqn:E; cbn; rewrite ?E; cbn; rewrite ?E;
    split; reflexivity.
Qed.

Lemma clearIndex_spec w :
  settles clearIndex w
    (fun _ w' =>
       items (indexer w') = []
       /\ isInitialized (indexer w') = isInitialized (indexer w)
       /\ stored_items (storage w') = []
       /\ fst (Storage.getSearchIndex (storage w')) = None)
    no_throw.
Proof.
  unfold clearIndex. steps.
  destruct (cleared_storage (storage w)) as [H1 H2].
  repeat split; assumption.
Qed.

Lemma search_nothing_loaded now query maxResults w :
  loaded w = [] ->
  exists w', search now query maxResults w = (Fulfilled [], w').
Proof.
  intros Hloaded.
  assert (H : settles (search now query maxResults) w
                (fun results _ => results = []) no_throw).
  { unfold search. step.
    eapply settles_weaken; [apply ensure_initialized_loads | | auto].
    intros [] w1 (Hitems & _). cbv beta.
    destruct (trim query); cbv iota; [step; reflexivity |].
    step. step. rewrite Hitems, Hloaded.
    cbn [ItemMap.size length Z.of_nat Z.eqb].
    step. reflexivity. }
  destruct (settles_fulfilled _ _ _ H) as (results & w' & Hrun & ->).
  exists w'. exact Hrun.
Qed.


(** ** A rebuild, and a restart after it *)

Lemma set_all_values m : items_ok m -> set_all (ItemMap.values m) [] = m.
Proof.
  induction m as [| [k v] m IH] using rev_ind; intros Hok; [reflexivity |].
  destruct Hok as [Hnodup Hkeys].
  unfold keys in Hnodup. rewrite map_app in Hnodup. simpl in Hnodup.
  apply Forall_app in Hkeys. destruct Hkeys as [Hkeys Hk].
  inversion Hk as [| ? ? Hkv _]; subst. simpl in Hkv.
  assert (Hm : NoDup (map fst m) /\ ~ In k (map fst m)).
  { apply NoDup_remove in Hnodup. rewrite app_nil_r in Hnodup.
    exact Hnodup. }
  unfold ItemMap.values. rewrite map_app. simpl.
  rewrite set_all_app. fold (ItemMap.values m).
  rewrite IH by (split; [apply Hm | exact Hkeys]).
  simpl. rewrite <- Hkv. unfold ItemMap.set, ItemMap.has.
  destruct (ItemMap.get k m) eqn:E; [| reflexivity].
  exfalso. apply (proj2 Hm). apply get_In in E.
  apply in_map_iff. exists (k, t). split; [reflexivity | exact E].
Qed.

Lemma rebuildIndex_spec now w :
  ends (rebuildIndex now) w
    (fun _ w' =>
       items (indexer w')
       = set_all (rebuild_items now (stored_data (storage w))) []
       /\ (Storage.available (storage w) = true ->
           stored_items (storage w') = ItemMap.values (items (indexer w'))))
    (fun _ _ => False)
    (fun w' =>
       items (indexer w')
       = set_all (rebuild_items now (stored_data (storage w))) []).
Proof.
  unfold rebuildIndex, rebuild_clear, rebuild_read, rebuild_fill,
    rebuild_save.
  repeat estep.
  cbn [indexer storage suspended index items isInitialized fst snd].
  change (fst (Storage.getBookmarks (storage w)),
          fst (Storage.getHistory (snd (Storage.getBookmarks (storage w)))),
          fst (Storage.getReadingList
                 (snd (Storage.getHistory
                         (snd (Storage.getBookmarks (storage w)))))))
    with (stored_data (storage w)).
  eapply ends_fulfilled; [apply for_of_addToIndex_spec |].
  cbn [indexer storage suspended index items isInitialized].
  intros [] w2 (Hitems2 & _ & Hst2 & _). repeat estep.
  eapply ends_weaken;
    [apply persistIndex_keeps_documents | | intros ? ? [] |].
  - intros [] w3 ([Hitems3 _] & Hav3 & _). cbv beta. repeat estep.
    cbn [indexer storage suspended index items isInitialized fst snd].
    rewrite Hitems3, Hitems2. split; [reflexivity |].
    intros Hav. rewrite stored_items_set, Hav3, Hst2.
    cbn [Storage.available Storage.getReadingList Storage.getHistory
         Storage.getBookmarks Storage.log_read snd].
    rewrite Hav. reflexivity.
  - intros w3 ([Hitems3 _] & _). cbv beta. rewrite Hitems3, Hitems2.
    reflexivity.
Qed.

(** X23. A rebuild is kept across a restart: when [rebuildIndex] is
    fulfilled over a storage that answers, the stored list is the documents
    of the map, in the order of the map, and a new indexer initialized from
    that storage holds the same document map. *)
Theorem rebuild_is_kept_across_a_restart now w w' :
  Storage.available (storage w) = true ->
  rebuildIndex now w = (Fulfilled tt, w') ->
  stored_items (storage w') = ItemMap.values (items (indexer w'))
  /\ items (indexer (restarted (storage w'))) = items (indexer w').
Proof.
  intros Hav Hrun.
  pose proof (rebuildIndex_spec now w) as H.
  unfold ends in H. rewrite Hrun in H. destruct H as [Hitems Hst].
  specialize (Hst Hav). split; [exact Hst |].
  rewrite (proj1 (restarted_items (storage w'))), Hst.
  apply set_all_values. rewrite Hitems. apply set_all_ok, nil_ok.
Qed.

End Restart.

(** ** The sync of the background service *)

Section Sync.

Context {case_mapping : CaseMapping} {flexsearch : FlexSearchIndex}.

Variable browser : Browser.

Lemma processNode_flat now b :
  length (flat_map (processBookmark now) (processNode b))
  = length (processNode b).
Proof.
  induction b as [id title url dateAdded | id title url dateAdded cs IH]
    using BookmarkItem_tree_ind;
    cbn [processNode BookmarkItem.url BookmarkItem.title BookmarkItem.id
         BookmarkItem.dateAdded BookmarkItem.children];
    rewrite flat_map_app, !length_app.
  - destruct (truthy_str url) eqn:E; simpl; [| reflexivity].
    rewrite E. reflexivity.
  - f_equal.
    + destruct (truthy_str url) eqn:E; simpl; [| reflexivity].
      rewrite E. reflexivity.
    + induction IH as [| c cs Hc _ IHcs]; simpl; [reflexivity |].
      rewrite flat_map_app, !length_app, Hc, IHcs. reflexivity.
Qed.

Lemma fetched_bookmarks_documents now :
  length (convertBookmarksToIndexedItems now (fetched_bookmarks browser))
  = length (fetched_bookmarks browser).
Proof.
  unfold fetched_bookmarks, convertBookmarksToIndexedItems.
  destruct (bookmarks_getTree browser) as [tree | e]; [| reflexivity].
  induction tree as [| b tree IH]; simpl; [reflexivity |].
  rewrite flat_map_app, !length_app, processNode_flat, IH. reflexivity.
Qed.

Lemma convertHistory_length now history :
  (length (convertHistoryToIndexedItems now history) <= length history)%nat.
Proof.
  unfold convertHistoryToIndexedItems. rewrite length_map.
  apply filter_length_le.
Qed.

Lemma set_length k v m :
  (length (ItemMap.set k v m) <= S (length m))%nat.
Proof.
  unfold ItemMap.set. destruct (ItemMap.has k m).
  - assert (H : length (ItemMap.replace k v m) = length m).
    { induction m as [| [k' v'] m IH]; simpl; [reflexivity |].
      destruct (str_eqb k k'); simpl; [reflexivity | rewrite IH; reflexivity]. }
    lia.
  - rewrite length_app. simpl. lia.
Qed.

Lemma set_all_length l m :
  (length (set_all l m) <= length l + length m)%nat.
Proof.
  revert m. induction l as [| x l IH]; intros m; [simpl; lia |].
  specialize (IH (ItemMap.set (IndexedItem.id x) x m)).
  pose proof (set_length (IndexedItem.id x) x m).
  unfold set_all in *. cbn [fold_left length]. lia.
Qed.

(** What the rebuild of a sync reads: what the sync stored, or nothing
    when the storage does not answer. *)
Lemma synced_data (bookmarks : list BookmarkItem.t)
  (history : list HistoryItem.t) (readingList : list ReadingListItem.t) s :
  stored_data
    (snd (StorageManager.setReadingList readingList
            (snd (StorageManager.setHistory history
                    (snd (StorageManager.setBookmarks bookmarks s))))))
  = if Storage.available s then (bookmarks, history, readingList)
    else ([], [], []).
Proof.
  unfold stored_data, StorageManager.setReadingList,
    StorageManager.setHistory, StorageManager.setBookmarks,
    Storage.getBookmarks, Storage.getHistory, Storage.getReadingList.
  destruct (Storage.available s) eqn:E;
    repeat (progress (cbn; rewrite ?E)); reflexivity.
Qed.


(** What is left to read after [clearAllData] and [clearIndex]. *)
Lemma wiped_storage s :
  let s' := snd (Storage.setIndexedItems []
                   (snd (Storage.setSearchIndex []
                           (snd (StorageManager.clearAllData s))))) in
  stored_data s' = ([], [], []) /\ stored_items s' = [].
Proof.
  cbv zeta.
  unfold stored_data, stored_items, StorageManager.clearAllData,
    Storage.setIndexedItems, Storage.setSearchIndex, Storage.getBookmarks,
    Storage.getHistory, Storage.getReadingList, Storage.getIndexedItems.
  destruct (Storage.available s) eqn:E;
    repeat (progress (cbn; rewrite ?E)); split; reflexivity.
Qed.


End Sync.

(* ===================================================================== *)
(** * More properties on concrete worlds *)
(* ===================================================================== *)

Section OnMoreExamples.

Import Examples.

#[local] Existing Instance ascii_case.
#[local] Existing Instance RefIndex.flexsearch.

Lemma rebuild_items_are_namespaced_witness :
  In react_document (rebuild_items 1700000000000 fetched_data)
  /\ starts_with (id_prefix (IndexedItem.type react_document))
                 (IndexedItem.id react_document) = true.
Proof.
  assert (H : In react_document (rebuild_items 1700000000000 fetched_data))
    by (left; vm_compute; reflexivity).
  split; [exact H |].
  exact (proj1 (rebuild_items_are_namespaced 1700000000000 fetched_data
                  react_document H)).
Defined.

Lemma list_all_survives_surroundings_witness :
  isListAllQuery list_bookmarks = true
  /\ isListAllQuery (lit "please " ++ list_bookmarks ++ lit " now") = true.
Proof.
  assert (H : isListAllQuery list_bookmarks = true)
    by (vm_compute; reflexivity).
  split; [exact H |].
  exact (proj1 (list_all_survives_surroundings (lit "please ")
                  list_bookmarks (lit " now") H)).
Defined.

Lemma waitForToken_keeps_the_bucket_witness :
  (1 <= RateLimiter.maxTokens drained)%Q
  /\ (0 < RateLimiter.refillRate drained)%Q
  /\ RateLimiter.lastRefill drained <= 250
  /\ (0 <= RateLimiter.tokens drained
      /\ RateLimiter.tokens drained <= RateLimiter.maxTokens drained)%Q
  /\ (0 <= fst (RateLimiter.waitForToken 250 drained)
      /\ fst (RateLimiter.waitForToken 250 drained)
         <= 1000 / RateLimiter.refillRate drained)%Q.
Proof.
  assert (H1 : (1 <= RateLimiter.maxTokens drained)%Q)
    by (vm_compute; discriminate).
  assert (H2 : (0 < RateLimiter.refillRate drained)%Q)
    by (vm_compute; reflexivity).
  assert (H3 : RateLimiter.lastRefill drained <= 250)
    by (vm_compute; discriminate).
  assert (H4 : (0 <= RateLimiter.tokens drained
                /\ RateLimiter.tokens drained
                   <= RateLimiter.maxTokens drained)%Q)
    by (split; vm_compute; discriminate).
  split; [exact H1 |]. split; [exact H2 |]. split; [exact H3 |].
  split; [exact H4 |].
  exact (proj1 (proj2 (proj2 (proj2 (proj2
           (waitForToken_keeps_the_bucket drained H1 H2 H3 H4)))))).
Defined.

Lemma list_all_without_type_lists_everything_witness :
  isInitialized (indexer two_items) = true
  /\ isListAllQuery (lit "list") = true
  /\ trim (lit "list") <> []
  /\ names_no_type (lit "list") = true
  /\ ItemMap.size (items (indexer two_items)) <= 20
  /\ exists results,
       search 1700000000000 (lit "list") 20 two_items
       = (Fulfilled results, two_items)
       /\ Permutation (map SearchResult.item results)
                      (ItemMap.values (items (indexer two_items))).
Proof.
  assert (H1 : isInitialized (indexer two_items) = true)
    by (vm_compute; reflexivity).
  assert (H2 : isListAllQuery (lit "list") = true)
    by (vm_compute; reflexivity).
  assert (H3 : trim (lit "list") <> []) by (vm_compute; discriminate).
  assert (H4 : names_no_type (lit "list") = true)
    by (vm_compute; reflexivity).
  assert (H5 : ItemMap.size (items (indexer two_items)) <= 20)
    by (vm_compute; discriminate).
  split; [exact H1 |]. split; [exact H2 |]. split; [exact H3 |].
  split; [exact H4 |]. split; [exact H5 |].
  exact (list_all_without_type_lists_everything 1700000000000 (lit "list")
           two_items H1 H2 H3 H4 H5).
Defined.

Lemma search_returns_at_most_maxResults_witness :
  0 <= 1
  /\ Z.of_nat (length (results_of
                         (search 1700000000000 (lit "list") 1 three_items)))
     <= 1.
Proof.
  assert (H : 0 <= 1) by lia.
  split; [exact H |].
  exact (search_returns_at_most_maxResults 1700000000000 (lit "list")
           three_items H).
Defined.

Lemma search_results_are_ranked_witness :
  0 <= 20
  /\ ranked (results_of
               (search 1700000000000 react_rome_paris 20 three_items)).
Proof.
  assert (H : 0 <= 20) by lia.
  split; [exact H |].
  exact (search_results_are_ranked 1700000000000 react_rome_paris
           three_items H).
Defined.

Lemma search_results_are_distinct_witness :
  reachable three_items
  /\ NoDup (result_ids
              (results_of
                 (search 1700000000000 react_rome_paris 20 three_items))).
Proof.
  assert (H : reachable three_items).
  { apply (reachable_call (AddItem paris_page)).
    apply (reachable_call (AddItem rome_visit)).
    apply (reachable_call (AddItem react_bookmark)).
    apply reachable_new. }
  split; [exact H |].
  exact (search_results_are_distinct 1700000000000 react_rome_paris 20 H).
Defined.

Lemma search_on_initialized_indexer_writes_nothing_witness :
  isInitialized (indexer three_items) = true
  /\ exists results w',
       search 1700000000000 react_rome_paris 20 three_items
       = (Fulfilled results, w')
       /\ only_index_differs three_items w'.
Proof.
  assert (H : isInitialized (indexer three_items) = true)
    by (vm_compute; reflexivity).
  split; [exact H |].
  exact (search_on_initialized_indexer_writes_nothing 1700000000000
           react_rome_paris 20 three_items H).
Defined.

Lemma query_without_terms_finds_nothing_witness :
  isListAllQuery (lit "go") = false
  /\ searchTerms (cleanQuery (lit "go")) = []
  /\ exists w',
       search 1700000000000 (lit "go") 20 with_go = (Fulfilled [], w').
Proof.
  assert (H1 : isListAllQuery (lit "go") = false)
    by (vm_compute; reflexivity).
  assert (H2 : searchTerms (cleanQuery (lit "go")) = [])
    by (vm_compute; reflexivity).
  split; [exact H1 |]. split; [exact H2 |].
  exact (query_without_terms_finds_nothing 1700000000000 (lit "go") 20
           with_go H1 H2).
Defined.


Lemma rebuild_is_kept_across_a_restart_witness :
  Storage.available (storage before_rebuild) = true
  /\ rebuildIndex 1700000000000 before_rebuild = (Fulfilled tt, synced)
  /\ items (indexer (restarted (storage synced))) = items (indexer synced).
Proof.
  assert (H1 : Storage.available (storage before_rebuild) = true)
    by (vm_compute; reflexivity).
  assert (H2 : rebuildIndex 1700000000000 before_rebuild
               = (Fulfilled tt, synced))
    by (vm_compute; reflexivity).
  split; [exact H1 |]. split; [exact H2 |].
  exact (proj2 (rebuild_is_kept_across_a_restart 1700000000000
                  before_rebuild H1 H2)).
Defined.

End OnMoreExamples.
